(** * Workflow scheduling, agent messaging and quality loop

    A shallow embedding of the orchestration core of the video production
    system:

    - [A2A]: the agent-to-agent protocol of [protocols/a2a_protocol.py]
      (message queue, pending-response futures, timeout handling);
    - [Orchestrator]: the workflow orchestrator of
      [operations/workflow_orchestrator.py] (registry of workflows, the
      wave-by-wave drive loop, pause / resume / cancel, status query);
    - [QualityLoop]: the quality validation loop of [agents/loop_agents.py];
    - [LongRunning]: the pausable operations of [operations/long_running.py].

    Python dictionaries keyed by strings are finite maps ([gmap string _])
    when only lookup matters and association lists when iteration order is
    visible; Python sets are [gset]; Python floats are binary64 primitive
    floats.  Calls that leave the process (dispatching a step to an agent,
    reading the clock, drawing a uuid) are inputs of the model. *)

From Stdlib Require Import ZArith List Floats.
From stdpp Require Import base option list strings gmap pretty.

Set Default Proof Using "Type".
Local Set Warnings "-inexact-float,-clear-no-such-hyp,-register-all".

Open Scope string_scope.

(** ** Common vocabulary *)

(** [Dict[str, Any]] payloads (task, content, result) are opaque to the
    core; they are carried around as string-keyed association lists. *)
Definition Payload : Type := list (string * string).

(** A Python call either returns a value or raises an exception, of which
    the core only ever uses [str(e)]. *)
Inductive Outcome (A : Type) : Type :=
| Return (a : A)
| Raise (msg : string).
Arguments Return {A} a.
Arguments Raise {A} msg.

(** [str(x)] of an [Optional[str]] inside an f-string. *)
Definition str_optional (o : option string) : string :=
  match o with
  | Some s => s
  | None => "None"
  end.

(** ** The agent-to-agent protocol *)

Module A2A.

Module AgentMessage.
Record t : Type := mk {
  message_id : string;
  sender : string;
  receiver : string;
  message_type : string;
  content : Payload;
  timestamp : string;
  priority : string;
  response_to : option string;
  metadata : Payload
}.
End AgentMessage.

Module MessageResponse.
Record t : Type := mk {
  response_id : string;
  original_message_id : string;
  sender : string;
  content : Payload;
  success : bool;
  timestamp : string;
  error_message : option string
}.
End MessageResponse.

(** An [asyncio.Future]: pending, resolved with a result, or cancelled. *)
Inductive Future : Type :=
| FutPending
| FutResult (r : MessageResponse.t)
| FutCancelled.

(** [Future.set_result] raises [InvalidStateError] unless the future is
    still pending. *)
Definition set_result (fut : Future) (r : MessageResponse.t) : Outcome Future :=
  match fut with
  | FutPending => Return (FutResult r)
  | _ => Raise "invalid state"
  end.

(** [Future.cancel] only changes a pending future. *)
Definition cancel (fut : Future) : Future :=
  match fut with
  | FutPending => FutCancelled
  | _ => fut
  end.

(** A registered handler, seen from the bus: called on a message it
    eventually returns a content or raises. *)
Definition Handler : Type := AgentMessage.t -> Outcome Payload.

Record A2AProtocol : Type := mkProtocol {
  registered_agents : gmap string Handler;
  message_queue : list AgentMessage.t;
  pending_responses : gmap string Future
}.

Definition init : A2AProtocol :=
  {| registered_agents := ∅; message_queue := []; pending_responses := ∅ |}.

Definition with_pending (p : A2AProtocol) (pr : gmap string Future) : A2AProtocol :=
  {| registered_agents := registered_agents p;
     message_queue := message_queue p;
     pending_responses := pr |}.

Definition register_agent (p : A2AProtocol) (agent_name : string)
    (message_handler : Handler) : A2AProtocol :=
  {| registered_agents := <[agent_name := message_handler]> (registered_agents p);
     message_queue := message_queue p;
     pending_responses := pending_responses p |}.

Definition _queue_message (p : A2AProtocol) (message : AgentMessage.t) : A2AProtocol :=
  {| registered_agents := registered_agents p;
     message_queue := message_queue p ++ [message];
     pending_responses := pending_responses p |}.

(** The response built in the [except asyncio.TimeoutError] branch. *)
Definition timeout_response (uuid now : string) (message : AgentMessage.t)
    : MessageResponse.t :=
  {| MessageResponse.response_id := uuid;
     MessageResponse.original_message_id := AgentMessage.message_id message;
     MessageResponse.sender := "system";
     MessageResponse.content := [];
     MessageResponse.success := false;
     MessageResponse.timestamp := now;
     MessageResponse.error_message := Some "Response timeout" |}.

(** [_send_and_await_response] up to its suspension point: a fresh future
    is stored under the message id and the message is queued. *)
Definition _send_and_await_response_begin (p : A2AProtocol)
    (message : AgentMessage.t) : A2AProtocol :=
  _queue_message
    (with_pending p (<[AgentMessage.message_id message := FutPending]> (pending_responses p)))
    message.

(** The timer of [asyncio.wait_for] fires: the awaited future is cancelled
    (a resolved future is left alone).  The caller resumes later. *)
Definition timer_fires (p : A2AProtocol) (message_id : string) : A2AProtocol :=
  with_pending p (alter cancel message_id (pending_responses p)).

(** [_send_and_await_response] from its suspension point on.  The caller is
    woken when its future is resolved or cancelled by the timer; it returns
    the result or the timeout response, and the [finally] clause pops the
    correlation.  [None]: the caller is still suspended. *)
Definition _send_and_await_response_resume (uuid now : string) (p : A2AProtocol)
    (message : AgentMessage.t) : option (MessageResponse.t * A2AProtocol) :=
  let id := AgentMessage.message_id message in
  let popped := with_pending p (delete id (pending_responses p)) in
  match pending_responses p !! id with
  | Some (FutResult response) => Some (response, popped)
  | Some FutCancelled => Some (timeout_response uuid now message, popped)
  | Some FutPending => None
  | None => None
  end.

(** [_send_error_response]: resolves the pending future, if there is one,
    with a failure response. *)
Definition _send_error_response (uuid now : string) (p : A2AProtocol)
    (message : AgentMessage.t) (error : string) : Outcome A2AProtocol :=
  let id := AgentMessage.message_id message in
  match pending_responses p !! id with
  | Some future =>
      let response :=
        {| MessageResponse.response_id := uuid;
           MessageResponse.original_message_id := id;
           MessageResponse.sender := "system";
           MessageResponse.content := [];
           MessageResponse.success := false;
           MessageResponse.timestamp := now;
           MessageResponse.error_message := Some error |} in
      match set_result future response with
      | Return future' => Return (with_pending p (<[id := future']> (pending_responses p)))
      | Raise e => Raise e
      end
  | None => Return p
  end.

(** [_process_message] once the handler has come back with [handled]:
    the response is delivered if a correlation is pending; an exception
    (of the handler or of the delivery) goes to [_send_error_response]. *)
Definition _process_message_complete (uuid now : string) (p : A2AProtocol)
    (message : AgentMessage.t) (handled : Outcome Payload) : Outcome A2AProtocol :=
  let id := AgentMessage.message_id message in
  match handled with
  | Return response_content =>
      match pending_responses p !! id with
      | Some future =>
          let response :=
            {| MessageResponse.response_id := uuid;
               MessageResponse.original_message_id := id;
               MessageResponse.sender := AgentMessage.receiver message;
               MessageResponse.content := response_content;
               MessageResponse.success := true;
               MessageResponse.timestamp := now;
               MessageResponse.error_message := None |} in
          match set_result future response with
          | Return future' => Return (with_pending p (<[id := future']> (pending_responses p)))
          | Raise e => _send_error_response uuid now p message e
          end
      | None => Return p
      end
  | Raise e => _send_error_response uuid now p message e
  end.

(** [_process_message] for a handler that answers at once. *)
Definition _process_message (uuid now : string) (p : A2AProtocol)
    (message : AgentMessage.t) : Outcome A2AProtocol :=
  match registered_agents p !! AgentMessage.receiver message with
  | None =>
      _send_error_response uuid now p message
        ("Unknown agent: " ++ AgentMessage.receiver message)
  | Some handler => _process_message_complete uuid now p message (handler message)
  end.

(** [message_queue.get()] in [start_message_processor]: the processor
    takes the oldest message off the queue. *)
Definition take_message (p : A2AProtocol) : A2AProtocol :=
  {| registered_agents := registered_agents p;
     message_queue := tail (message_queue p);
     pending_responses := pending_responses p |}.

(** What the bus can do while a caller waits or is gone: messages are
    queued and taken off the queue, other callers start or end their own
    waits, timers fire, handlers come back, agents are registered. *)
Inductive Event : Type :=
| EvQueue (m : AgentMessage.t)
| EvTake
| EvAwaitBegin (m : AgentMessage.t)
| EvTimer (id : string)
| EvAwaitResume (uuid now : string) (m : AgentMessage.t)
| EvHandled (uuid now : string) (m : AgentMessage.t) (handled : Outcome Payload)
| EvRegister (name : string) (h : Handler).

(** An exception leaving [_process_message] is caught and logged by
    [start_message_processor]; the state is what it was when raised. *)
Definition step (p : A2AProtocol) (ev : Event) : A2AProtocol :=
  match ev with
  | EvQueue m => _queue_message p m
  | EvTake => take_message p
  | EvAwaitBegin m => _send_and_await_response_begin p m
  | EvTimer id => timer_fires p id
  | EvAwaitResume uuid now m =>
      match _send_and_await_response_resume uuid now p m with
      | Some (_, p') => p'
      | None => p
      end
  | EvHandled uuid now m handled =>
      match _process_message_complete uuid now p m handled with
      | Return p' => p'
      | Raise _ => p
      end
  | EvRegister name h => register_agent p name h
  end.

Definition run (p : A2AProtocol) (evs : list Event) : A2AProtocol :=
  fold_left step evs p.

(** Message ids are drawn with [uuid4]: no later wait reuses [id]. *)
Definition fresh_for (id : string) (ev : Event) : Prop :=
  match ev with
  | EvAwaitBegin m => AgentMessage.message_id m ≠ id
  | _ => True
  end.

(** [ev] leaves the correlation of [id] alone: it is about another message. *)
Definition unrelated (id : string) (ev : Event) : Prop :=
  match ev with
  | EvQueue _ | EvTake | EvRegister _ _ => True
  | EvAwaitBegin m | EvAwaitResume _ _ m | EvHandled _ _ m _ =>
      AgentMessage.message_id m ≠ id
  | EvTimer id' => id' ≠ id
  end.

(** A request of the orchestrator to the script writer, and a second
    message that is in flight at the same time. *)
Definition script_request : AgentMessage.t :=
  {| AgentMessage.message_id := "msg-1";
     AgentMessage.sender := "workflow_orchestrator";
     AgentMessage.receiver := "script_writer";
     AgentMessage.message_type := "execute_task";
     AgentMessage.content := [("topic", "rocks")];
     AgentMessage.timestamp := "t0";
     AgentMessage.priority := "normal";
     AgentMessage.response_to := None;
     AgentMessage.metadata := [] |}.

Definition voice_request : AgentMessage.t :=
  {| AgentMessage.message_id := "msg-2";
     AgentMessage.sender := "workflow_orchestrator";
     AgentMessage.receiver := "voice_synthesizer";
     AgentMessage.message_type := "execute_task";
     AgentMessage.content := [];
     AgentMessage.timestamp := "t1";
     AgentMessage.priority := "normal";
     AgentMessage.response_to := None;
     AgentMessage.metadata := [] |}.

(** *** Sending and broadcasting *)

(** The message [send_message] builds; [uuid] is the id it draws and [now]
    the reading of the clock. *)
Definition new_message (uuid now sender receiver message_type : string)
    (content : Payload) (priority : string) : AgentMessage.t :=
  {| AgentMessage.message_id := uuid;
     AgentMessage.sender := sender;
     AgentMessage.receiver := receiver;
     AgentMessage.message_type := message_type;
     AgentMessage.content := content;
     AgentMessage.timestamp := now;
     AgentMessage.priority := priority;
     AgentMessage.response_to := None;
     AgentMessage.metadata := [] |}.

(** [send_message] up to its first suspension, with the message it has
    built.  Without [wait_for_response] the call is over and has returned
    [None]; with it the caller is suspended in [_send_and_await_response]
    and goes on as [_send_and_await_response_resume]. *)
Definition send_message (uuid now : string) (p : A2AProtocol)
    (sender receiver message_type : string) (content : Payload)
    (priority : string) (wait_for_response : bool) : AgentMessage.t * A2AProtocol :=
  let message := new_message uuid now sender receiver message_type content priority in
  if wait_for_response then (message, _send_and_await_response_begin p message)
  else (message, _queue_message p message).

(** [target_agents or list(self.registered_agents.keys())]: a missing and
    an empty target list both stand for every registered agent. *)
Definition receivers_of (target_agents : option (list string)) (keys : list string)
    : list string :=
  match target_agents with
  | Some (receiver :: targets) => receiver :: targets
  | _ => keys
  end.

(** [broadcast_message].  [keys] is [list(self.registered_agents.keys())],
    the names in the order in which they were first registered (an order
    the finite map does not record); [draw n] is the id and the clock
    reading of the [n]-th message built.  The second component is the
    number of agents named in the log record. *)
Definition broadcast_message (draw : nat -> string * string) (keys : list string)
    (p : A2AProtocol) (sender message_type : string) (content : Payload)
    (target_agents : option (list string)) : A2AProtocol * nat :=
  let receivers := receivers_of target_agents keys in
  let sent :=
    fold_left
      (fun (st : A2AProtocol * nat) receiver =>
         if decide (receiver ≠ sender) then
           ((send_message (draw st.2).1 (draw st.2).2 st.1 sender receiver
               message_type content "normal" false).2, S st.2)
         else st)
      receivers (p, 0) in
  (sent.1, length receivers).

(** The response [_process_message] builds for a handler that returned. *)
Definition success_response (uuid now : string) (message : AgentMessage.t)
    (response_content : Payload) : MessageResponse.t :=
  {| MessageResponse.response_id := uuid;
     MessageResponse.original_message_id := AgentMessage.message_id message;
     MessageResponse.sender := AgentMessage.receiver message;
     MessageResponse.content := response_content;
     MessageResponse.success := true;
     MessageResponse.timestamp := now;
     MessageResponse.error_message := None |}.

(** The response [_send_error_response] builds. *)
Definition error_response (uuid now : string) (message : AgentMessage.t)
    (error : string) : MessageResponse.t :=
  {| MessageResponse.response_id := uuid;
     MessageResponse.original_message_id := AgentMessage.message_id message;
     MessageResponse.sender := "system";
     MessageResponse.content := [];
     MessageResponse.success := false;
     MessageResponse.timestamp := now;
     MessageResponse.error_message := Some error |}.

(** What the waiting caller is to get for what the handler came back with. *)
Definition response_for (uuid now : string) (message : AgentMessage.t)
    (handled : Outcome Payload) : MessageResponse.t :=
  match handled with
  | Return response_content => success_response uuid now message response_content
  | Raise e => error_response uuid now message e
  end.

End A2A.

(** ** The workflow orchestrator *)

Module Orchestrator.

Inductive WorkflowStatus : Type :=
| PENDING
| RUNNING
| PAUSED
| COMPLETED
| FAILED
| CANCELLED.

#[global] Instance WorkflowStatus_eq_dec : EqDecision WorkflowStatus.
Proof. solve_decision. Defined.

(** The [value] of the enum member. *)
Definition value (s : WorkflowStatus) : string :=
  match s with
  | PENDING => "pending"
  | RUNNING => "running"
  | PAUSED => "paused"
  | COMPLETED => "completed"
  | FAILED => "failed"
  | CANCELLED => "cancelled"
  end.

(** A reading of [datetime.now()]. *)
Definition datetime : Type := nat.

Module WorkflowStep.
Record t : Type := mk {
  step_id : string;
  agent_name : string;
  task : Payload;
  dependencies : list string;
  status : WorkflowStatus;
  result : option Payload;
  error : option string;
  started_at : option datetime;
  completed_at : option datetime
}.

(** [WorkflowStep.__init__] *)
Definition new (step_id agent_name : string) (task : Payload)
    (dependencies : list string) : t :=
  {| step_id := step_id; agent_name := agent_name; task := task;
     dependencies := dependencies; status := PENDING; result := None;
     error := None; started_at := None; completed_at := None |}.

Definition set_status (v : WorkflowStatus) (s : t) : t :=
  mk (step_id s) (agent_name s) (task s) (dependencies s) v (result s)
     (error s) (started_at s) (completed_at s).
Definition set_result (v : Payload) (s : t) : t :=
  mk (step_id s) (agent_name s) (task s) (dependencies s) (status s) (Some v)
     (error s) (started_at s) (completed_at s).
Definition set_error (v : string) (s : t) : t :=
  mk (step_id s) (agent_name s) (task s) (dependencies s) (status s) (result s)
     (Some v) (started_at s) (completed_at s).
Definition set_started_at (v : datetime) (s : t) : t :=
  mk (step_id s) (agent_name s) (task s) (dependencies s) (status s) (result s)
     (error s) (Some v) (completed_at s).
Definition set_completed_at (v : datetime) (s : t) : t :=
  mk (step_id s) (agent_name s) (task s) (dependencies s) (status s) (result s)
     (error s) (started_at s) (Some v).
End WorkflowStep.

(** The workflow dictionary built by [create_video_production_workflow].
    [steps] keeps the insertion order of the Python dict, which is the
    order in which ready steps are dispatched. *)
Module Workflow.
Record t : Type := mk {
  workflow_id : string;
  session_id : string;
  topic : string;
  status : WorkflowStatus;
  steps : list (string * WorkflowStep.t);
  created_at : string;
  current_step : option string;
  results : gmap string Payload
}.

Definition set_status (v : WorkflowStatus) (w : t) : t :=
  mk (workflow_id w) (session_id w) (topic w) v (steps w) (created_at w)
     (current_step w) (results w).
Definition set_steps (v : list (string * WorkflowStep.t)) (w : t) : t :=
  mk (workflow_id w) (session_id w) (topic w) (status w) v (created_at w)
     (current_step w) (results w).
Definition set_results (v : gmap string Payload) (w : t) : t :=
  mk (workflow_id w) (session_id w) (topic w) (status w) (steps w) (created_at w)
     (current_step w) v.
End Workflow.

(** What the orchestrator writes to its logger. *)
Inductive LogRecord : Type :=
| LogCreated (workflow_id topic : string)
| LogStarting (workflow_id : string)
| LogNoReadySteps (pending_steps : list string)
| LogExecutingStep (step_id agent_name : string)
| LogStepFailed (step_id err : string)
| LogStepStatus (step_id : string) (status : WorkflowStatus)
| LogWorkflowFailed (failed_steps : list string)
| LogWorkflowCompleted (workflow_id : string)
| LogPaused (workflow_id : string)
| LogResumed (workflow_id : string)
| LogCancelled (workflow_id : string).

Record WorkflowOrchestrator : Type := mkOrchestrator {
  active_workflows : gmap string Workflow.t;
  logger : list LogRecord
}.

Definition new : WorkflowOrchestrator :=
  {| active_workflows := ∅; logger := [] |}.

(** [_create_production_steps] *)
Definition _create_production_steps (topic : string) : list (string * WorkflowStep.t) :=
  [ ("research_trends",
     WorkflowStep.new "research_trends" "researcher_trends"
       [("topic", topic); ("research_type", "trends")] []);
    ("research_facts",
     WorkflowStep.new "research_facts" "researcher_facts"
       [("topic", topic); ("research_type", "facts")] []);
    ("research_competition",
     WorkflowStep.new "research_competition" "researcher_competition"
       [("topic", topic); ("research_type", "competition")] []);
    ("script_writing",
     WorkflowStep.new "script_writing" "script_writer" [("topic", topic)]
       ["research_trends"; "research_facts"; "research_competition"]);
    ("voiceover_production",
     WorkflowStep.new "voiceover_production" "voice_synthesizer" []
       ["script_writing"]);
    ("visual_production",
     WorkflowStep.new "visual_production" "video_editor" [] ["script_writing"]);
    ("thumbnail_creation",
     WorkflowStep.new "thumbnail_creation" "thumbnail_generator" []
       ["script_writing"]);
    ("quality_validation",
     WorkflowStep.new "quality_validation" "quality_validator" []
       ["voiceover_production"; "visual_production"; "thumbnail_creation"]);
    ("final_assembly",
     WorkflowStep.new "final_assembly" "video_assembler" []
       ["quality_validation"]) ].

(** [create_video_production_workflow]; [now] is the creation time in ISO
    format. *)
Definition create_video_production_workflow (o : WorkflowOrchestrator)
    (now session_id topic : string) : string * WorkflowOrchestrator :=
  let workflow_id := "workflow_" ++ session_id in
  let workflow :=
    {| Workflow.workflow_id := workflow_id;
       Workflow.session_id := session_id;
       Workflow.topic := topic;
       Workflow.status := PENDING;
       Workflow.steps := _create_production_steps topic;
       Workflow.created_at := now;
       Workflow.current_step := None;
       Workflow.results := ∅ |} in
  (workflow_id,
   {| active_workflows := <[workflow_id := workflow]> (active_workflows o);
      logger := logger o ++ [LogCreated workflow_id topic] |}).

(** *** Dispatching one step *)

(** Everything a run takes from outside the process: what
    [a2a_protocol.send_message] comes back with for the step stored under
    [key] when it is dispatched in wave number [wave], and the two clock
    readings of that dispatch. *)
Record World : Type := mkWorld {
  send_message : nat -> string -> string -> Payload ->
                 Outcome (option A2A.MessageResponse.t);
  started_time : nat -> string -> datetime;
  settled_time : nat -> string -> datetime
}.

(** [_execute_workflow_step] up to the [await]. *)
Definition begin_step (now : datetime) (step : WorkflowStep.t) : WorkflowStep.t :=
  WorkflowStep.set_started_at now (WorkflowStep.set_status RUNNING step).

(** [_execute_workflow_step] after the [await]: the content of a successful
    response is returned; anything else is raised after the error text has
    been stored on the step. *)
Definition settle_step (now : datetime)
    (response : Outcome (option A2A.MessageResponse.t)) (step : WorkflowStep.t)
    : WorkflowStep.t * Outcome Payload :=
  let failed (msg : string) :=
    (WorkflowStep.set_error msg (WorkflowStep.set_completed_at now step),
     Raise msg) in
  match response with
  | Return (Some r) =>
      if A2A.MessageResponse.success r then
        (WorkflowStep.set_completed_at now step,
         Return (A2A.MessageResponse.content r))
      else
        failed ("Agent execution failed: " ++
                str_optional (A2A.MessageResponse.error_message r))
  | Return None => failed "Agent execution failed: No response received"
  | Raise e => failed e
  end.

Definition _execute_workflow_step (world : World) (wave : nat) (key : string)
    (step : WorkflowStep.t) : WorkflowStep.t * Outcome Payload :=
  settle_step (settled_time world wave key)
    (send_message world wave key (WorkflowStep.agent_name step) (WorkflowStep.task step))
    (begin_step (started_time world wave key) step).

(** *** The drive loop *)

(** The step object stored under [key] is replaced by [f] of it. *)
Definition update_step (key : string) (f : WorkflowStep.t -> WorkflowStep.t)
    (steps : list (string * WorkflowStep.t)) : list (string * WorkflowStep.t) :=
  map (fun ks => if decide (ks.1 = key) then (ks.1, f ks.2) else ks) steps.

(** The condition of the [ready_steps] comprehension. *)
Definition is_ready (executed_steps : gset string) (step : WorkflowStep.t) : bool :=
  bool_decide (WorkflowStep.step_id step ∉ executed_steps)
  && forallb (fun dep => bool_decide (dep ∈ executed_steps))
       (WorkflowStep.dependencies step).

Definition ready_steps (executed_steps : gset string)
    (steps : list (string * WorkflowStep.t)) : list (string * WorkflowStep.t) :=
  List.filter (fun ks => is_ready executed_steps ks.2) steps.

Definition pending_steps (executed_steps : gset string)
    (steps : list (string * WorkflowStep.t)) : list string :=
  map fst (List.filter (fun ks => bool_decide (ks.1 ∉ executed_steps)) steps).

Definition failed_steps (steps : list (string * WorkflowStep.t)) : list string :=
  map fst (List.filter (fun ks => bool_decide (WorkflowStep.status ks.2 = FAILED)) steps).

(** The local variables of [execute_workflow] together with the workflow
    object it works on; [wave] counts the rounds of the loop. *)
Record LoopState : Type := mkLoop {
  workflow : Workflow.t;
  executed_steps : gset string;
  log : list LogRecord;
  wave : nat
}.

(** Calls of [pause_workflow] and [cancel_workflow] made by other
    coroutines while the loop is suspended in [asyncio.gather], with what
    each does to the workflow object (see [pause_workflow_effect] and
    [cancel_workflow_effect]).  A [resume_workflow] would also start a
    second [execute_workflow] on the same workflow; the model follows one
    call. *)
Inductive Control : Type :=
| CallPause
| CallCancel.

Definition control_effect (c : Control) (w : Workflow.t) : Workflow.t :=
  match c with
  | CallPause =>
      if decide (Workflow.status w = RUNNING) then Workflow.set_status PAUSED w else w
  | CallCancel => Workflow.set_status CANCELLED w
  end.

(** What the call writes to the logger of the orchestrator. *)
Definition control_record (c : Control) (w : Workflow.t) : list LogRecord :=
  match c with
  | CallPause =>
      if decide (Workflow.status w = RUNNING) then [LogPaused (Workflow.workflow_id w)]
      else []
  | CallCancel => [LogCancelled (Workflow.workflow_id w)]
  end.

Definition interfere (calls : list Control) (wl : Workflow.t * list LogRecord)
    : Workflow.t * list LogRecord :=
  fold_left
    (fun (wl : Workflow.t * list LogRecord) c =>
       (control_effect c wl.1, (wl.2 ++ control_record c wl.1)%list))
    calls wl.

(** One dispatched step of a wave: its key, the step object as
    [_execute_workflow_step] leaves it, and what [gather] collects for it. *)
Definition Dispatched : Type := string * WorkflowStep.t * Outcome Payload.

Definition dispatch (world : World) (wave : nat)
    (ready : list (string * WorkflowStep.t)) : list Dispatched :=
  map (fun ks =>
         let settled := _execute_workflow_step world wave ks.1 ks.2 in
         (ks.1, settled.1, settled.2)) ready.

(** How far the coroutine of a dispatched step has come when an observer
    looks at the workflow during the [await] of [gather]. *)
Inductive Progress : Type :=
| NotStarted
| Awaiting
| Settled.

(** The step store while a wave is in flight. *)
Definition in_flight (world : World) (wave : nat) (progress : string -> Progress)
    (ready : list (string * WorkflowStep.t))
    (steps : list (string * WorkflowStep.t)) : list (string * WorkflowStep.t) :=
  fold_left
    (fun store ks =>
       match progress ks.1 with
       | NotStarted => store
       | Awaiting =>
           update_step ks.1 (fun _ => begin_step (started_time world wave ks.1) ks.2) store
       | Settled =>
           update_step ks.1 (fun _ => (_execute_workflow_step world wave ks.1 ks.2).1) store
       end)
    ready steps.

(** The step store once every coroutine of the wave has come back. *)
Definition gathered (dispatched : list Dispatched)
    (steps : list (string * WorkflowStep.t)) : list (string * WorkflowStep.t) :=
  fold_left (fun store d => update_step d.1.1 (fun _ => d.1.2) store) dispatched steps.

(** The body of [for step, result in zip(ready_steps, step_results)]. *)
Definition process_result (st : LoopState) (d : Dispatched) : LoopState :=
  let key := d.1.1 in
  let step_id := WorkflowStep.step_id d.1.2 in
  let w := workflow st in
  match d.2 with
  | Raise e =>
      {| workflow :=
           Workflow.set_steps
             (update_step key
                (fun s => WorkflowStep.set_error e (WorkflowStep.set_status FAILED s))
                (Workflow.steps w)) w;
         executed_steps := executed_steps st;
         log := log st ++ [LogStepFailed step_id e; LogStepStatus step_id FAILED];
         wave := wave st |}
  | Return result =>
      {| workflow :=
           Workflow.set_results (<[step_id := result]> (Workflow.results w))
             (Workflow.set_steps
                (update_step key
                   (fun s => WorkflowStep.set_result result
                               (WorkflowStep.set_status COMPLETED s))
                   (Workflow.steps w)) w);
         executed_steps := executed_steps st ∪ {[step_id]};
         log := log st ++ [LogStepStatus step_id COMPLETED];
         wave := wave st |}
  end.

(** One evaluation of the [while] condition and, if it holds, of the loop
    body: the loop is left ([Exit]) or a wave has been run ([Continue]). *)
Inductive Iteration : Type :=
| Continue (st : LoopState)
| Exit (st : LoopState).

Definition iteration (world : World) (calls : nat -> list Control)
    (st : LoopState) : Iteration :=
  let w := workflow st in
  if decide (size (executed_steps st) < length (Workflow.steps w)) then
    let ready := ready_steps (executed_steps st) (Workflow.steps w) in
    match ready with
    | [] =>
        Exit {| workflow := w;
                executed_steps := executed_steps st;
                log := log st ++
                       [LogNoReadySteps (pending_steps (executed_steps st) (Workflow.steps w))];
                wave := wave st |}
    | _ :: _ =>
        let dispatched := dispatch world (wave st) ready in
        let disturbed :=
          interfere (calls (wave st))
            (Workflow.set_steps (gathered dispatched (Workflow.steps w)) w,
             (log st ++
              map (fun ks => LogExecutingStep (WorkflowStep.step_id ks.2)
                               (WorkflowStep.agent_name ks.2)) ready)%list) in
        let settled :=
          {| workflow := disturbed.1;
             executed_steps := executed_steps st;
             log := disturbed.2;
             wave := wave st |} in
        let processed := fold_left process_result dispatched settled in
        Continue {| workflow := workflow processed;
                    executed_steps := executed_steps processed;
                    log := log processed;
                    wave := S (wave st) |}
    end
  else Exit st.

(** The [while] loop, run for at most [fuel] waves.  [None]: the loop is
    still running after [fuel] waves. *)
Fixpoint drive (world : World) (calls : nat -> list Control) (fuel : nat)
    (st : LoopState) : option LoopState :=
  match iteration world calls st with
  | Exit st' => Some st'
  | Continue st' =>
      match fuel with
      | O => None
      | S fuel' => drive world calls fuel' st'
      end
  end.

(** The final status determination after the loop. *)
Definition conclude (st : LoopState) : LoopState :=
  let w := workflow st in
  match failed_steps (Workflow.steps w) with
  | [] =>
      {| workflow := Workflow.set_status COMPLETED w;
         executed_steps := executed_steps st;
         log := log st ++ [LogWorkflowCompleted (Workflow.workflow_id w)];
         wave := wave st |}
  | failed =>
      {| workflow := Workflow.set_status FAILED w;
         executed_steps := executed_steps st;
         log := log st ++ [LogWorkflowFailed failed];
         wave := wave st |}
  end.

(** The state in which [execute_workflow] enters its loop. *)
Definition enter (o : WorkflowOrchestrator) (workflow_id : string)
    (w : Workflow.t) : LoopState :=
  {| workflow := Workflow.set_status RUNNING w;
     executed_steps := ∅;
     log := logger o ++ [LogStarting workflow_id];
     wave := 0 |}.

(** [execute_workflow].  The exceptions of the dispatched steps are
    collected by [gather(return_exceptions=True)], and nothing else in the
    [try] block raises, so the [except] clause has no run in this model.
    [calls] says what other coroutines do to the workflow during each wave;
    [None] means that the call has not returned after [fuel] waves. *)
Definition execute_workflow (world : World) (calls : nat -> list Control)
    (fuel : nat) (o : WorkflowOrchestrator) (workflow_id : string)
    : option (Outcome (gmap string Payload) * WorkflowOrchestrator) :=
  match active_workflows o !! workflow_id with
  | None => Some (Raise ("Workflow not found: " ++ workflow_id), o)
  | Some w =>
      match drive world calls fuel (enter o workflow_id w) with
      | None => None
      | Some st =>
          let final := conclude st in
          Some (Return (Workflow.results (workflow final)),
                {| active_workflows :=
                     <[workflow_id := workflow final]> (active_workflows o);
                   logger := log final |})
      end
  end.

(** A run that no other coroutine disturbs. *)
Definition undisturbed : nat -> list Control := fun _ => [].

(** *** Pause, resume, cancel and the status query *)

Definition pause_workflow (o : WorkflowOrchestrator) (workflow_id : string)
    : bool * WorkflowOrchestrator :=
  match active_workflows o !! workflow_id with
  | None => (false, o)
  | Some w =>
      if decide (Workflow.status w = RUNNING) then
        (true,
         {| active_workflows :=
              <[workflow_id := Workflow.set_status PAUSED w]> (active_workflows o);
            logger := logger o ++ [LogPaused workflow_id] |})
      else (false, o)
  end.

(** [resume_workflow]; the third component is the workflow for which an
    [execute_workflow] task has been created, if any. *)
Definition resume_workflow (o : WorkflowOrchestrator) (workflow_id : string)
    : bool * WorkflowOrchestrator * option string :=
  match active_workflows o !! workflow_id with
  | None => (false, o, None)
  | Some w =>
      if decide (Workflow.status w = PAUSED) then
        (true,
         {| active_workflows :=
              <[workflow_id := Workflow.set_status RUNNING w]> (active_workflows o);
            logger := logger o ++ [LogResumed workflow_id] |},
         Some workflow_id)
      else (false, o, None)
  end.

Definition cancel_workflow (o : WorkflowOrchestrator) (workflow_id : string)
    : bool * WorkflowOrchestrator :=
  match active_workflows o !! workflow_id with
  | None => (false, o)
  | Some w =>
      (true,
       {| active_workflows :=
            <[workflow_id := Workflow.set_status CANCELLED w]> (active_workflows o);
          logger := logger o ++ [LogCancelled workflow_id] |})
  end.

Module StepDetail.
Record t : Type := mk {
  status : string;
  agent : string;
  started_at : option datetime;
  completed_at : option datetime;
  error : option string
}.
End StepDetail.

Module StatusReport.
Record t : Type := mk {
  workflow_id : string;
  status : string;
  progress : float;
  current_step : option string;
  completed_steps : nat;
  total_steps : nat;
  created_at : string;
  step_details : list (string * StepDetail.t)
}.
End StatusReport.

Inductive StatusReply : Type :=
| StatusError (error : string)
| Status (report : StatusReport.t).

Definition float_of_nat (n : nat) : float :=
  PrimFloat.of_uint63 (Uint63.of_Z (Z.of_nat n)).

(** The integer nearest to [n / d], a tie going to the even one. *)
Definition round_half_even (n d : Z) : Z :=
  let q := (n / d)%Z in
  let r := (n mod d)%Z in
  if (d <? 2 * r)%Z || ((d =? 2 * r)%Z && Z.odd q) then (q + 1)%Z else q.

(** [round(x, 2)] on a float: the exact value of [x] is rounded, half to
    even, to a multiple [q / 100] of a hundredth, and the result is the
    float nearest to [q / 100].  A float of magnitude [2^46] or more is
    nearer to its rounded value than any other float and is returned as
    it is, as are zeros, infinities and NaN; below that [q] is less than
    [2^53], so the division rounds once. *)
Definition round_2 (x : float) : float :=
  match Prim2SF x with
  | S754_finite s m e =>
      if (0 <=? e)%Z then x
      else if (46 <=? Z.log2 (Z.pos m) + e)%Z then x
      else
        let q := round_half_even (Z.pos m * 100) (2 ^ (- e)) in
        let r := (PrimFloat.of_uint63 (Uint63.of_Z q) / 100)%float in
        if s then PrimFloat.opp r else r
  | _ => x
  end.

(** [get_workflow_status]. *)
Definition get_workflow_status (o : WorkflowOrchestrator) (workflow_id : string)
    : StatusReply :=
  match active_workflows o !! workflow_id with
  | None => StatusError "Workflow not found"
  | Some w =>
      let total_steps := length (Workflow.steps w) in
      let completed_steps :=
        length (List.filter
                  (fun ks => bool_decide (WorkflowStep.status ks.2 = COMPLETED)
                             || bool_decide (WorkflowStep.status ks.2 = FAILED))
                  (Workflow.steps w)) in
      let progress :=
        if decide (0 < total_steps) then
          (float_of_nat completed_steps / float_of_nat total_steps * 100)%float
        else 0%float in
      Status
        {| StatusReport.workflow_id := workflow_id;
           StatusReport.status := value (Workflow.status w);
           StatusReport.progress := round_2 progress;
           StatusReport.current_step := Workflow.current_step w;
           StatusReport.completed_steps := completed_steps;
           StatusReport.total_steps := total_steps;
           StatusReport.created_at := Workflow.created_at w;
           StatusReport.step_details :=
             map (fun ks =>
                    (ks.1,
                     {| StepDetail.status := value (WorkflowStep.status ks.2);
                        StepDetail.agent := WorkflowStep.agent_name ks.2;
                        StepDetail.started_at := WorkflowStep.started_at ks.2;
                        StepDetail.completed_at := WorkflowStep.completed_at ks.2;
                        StepDetail.error := WorkflowStep.error ks.2 |}))
                 (Workflow.steps w) |}
  end.

(** *** Sample worlds and workflows *)

(** The message [send_message] builds for a dispatch (its id and timestamp
    are drawn by the protocol; here they are read off the wave and key). *)
Definition request (key receiver : string) (content : Payload) : A2A.AgentMessage.t :=
  {| A2A.AgentMessage.message_id := key;
     A2A.AgentMessage.sender := "workflow_orchestrator";
     A2A.AgentMessage.receiver := receiver;
     A2A.AgentMessage.message_type := "execute_task";
     A2A.AgentMessage.content := content;
     A2A.AgentMessage.timestamp := "";
     A2A.AgentMessage.priority := "normal";
     A2A.AgentMessage.response_to := None;
     A2A.AgentMessage.metadata := [] |}.

Definition answer (key receiver : string) : A2A.MessageResponse.t :=
  {| A2A.MessageResponse.response_id := "";
     A2A.MessageResponse.original_message_id := key;
     A2A.MessageResponse.sender := receiver;
     A2A.MessageResponse.content := [("output", key)];
     A2A.MessageResponse.success := true;
     A2A.MessageResponse.timestamp := "";
     A2A.MessageResponse.error_message := None |}.

(** Every agent answers. *)
Definition obliging : World :=
  {| send_message := fun _ key receiver _ => Return (Some (answer key receiver));
     started_time := fun wave _ => 2 * wave;
     settled_time := fun wave _ => 2 * wave + 1 |}.

(** No agent ever answers: every dispatch ends with the timeout response
    of the protocol. *)
Definition silent : World :=
  {| send_message := fun _ key receiver content =>
       Return (Some (A2A.timeout_response "" "" (request key receiver content)));
     started_time := fun wave _ => 2 * wave;
     settled_time := fun wave _ => 2 * wave + 1 |}.

(** The agents are down during the first wave and answer from then on. *)
Definition recovering : World :=
  {| send_message := fun wave key receiver content =>
       match wave with
       | O => send_message silent wave key receiver content
       | S _ => send_message obliging wave key receiver content
       end;
     started_time := fun wave _ => 2 * wave;
     settled_time := fun wave _ => 2 * wave + 1 |}.

Definition workflow_of (steps : list (string * WorkflowStep.t)) : Workflow.t :=
  {| Workflow.workflow_id := "workflow_s1";
     Workflow.session_id := "s1";
     Workflow.topic := "rocks";
     Workflow.status := PENDING;
     Workflow.steps := steps;
     Workflow.created_at := "2025-01-01T00:00:00";
     Workflow.current_step := None;
     Workflow.results := ∅ |}.

Definition orchestrating (steps : list (string * WorkflowStep.t)) : WorkflowOrchestrator :=
  {| active_workflows := {[ "workflow_s1" := workflow_of steps ]}; logger := [] |}.

(** Two steps that wait for each other. *)
Definition deadlocked : list (string * WorkflowStep.t) :=
  [("A", WorkflowStep.new "A" "script_writer" [] ["B"]);
   ("B", WorkflowStep.new "B" "researcher_facts" [] ["A"])].

(** The first research step has come back; the other coroutines of the
    wave are still waiting for their agents. *)
Definition trends_back_first (key : string) : Progress :=
  if decide (key = "research_trends") then Settled else Awaiting.

(** Another coroutine cancels, or pauses, the workflow while the first
    wave is in flight. *)
Definition cancelled_in_first_wave : nat -> list Control :=
  fun wave => match wave with O => [CallCancel] | S _ => [] end.

Definition paused_in_first_wave : nat -> list Control :=
  fun wave => match wave with O => [CallPause] | S _ => [] end.

(** *** Reading a run *)

(** The orchestrator after [create_video_production_workflow] for session
    "s1" and topic "rocks". *)
Definition producing : WorkflowOrchestrator :=
  (create_video_production_workflow new "2025-01-01T00:00:00" "s1" "rocks").2.

(** The workflow it holds under "workflow_s1", and the state in which
    [execute_workflow] enters its loop on it. *)
Definition production_workflow : Workflow.t :=
  workflow_of (_create_production_steps "rocks").

Definition production_start : LoopState :=
  enter producing "workflow_s1" production_workflow.

(** The status of a registered workflow, and its step stored under [key]. *)
Definition status_of (o : WorkflowOrchestrator) (workflow_id : string)
    : option WorkflowStatus :=
  Workflow.status <$> active_workflows o !! workflow_id.

Definition step_of (o : WorkflowOrchestrator) (workflow_id key : string)
    : option WorkflowStep.t :=
  w ← active_workflows o !! workflow_id;
  snd <$> List.find (fun ks => bool_decide (ks.1 = key)) (Workflow.steps w).

(** What a caller sees of a call of [execute_workflow] that has returned:
    the final status of the workflow, a step, the log, the result
    returned for a step. *)
Definition final_status (workflow_id : string)
    (run : option (Outcome (gmap string Payload) * WorkflowOrchestrator))
    : option WorkflowStatus :=
  ro ← run; status_of ro.2 workflow_id.

Definition final_step (workflow_id key : string)
    (run : option (Outcome (gmap string Payload) * WorkflowOrchestrator))
    : option WorkflowStep.t :=
  ro ← run; step_of ro.2 workflow_id key.

Definition final_log
    (run : option (Outcome (gmap string Payload) * WorkflowOrchestrator))
    : option (list LogRecord) :=
  (fun ro => logger ro.2) <$> run.

Definition returned_for (key : string)
    (run : option (Outcome (gmap string Payload) * WorkflowOrchestrator))
    : option Payload :=
  ro ← run;
  match ro.1 with
  | Return results => results !! key
  | Raise _ => None
  end.

(** The loop after exactly [n] waves; [None] if it is left before. *)
Fixpoint after_waves (world : World) (calls : nat -> list Control) (n : nat)
    (st : LoopState) : option LoopState :=
  match n with
  | O => Some st
  | S n' =>
      match iteration world calls st with
      | Continue st' => after_waves world calls n' st'
      | Exit _ => None
      end
  end.

(** The step stored under [key] in a state of the loop. *)
Definition step_in (key : string) (st : LoopState) : option WorkflowStep.t :=
  snd <$> List.find (fun ks => bool_decide (ks.1 = key)) (Workflow.steps (workflow st)).

(** What [process_result] does to the step object. *)
Definition mark (outcome : Outcome Payload) (step : WorkflowStep.t) : WorkflowStep.t :=
  match outcome with
  | Return result =>
      WorkflowStep.set_result result (WorkflowStep.set_status COMPLETED step)
  | Raise e => WorkflowStep.set_error e (WorkflowStep.set_status FAILED step)
  end.

(** The step object after the wave in which it was dispatched. *)
Definition finished (world : World) (wave : nat) (key : string)
    (step : WorkflowStep.t) : WorkflowStep.t :=
  let settled := _execute_workflow_step world wave key step in
  mark settled.2 settled.1.

(** A wave, entry by entry of the step dictionary. *)
Definition after_wave (world : World) (wave : nat) (executed_steps : gset string)
    (ks : string * WorkflowStep.t) : string * WorkflowStep.t :=
  if is_ready executed_steps ks.2 then (ks.1, finished world wave ks.1 ks.2) else ks.

Definition during_wave (world : World) (wave : nat) (executed_steps : gset string)
    (progress : string -> Progress) (ks : string * WorkflowStep.t)
    : string * WorkflowStep.t :=
  if is_ready executed_steps ks.2 then
    match progress ks.1 with
    | NotStarted => ks
    | Awaiting => (ks.1, begin_step (started_time world wave ks.1) ks.2)
    | Settled => (ks.1, (_execute_workflow_step world wave ks.1 ks.2).1)
    end
  else ks.

(** The step ids a wave adds to [executed_steps]. *)
Definition completed_ids (dispatched : list Dispatched) : list string :=
  omap (fun d : Dispatched =>
          match d.2 with
          | Return _ => Some (WorkflowStep.step_id d.1.2)
          | Raise _ => None
          end) dispatched.

(** The dispatch of the step stored under [key] fails in every wave. *)
Definition never_succeeds (world : World) (key : string) : Prop :=
  forall wave receiver content,
    match send_message world wave key receiver content with
    | Return (Some r) => A2A.MessageResponse.success r = false
    | _ => True
    end.

(** The loop is at a point where the step stored under [key] is ready,
    in a dictionary with distinct keys and distinct step ids, all
    executed steps being steps of the dictionary. *)
Definition held_up_by (key : string) (st : LoopState) : Prop :=
  let steps := Workflow.steps (workflow st) in
  NoDup (map fst steps)
  ∧ NoDup (map (fun ks => WorkflowStep.step_id ks.2) steps)
  ∧ executed_steps st ⊆ list_to_set (map (fun ks => WorkflowStep.step_id ks.2) steps)
  ∧ exists step, In (key, step) steps ∧ is_ready (executed_steps st) step = true.

(** Every dispatch succeeds. *)
Definition always_succeeds (world : World) : Prop :=
  forall wave key receiver content,
    exists r, send_message world wave key receiver content = Return (Some r)
              ∧ A2A.MessageResponse.success r = true.

(** The dependency graph of a step dictionary: keys, step ids and
    dependencies. No wave changes it. *)
Definition graph (steps : list (string * WorkflowStep.t))
    : list (string * string * list string) :=
  map (fun ks => (ks.1, WorkflowStep.step_id ks.2, WorkflowStep.dependencies ks.2)) steps.

Definition graph_ids (g : list (string * string * list string)) : list string :=
  map (fun n => n.1.2) g.

(** A valid acyclic graph whose chains have at most [height] steps: keys
    and step ids are distinct, and the steps can be put on levels
    [0 .. height - 1] such that every dependency is the id of a step on a
    lower level. *)
Definition layered (level : string -> nat) (height : nat)
    (g : list (string * string * list string)) : Prop :=
  NoDup (map (fun n => n.1.1) g)
  ∧ NoDup (graph_ids g)
  ∧ forall n, In n g ->
      level n.1.2 < height
      ∧ forall dep, In dep n.2 -> In dep (graph_ids g) ∧ level dep < level n.1.2.

(** The loop after [n] waves of a run in which every dispatch succeeds:
    the executed steps are steps of the dictionary, they include every
    step on a level below [n], and they are all completed. *)
Definition on_schedule (level : string -> nat) (n : nat) (st : LoopState) : Prop :=
  let steps := Workflow.steps (workflow st) in
  executed_steps st ⊆ list_to_set (graph_ids (graph steps))
  ∧ (forall ks, In ks steps -> level (WorkflowStep.step_id ks.2) < n ->
       WorkflowStep.step_id ks.2 ∈ executed_steps st)
  ∧ (forall ks, In ks steps -> WorkflowStep.step_id ks.2 ∈ executed_steps st ->
       WorkflowStep.status ks.2 = COMPLETED).

(** Every step with status [FAILED] is ready. *)
Definition failed_are_ready (st : LoopState) : Prop :=
  forall ks, In ks (Workflow.steps (workflow st)) ->
    WorkflowStep.status ks.2 = FAILED ->
    is_ready (executed_steps st) ks.2 = true.

(** The levels of the production workflow: research, script, production,
    validation, assembly. *)
Definition production_level (step_id : string) : nat :=
  if decide (step_id = "script_writing") then 1
  else if decide (step_id ∈ ["voiceover_production"; "visual_production";
                             "thumbnail_creation"]) then 2
  else if decide (step_id = "quality_validation") then 3
  else if decide (step_id = "final_assembly") then 4
  else 0.

(** The states the loop passes through: [reaches world calls st st'] when
    [st'] is [st] after some number of waves. *)
Inductive reaches (world : World) (calls : nat -> list Control)
    : LoopState -> LoopState -> Prop :=
| reaches_here st : reaches world calls st st
| reaches_wave st st' st'' :
    reaches world calls st st' ->
    iteration world calls st' = Continue st'' ->
    reaches world calls st st''.

(** The step dictionaries another coroutine (a status query, say) can see
    during a run that entered its loop in [st0]: at the start of a wave,
    while the wave is in flight with its coroutines at any stage, and when
    the loop has been left. *)
Inductive observed (world : World) (calls : nat -> list Control) (st0 : LoopState)
    : list (string * WorkflowStep.t) -> Prop :=
| observed_between st :
    reaches world calls st0 st ->
    observed world calls st0 (Workflow.steps (workflow st))
| observed_in_flight st st' progress :
    reaches world calls st0 st ->
    iteration world calls st = Continue st' ->
    observed world calls st0
      (in_flight world (wave st) progress
         (ready_steps (executed_steps st) (Workflow.steps (workflow st)))
         (Workflow.steps (workflow st)))
| observed_after st st' :
    reaches world calls st0 st ->
    iteration world calls st = Exit st' ->
    observed world calls st0 (Workflow.steps (workflow (conclude st'))).

(** A step as [WorkflowStep.__init__] leaves it. *)
Definition pristine (step : WorkflowStep.t) : Prop :=
  WorkflowStep.status step = PENDING
  ∧ WorkflowStep.result step = None
  ∧ WorkflowStep.error step = None.

(** The result is there exactly when the step is completed, and a failed
    step has its error. *)
Definition consistent (step : WorkflowStep.t) : Prop :=
  (is_Some (WorkflowStep.result step) <-> WorkflowStep.status step = COMPLETED)
  ∧ (WorkflowStep.status step = FAILED -> is_Some (WorkflowStep.error step)).

(** What the loop maintains from wave to wave: the step is consistent and,
    if it has a result, is counted in [executed_steps]. *)
Definition sound (executed_steps : gset string) (step : WorkflowStep.t) : Prop :=
  consistent step
  ∧ (is_Some (WorkflowStep.result step) -> WorkflowStep.step_id step ∈ executed_steps).

(** The stronger reading: the error, too, is there exactly when the step
    is failed. *)
Definition strictly_consistent (step : WorkflowStep.t) : Prop :=
  (is_Some (WorkflowStep.result step) <-> WorkflowStep.status step = COMPLETED)
  ∧ (is_Some (WorkflowStep.error step) <-> WorkflowStep.status step = FAILED).

(** The log without the records of pause and cancel calls. *)
Definition is_control_record (r : LogRecord) : bool :=
  match r with
  | LogPaused _ | LogResumed _ | LogCancelled _ => true
  | _ => false
  end.

Definition scheduler_log (l : list LogRecord) : list LogRecord :=
  List.filter (fun r => negb (is_control_record r)) l.

(** Two loop states that differ at most in the status of the workflow and
    in the log records of control calls. *)
Definition agree (st1 st2 : LoopState) : Prop :=
  Workflow.set_status PENDING (workflow st1) = Workflow.set_status PENDING (workflow st2)
  ∧ executed_steps st1 = executed_steps st2
  ∧ scheduler_log (log st1) = scheduler_log (log st2)
  ∧ wave st1 = wave st2.

(** *** The results query and what a run records *)

(** [get_workflow_results] answers with the [results] dictionary or with
    an error dictionary. *)
Inductive ResultsReply : Type :=
| ResultsError (error : string)
| Results (results : gmap string Payload).

(** [get_workflow_results].  The status query answers an unknown id with a
    dictionary that has no "status" entry, so that [status["status"]]
    raises [KeyError('status')], whose [str] is ['status']. *)
Definition get_workflow_results (o : WorkflowOrchestrator) (workflow_id : string)
    : Outcome ResultsReply :=
  match get_workflow_status o workflow_id with
  | StatusError _ => Raise "'status'"
  | Status status =>
      if decide (StatusReport.status status ≠ "completed") then
        Return (ResultsError "Workflow not completed")
      else
        match active_workflows o !! workflow_id with
        | Some workflow => Return (Results (Workflow.results workflow))
        | None => Raise ("'" ++ workflow_id ++ "'")
        end
  end.

(** What [process_result] does to the [results] dictionary. *)
Definition record_result (results : gmap string Payload) (d : Dispatched)
    : gmap string Payload :=
  match d.2 with
  | Return result => <[WorkflowStep.step_id d.1.2 := result]> results
  | Raise _ => results
  end.

(** The [results] dictionary and the step objects tell the same story:
    a step has its result under its id, and every entry belongs to an
    executed step. *)
Definition recorded (st : LoopState) : Prop :=
  (forall ks, In ks (Workflow.steps (workflow st)) ->
     Workflow.results (workflow st) !! WorkflowStep.step_id ks.2
     = WorkflowStep.result ks.2)
  ∧ (forall id, is_Some (Workflow.results (workflow st) !! id) ->
       id ∈ executed_steps st).

(** The fields of a workflow that are written once, at its creation. *)
Definition identity (w : Workflow.t)
    : string * string * string * string * option string :=
  (Workflow.workflow_id w, Workflow.session_id w, Workflow.topic w,
   Workflow.created_at w, Workflow.current_step w).

(** The same for its steps: key, id, agent, task and dependencies. *)
Definition blueprint (steps : list (string * WorkflowStep.t))
    : list (string * string * string * Payload * list string) :=
  map (fun ks => (ks.1, WorkflowStep.step_id ks.2, WorkflowStep.agent_name ks.2,
                  WorkflowStep.task ks.2, WorkflowStep.dependencies ks.2)) steps.

(** The steps without dependencies are dispatched, the others are left. *)
Definition first_wave (world : World) (ks : string * WorkflowStep.t)
    : string * WorkflowStep.t :=
  match WorkflowStep.dependencies ks.2 with
  | [] => (ks.1, finished world 0 ks.1 ks.2)
  | _ :: _ => ks
  end.

(** The production workflow paused after its first wave, in which the
    three research steps were completed. *)
Definition paused_after_research : Workflow.t :=
  Workflow.set_status PAUSED
    (workflow match iteration obliging undisturbed production_start with
              | Continue st | Exit st => st
              end).

Definition interrupted : WorkflowOrchestrator :=
  {| active_workflows := {[ "workflow_s1" := paused_after_research ]};
     logger := [] |}.

(** The step ids of the production workflow. *)
Definition production_ids : list string :=
  ["research_trends"; "research_facts"; "research_competition"; "script_writing";
   "voiceover_production"; "visual_production"; "thumbnail_creation";
   "quality_validation"; "final_assembly"].


(** The state after a round of the loop, whether it has run a wave or
    left the loop. *)
Definition next (i : Iteration) : LoopState :=
  match i with
  | Continue st | Exit st => st
  end.






End Orchestrator.

(** ** The quality validation loop *)

Module QualityLoop.

(** The values found in the asset and requirement dictionaries: [None],
    booleans, integers, floats, strings, lists, and dictionaries given by
    their items (in order, one item for each key). *)
Inductive Value : Type :=
| VNone
| VBool (b : bool)
| VInt (n : Z)
| VStr (s : string)
| VFloat (x : float)
| VList (items : list Value)
| VDict (entries : list (string * Value)).

Module Issue.
Record t : Type := mk {
  component : string;
  description : string;
  severity : option string
}.
End Issue.

Module Assessment.
Record t : Type := mk {
  overall_score : float;
  component_scores : list (string * float);
  issues_found : list Issue.t
}.
End Assessment.

Module Improvement.
Record t : Type := mk {
  component : string;
  issue : string;
  suggestion : string;
  priority : string
}.
End Improvement.

(** The [task] argument of [execute]; a missing key reads as [{}]. *)
Module Task.
Record t : Type := mk {
  video_assets : option (gmap string Value);
  quality_requirements : option (gmap string Value)
}.
End Task.

Module Results.
Record t : Type := mk {
  final_quality_score : float;
  iterations_performed : Z;
  improvements_made : list Improvement.t;
  meets_standards : bool
}.
End Results.

(** The attributes [QualityValidatorAgent.__init__] adds to those of
    [BaseAgent] (which [execute] does not touch). *)
Record QualityValidatorAgent : Type := mkAgent {
  quality_threshold : float;
  max_iterations : Z;
  iteration_count : Z
}.

(** [QualityValidatorAgent.__init__]; its defaults are a threshold of
    [0.8] and [5] iterations. *)
Definition new (quality_threshold : float) (max_iterations : Z) : QualityValidatorAgent :=
  {| quality_threshold := quality_threshold;
     max_iterations := max_iterations;
     iteration_count := 0 |}.

(** The agent [self] with its counter at [count]. *)
Definition counting (self : QualityValidatorAgent) (count : Z) : QualityValidatorAgent :=
  {| quality_threshold := quality_threshold self;
     max_iterations := max_iterations self;
     iteration_count := count |}.

Definition _get_improvement_suggestion (issue : Issue.t) : string :=
  let component := Issue.component issue in
  if decide (component = "script_quality") then
    "Rewrite script with more engaging content and clear structure"
  else if decide (component = "audio_quality") then
    "Improve audio clarity and add background music"
  else if decide (component = "visual_quality") then
    "Enhance visuals with better graphics and transitions"
  else if decide (component = "engagement_potential") then
    "Add hooks and calls to action to improve engagement"
  else "General quality improvement needed".

Definition _generate_improvements (assessment : Assessment.t) : list Improvement.t :=
  map (fun issue =>
         {| Improvement.component := Issue.component issue;
            Improvement.issue := Issue.description issue;
            Improvement.suggestion := _get_improvement_suggestion issue;
            Improvement.priority := default "medium" (Issue.severity issue) |})
      (Assessment.issues_found assessment).

Definition _apply_improvements (assets : gmap string Value)
    (improvements : list Improvement.t) : gmap string Value :=
  fold_left
    (fun improved_assets improvement =>
       let component := Improvement.component improvement in
       match improved_assets !! component with
       | Some _ => <[component ++ "_improved" := VBool true]> improved_assets
       | None => improved_assets
       end)
    improvements assets.

(** *** The scoring of the repository *)

(** [d.get(key)] on a dictionary given by its items. *)
Definition dict_get (d : list (string * Value)) (key : string) : option Value :=
  snd <$> List.find (fun kv => bool_decide (kv.1 = key)) d.

(** [min(x, y)] of Python on floats: [y] if [y < x], else [x]. *)
Definition py_min (x y : float) : float :=
  if PrimFloat.ltb y x then y else x.

Definition float_of_len (n : nat) : float :=
  PrimFloat.of_uint63 (Uint63.of_Z (Z.of_nat n)).

(** [not value]: [None], [False], zero, the empty string, the empty list
    and the empty dictionary are false; every other value is true. *)
Definition falsy (value : Value) : bool :=
  match value with
  | VNone => true
  | VBool b => negb b
  | VInt n => (n =? 0)%Z
  | VStr s => bool_decide (s = "")
  | VFloat x => PrimFloat.eqb x 0
  | VList [] | VDict [] => true
  | VList (_ :: _) | VDict (_ :: _) => false
  end.

(** [len(value)]: strings (by their characters), lists and dictionaries
    have a length, the other values raise.  An exception of the scoring
    is named by its class. *)
Definition len (value : Value) : Outcome nat :=
  match value with
  | VStr s => Return (String.length s)
  | VList items => Return (length items)
  | VDict entries => Return (length entries)
  | VNone | VBool _ | VInt _ | VFloat _ => Raise "TypeError"
  end.

(** [_score_script]; [script] is [assets.get("script", {})], whatever is
    stored there.  A true value that is no dictionary has no [get]. *)
Definition _score_script (script : Value) : Outcome float :=
  if falsy script then Return 0.3%float
  else
    match script with
    | VDict entries =>
        match len (default (VList []) (dict_get entries "scenes")) with
        | Return scenes => Return (py_min (0.3 + float_of_len scenes * 0.1) 1.0)%float
        | Raise e => Raise e
        end
    | _ => Raise "AttributeError"
    end.

Definition _score_audio (audio : Value) : float := 0.7.

Definition _score_visuals (visuals : Value) : float := 0.6.

Definition _score_engagement (assets : gmap string Value) : float := 0.8.

(** [x < n] for a float and an integer, which Python compares by their
    exact values. *)
Definition float_lt_int (x : float) (n : Z) : bool :=
  match Prim2SF x with
  | S754_zero _ => (0 <? n)%Z
  | S754_infinity negative => negative
  | S754_nan => false
  | S754_finite negative m e =>
      let mantissa := if negative then Z.neg m else Z.pos m in
      if (0 <=? e)%Z then (mantissa * 2 ^ e <? n)%Z
      else (mantissa <? n * 2 ^ (- e))%Z
  end.

(** [score < threshold] for a float [score]: a boolean compares as the
    integer 1 or 0; [None], a string, a list or a dictionary does not
    compare with a float. *)
Definition less_than (score : float) (threshold : Value) : Outcome bool :=
  match threshold with
  | VFloat x => Return (PrimFloat.ltb score x)
  | VInt n => Return (float_lt_int score n)
  | VBool b => Return (float_lt_int score (if b then 1 else 0))
  | VNone | VStr _ | VList _ | VDict _ => Raise "TypeError"
  end.

Section Scoring.

(** The rendering of a score by the format [.2f] is Python's; the model
    takes it as given. *)
Variable format_2f : float -> string.

(** The loop of [_identify_issues] over the items of [scores]. *)
Fixpoint issues_below (threshold : Value) (scores : list (string * float))
    : Outcome (list Issue.t) :=
  match scores with
  | [] => Return []
  | cs :: scores =>
      match less_than cs.2 threshold with
      | Return below =>
          match issues_below threshold scores with
          | Return issues =>
              Return
                (if below then
                   {| Issue.component := cs.1;
                      Issue.description := "Low " ++ cs.1 ++ " score: " ++ format_2f cs.2;
                      Issue.severity :=
                        Some (if PrimFloat.ltb cs.2 0.5 then "high" else "medium") |}
                   :: issues
                 else issues)
          | Raise e => Raise e
          end
      | Raise e => Raise e
      end
  end.

Definition _identify_issues (scores : list (string * float))
    (requirements : gmap string Value) : Outcome (list Issue.t) :=
  issues_below (default (VFloat 0.7) (requirements !! "min_component_score")) scores.

(** [_assess_quality]; it keeps nothing from one call to the next. *)
Definition _assess_quality (world : unit) (assets requirements : gmap string Value)
    : Outcome Assessment.t * unit :=
  (match _score_script (default (VDict []) (assets !! "script")) with
   | Return script_quality =>
       let scores :=
         [ ("script_quality", script_quality);
           ("audio_quality", _score_audio (default (VDict []) (assets !! "audio")));
           ("visual_quality", _score_visuals (default (VDict []) (assets !! "visuals")));
           ("engagement_potential", _score_engagement assets) ] in
       let overall_score :=
         (fold_left (fun total cs => total + cs.2) scores 0
          / float_of_len (length scores))%float in
       match _identify_issues scores requirements with
       | Return issues_found =>
           Return {| Assessment.overall_score := overall_score;
                     Assessment.component_scores := scores;
                     Assessment.issues_found := issues_found |}
       | Raise e => Raise e
       end
   | Raise e => Raise e
   end, world).

End Scoring.

(** *** The loop *)

Section Execute.

(** [assess] stands for [self._assess_quality], the method a test
    replaces; [W] is whatever the assessment remembers from one call to
    the next. *)
Context {W : Type}.
Variable assess :
  W -> gmap string Value -> gmap string Value -> Outcome Assessment.t * W.

(** The [while] loop of [execute], run for at most [fuel] iterations;
    [None] when the fuel is used up.  An exception of the assessment
    leaves [execute] at once, after the counter has been moved. *)
Fixpoint loop (fuel : nat) (self : QualityValidatorAgent) (world : W)
    (video_assets quality_requirements : gmap string Value)
    (results : Results.t) : option (Outcome Results.t * QualityValidatorAgent * W) :=
  if (iteration_count self <? max_iterations self)%Z
     && negb (Results.meets_standards results) then
    match fuel with
    | O => None
    | S fuel' =>
        let self :=
          {| quality_threshold := quality_threshold self;
             max_iterations := max_iterations self;
             iteration_count := (iteration_count self + 1)%Z |} in
        match assess world video_assets quality_requirements with
        | (Raise e, world) => Some (Raise e, self, world)
        | (Return quality_assessment, world) =>
            let current_score := Assessment.overall_score quality_assessment in
            if PrimFloat.leb (quality_threshold self) current_score then
              Some (Return {| Results.final_quality_score := current_score;
                              Results.iterations_performed := iteration_count self;
                              Results.improvements_made :=
                                Results.improvements_made results;
                              Results.meets_standards := true |}, self, world)
            else
              let improvements := _generate_improvements quality_assessment in
              let results :=
                {| Results.final_quality_score := current_score;
                   Results.iterations_performed := iteration_count self;
                   Results.improvements_made :=
                     Results.improvements_made results ++ improvements;
                   Results.meets_standards := Results.meets_standards results |} in
              let video_assets :=
                match improvements with
                | [] => video_assets
                | _ :: _ => _apply_improvements video_assets improvements
                end in
              if (max_iterations self <=? iteration_count self)%Z then
                Some (Return results, self, world)
              else
                loop fuel' self world video_assets quality_requirements results
        end
    end
  else Some (Return results, self, world).

(** Iterations left in the budget of [self]; that many rounds of fuel
    are enough for [loop] (see [QualityLoopFacts.execute_total]). *)
Definition budget (self : QualityValidatorAgent) : nat :=
  Z.to_nat (max_iterations self - iteration_count self).

(** [execute]: the results or the exception, and the agent and the world
    as the call leaves them. *)
Definition execute (self : QualityValidatorAgent) (world : W) (task : Task.t)
    : option (Outcome Results.t * QualityValidatorAgent * W) :=
  loop (budget self) self world
    (default ∅ (Task.video_assets task))
    (default ∅ (Task.quality_requirements task))
    {| Results.final_quality_score := 0.0;
       Results.iterations_performed := 0;
       Results.improvements_made := [];
       Results.meets_standards := false |}.

End Execute.

(** An assessment that returns the scores [score 0], [score 1], ... on
    successive calls and finds no issue; its state is the number of calls
    made so far. *)
Definition scripted_assess (score : nat -> float) (calls : nat)
    (assets requirements : gmap string Value) : Outcome Assessment.t * nat :=
  (Return {| Assessment.overall_score := score calls;
             Assessment.component_scores := [];
             Assessment.issues_found := [] |}, S calls).

(** The scores returned on successive calls are those of [scores], then
    [last] for ever. *)
Definition successive (scores : list float) (last : float) : nat -> float :=
  fun call => nth call scores last.

Definition empty_task : Task.t :=
  {| Task.video_assets := None; Task.quality_requirements := None |}.

(** The results dictionary as [execute] initialises it. *)
Definition initial_results : Results.t :=
  {| Results.final_quality_score := 0.0;
     Results.iterations_performed := 0;
     Results.improvements_made := [];
     Results.meets_standards := false |}.

(** The results of a call that returned. *)
Definition returned {A : Type} (out : Outcome A) : option A :=
  match out with
  | Return a => Some a
  | Raise _ => None
  end.

(** The rendering by [.2f] of the two scores that are below 0.7 on an
    empty bundle of assets. *)
Definition two_decimals (score : float) : string :=
  if PrimFloat.eqb score 0.3 then "0.30" else "0.60".

(** *** The quality phase of the production team *)

(** The dictionary [_execute_quality_phase] returns: the production
    assets together with three entries (which replace what the assets
    have under the same names). *)
Module FinalAssets.
Record t : Type := mk {
  production_assets : gmap string Value;
  quality_assessment : Results.t;
  quality_score : float;
  meets_standards : bool
}.
End FinalAssets.

(** The requirements the production team asks for. *)
Definition team_requirements : gmap string Value :=
  {[ "min_component_score" := VFloat 0.7; "min_overall_score" := VFloat 0.8 ]}.

Section QualityPhase.

Context {W : Type}.
Variable assess :
  W -> gmap string Value -> gmap string Value -> Outcome Assessment.t * W.

(** [VideoProductionTeam._execute_quality_phase]; [quality_validator] is
    the agent the team creates in its [__init__] and uses for every
    video. *)
Definition _execute_quality_phase (quality_validator : QualityValidatorAgent)
    (world : W) (production_assets : gmap string Value)
    : option (Outcome FinalAssets.t * QualityValidatorAgent * W) :=
  let quality_task :=
    {| Task.video_assets := Some production_assets;
       Task.quality_requirements := Some team_requirements |} in
  match execute assess quality_validator world quality_task with
  | Some (Return quality_result, quality_validator, world) =>
      Some (Return
              {| FinalAssets.production_assets := production_assets;
                 FinalAssets.quality_assessment := quality_result;
                 FinalAssets.quality_score := Results.final_quality_score quality_result;
                 FinalAssets.meets_standards := Results.meets_standards quality_result |},
            quality_validator, world)
  | Some (Raise e, quality_validator, world) => Some (Raise e, quality_validator, world)
  | None => None
  end.

End QualityPhase.

(** What a caller reads off a call to tell how the validation went: the
    score, the iterations and the verdict of the results (or the
    exception), and the agent as the call leaves it. *)
Definition verdict (run : option (Outcome Results.t * QualityValidatorAgent * unit))
    : option (Outcome (float * Z * bool) * QualityValidatorAgent) :=
  (fun r =>
     (match r.1.1 with
      | Return results =>
          Return (Results.final_quality_score results,
                  Results.iterations_performed results,
                  Results.meets_standards results)
      | Raise e => Raise e
      end, r.1.2)) <$> run.

(** The threshold of the requirements is one a score compares with: a
    number or a boolean, or the default. *)
Definition comparable (requirements : gmap string Value) : Prop :=
  match requirements !! "min_component_score" with
  | None | Some (VFloat _) | Some (VInt _) | Some (VBool _) => True
  | Some VNone | Some (VStr _) | Some (VList _) | Some (VDict _) => False
  end.

End QualityLoop.

(** ** Long-running operations *)

Module LongRunning.

Module Checkpoint.
Record t : Type := mk {
  type : string;
  timestamp : string;
  progress : float;
  state : string;
  data : Payload
}.
End Checkpoint.

(** The attributes of a [LongRunningOperation] (without its logger). *)
Record LongRunningOperation : Type := mkOperation {
  operation_id : string;
  operation_type : string;
  state : string;
  progress : float;
  checkpoints : list Checkpoint.t;
  start_time : string
}.

(** [LongRunningOperation.__init__]; [now] is the reading of the clock. *)
Definition new (operation_id operation_type now : string) : LongRunningOperation :=
  {| operation_id := operation_id; operation_type := operation_type;
     state := "initialized"; progress := 0.0; checkpoints := []; start_time := now |}.

Definition set_state (v : string) (self : LongRunningOperation) : LongRunningOperation :=
  mkOperation (operation_id self) (operation_type self) v (progress self)
    (checkpoints self) (start_time self).

Definition set_progress (v : float) (self : LongRunningOperation) : LongRunningOperation :=
  mkOperation (operation_id self) (operation_type self) (state self) v
    (checkpoints self) (start_time self).

(** [_create_checkpoint] *)
Definition _create_checkpoint (now : string) (self : LongRunningOperation)
    (checkpoint_type : string) (data : Payload) : LongRunningOperation :=
  mkOperation (operation_id self) (operation_type self) (state self) (progress self)
    (checkpoints self ++
     [{| Checkpoint.type := checkpoint_type;
         Checkpoint.timestamp := now;
         Checkpoint.progress := progress self;
         Checkpoint.state := state self;
         Checkpoint.data := data |}])
    (start_time self).

Definition pause (now : string) (self : LongRunningOperation)
    : bool * LongRunningOperation :=
  if decide (state self = "running") then
    (true, _create_checkpoint now (set_state "paused" self) "paused" [])
  else (false, self).

Definition resume (now : string) (self : LongRunningOperation)
    : bool * LongRunningOperation :=
  if decide (state self = "paused") then
    (true, _create_checkpoint now (set_state "running" self) "resumed" [])
  else (false, self).

Definition cancel (self : LongRunningOperation) : bool * LongRunningOperation :=
  (true, set_state "cancelled" self).

(** The calls other coroutines make while [execute] is suspended, each
    with the reading of the clock it takes. *)
Inductive Control : Type :=
| CallPause (now : string)
| CallResume (now : string)
| CallCancel.

Definition control (self : LongRunningOperation) (c : Control) : LongRunningOperation :=
  match c with
  | CallPause now => (pause now self).2
  | CallResume now => (resume now self).2
  | CallCancel => (cancel self).2
  end.

Definition interfere (calls : list Control) (self : LongRunningOperation)
    : LongRunningOperation :=
  fold_left control calls self.

(** One of the callables given to [execute], as the loop meets it: what
    awaiting it gives, the calls made by other coroutines while it is
    awaited, and the reading of the clock when it is done. *)
Module Task.
Record t : Type := mk {
  outcome : Outcome Payload;
  during : list Control;
  finished_at : string
}.
End Task.

(** [f"task_{i}"] *)
Definition task_key (i : nat) : string := "task_" ++ pretty i.

Definition float_of_nat (n : nat) : float :=
  PrimFloat.of_uint63 (Uint63.of_Z (Z.of_nat n)).

(** [while self.state == "paused": await asyncio.sleep(1)]: [polls k] are
    the calls made during the sleep number [k]; [None] when the operation
    is still paused after [patience] sleeps. *)
Fixpoint wait_while_paused (polls : nat -> list Control) (k patience : nat)
    (self : LongRunningOperation) : option LongRunningOperation :=
  if decide (state self = "paused") then
    match patience with
    | O => None
    | S patience' => wait_while_paused polls (S k) patience' (interfere (polls k) self)
    end
  else Some self.

(** The [for] loop of [execute] from task number [i] on; [total] is
    [len(tasks)]. *)
Fixpoint run_tasks (total i : nat) (tasks : list Task.t)
    (polls : nat -> nat -> list Control) (patience : nat)
    (self : LongRunningOperation) (results : gmap string Payload)
    : option (gmap string Payload * LongRunningOperation) :=
  match tasks with
  | [] => Some (results, self)
  | task :: rest =>
      match (if decide (state self = "paused") then
               wait_while_paused (polls i) 0 patience self
             else Some self) with
      | None => None
      | Some self =>
          if decide (state self = "cancelled") then Some (results, self)
          else
            let self := interfere (Task.during task) self in
            match Task.outcome task with
            | Return result =>
                let results := <[task_key i := result]> results in
                let self :=
                  set_progress (float_of_nat (i + 1) / float_of_nat total)%float self in
                let self :=
                  _create_checkpoint (Task.finished_at task) self
                    (task_key i ++ "_completed") result in
                run_tasks total (S i) rest polls patience self results
            | Raise e =>
                run_tasks total (S i) rest polls patience self
                  (<[task_key i := [("error", e)]]> results)
            end
      end
  end.

(** [execute]: the results dictionary and the operation as the call
    leaves it; [None] when the call is still waiting for a resume. *)
Definition execute (tasks : list Task.t) (polls : nat -> nat -> list Control)
    (patience : nat) (self : LongRunningOperation)
    : option (gmap string Payload * LongRunningOperation) :=
  match run_tasks (length tasks) 0 tasks polls patience (set_state "running" self) ∅ with
  | None => None
  | Some (results, self) =>
      Some (results, set_progress 1.0 (set_state "completed" self))
  end.

Module Status.
Record t : Type := mk {
  operation_id : string;
  type : string;
  state : string;
  progress : float;
  checkpoints : nat
}.
End Status.

(** [get_status], without the duration, which is read off the clock. *)
Definition get_status (self : LongRunningOperation) : Status.t :=
  {| Status.operation_id := operation_id self;
     Status.type := operation_type self;
     Status.state := state self;
     Status.progress := progress self;
     Status.checkpoints := length (checkpoints self) |}.

(** The entry of the results dictionary for a task. *)
Definition entry (task : Task.t) : Payload :=
  match Task.outcome task with
  | Return result => result
  | Raise e => [("error", e)]
  end.

(** The results of the tasks numbered from [i] on, added to [results]. *)
Fixpoint collect (i : nat) (tasks : list Task.t) (results : gmap string Payload)
    : gmap string Payload :=
  match tasks with
  | [] => results
  | task :: rest => collect (S i) rest (<[task_key i := entry task]> results)
  end.

(** The task returned. *)
Definition returned (task : Task.t) : bool :=
  match Task.outcome task with
  | Return _ => true
  | Raise _ => false
  end.

(** Three tasks, the second of which fails, and the same with a cancel,
    or a pause, arriving while the first one is awaited. *)
Definition rendering : list Task.t :=
  [ {| Task.outcome := Return [("frames", "240")]; Task.during := [];
       Task.finished_at := "t1" |};
    {| Task.outcome := Raise "encoder crashed"; Task.during := [];
       Task.finished_at := "t2" |};
    {| Task.outcome := Return [("file", "out.mp4")]; Task.during := [];
       Task.finished_at := "t3" |} ].

Definition disturbed (calls : list Control) : list Task.t :=
  {| Task.outcome := Return [("frames", "240")]; Task.during := calls;
     Task.finished_at := "t1" |} :: tail rendering.

(** Nobody calls while the operation sleeps; somebody resumes it during
    its third sleep before the second task. *)
Definition quiet : nat -> nat -> list Control := fun _ _ => [].

Definition resumed_late : nat -> nat -> list Control :=
  fun i k => if decide (i = 1 ∧ k = 2) then [CallResume "t5"] else [].

(** No other coroutine cancels. *)
Definition no_cancel (calls : list Control) : Prop :=
  Forall (fun c => c ≠ CallCancel) calls.

End LongRunning.

(** * Properties *)

(** ** The protocol: timeouts *)

Module A2AFacts.
Import A2A.

Lemma pending_queue_message p m :
  pending_responses (_queue_message p m) = pending_responses p.
Proof. reflexivity. Qed.

(** While a caller waits, its future is the pending one it stored. *)
Lemma begin_registers p m :
  pending_responses (_send_and_await_response_begin p m)
    !! AgentMessage.message_id m = Some FutPending.
Proof. cbn. apply lookup_insert_eq. Qed.

Lemma send_error_response_absent uuid now p m e :
  pending_responses p !! AgentMessage.message_id m = None ->
  _send_error_response uuid now p m e = Return p.
Proof. intros H. unfold _send_error_response. now rewrite H. Qed.

(** Without a correlation nothing is delivered and nothing is raised,
    whatever the handler came back with. *)
Lemma process_message_complete_absent uuid now p m handled :
  pending_responses p !! AgentMessage.message_id m = None ->
  _process_message_complete uuid now p m handled = Return p.
Proof.
  intros H. unfold _process_message_complete.
  destruct handled as [content | e].
  - now rewrite H.
  - now apply send_error_response_absent.
Qed.

Lemma send_error_response_other uuid now p m e p' id :
  AgentMessage.message_id m ≠ id ->
  _send_error_response uuid now p m e = Return p' ->
  pending_responses p' !! id = pending_responses p !! id.
Proof.
  intros Hne. unfold _send_error_response.
  destruct (pending_responses p !! AgentMessage.message_id m) as [fut|]; [|congruence].
  destruct (set_result fut _) as [fut'|]; [|discriminate].
  intros [= <-]. cbn. now rewrite lookup_insert_ne.
Qed.

Lemma process_message_complete_other uuid now p m handled p' id :
  AgentMessage.message_id m ≠ id ->
  _process_message_complete uuid now p m handled = Return p' ->
  pending_responses p' !! id = pending_responses p !! id.
Proof.
  intros Hne. unfold _process_message_complete.
  destruct handled as [content | e]; [|apply send_error_response_other; exact Hne].
  destruct (pending_responses p !! AgentMessage.message_id m) as [fut|]; [|congruence].
  destruct (set_result fut _) as [fut'|].
  - intros [= <-]. cbn. now rewrite lookup_insert_ne.
  - now apply send_error_response_other.
Qed.

(** An event about another message does not touch the correlation of [id]. *)
Lemma step_unrelated id p ev :
  unrelated id ev ->
  pending_responses (step p ev) !! id = pending_responses p !! id.
Proof.
  destruct ev as [m | | m | id' | uuid now m | uuid now m handled | name h];
    cbn [unrelated step]; intros Hne; try reflexivity.
  - cbn. now rewrite lookup_insert_ne.
  - cbn. now rewrite lookup_alter_ne.
  - unfold _send_and_await_response_resume.
    destruct (pending_responses p !! AgentMessage.message_id m) as [[| r |]|];
      cbn; try reflexivity; now rewrite lookup_delete_ne.
  - destruct (_process_message_complete uuid now p m handled) as [p'|] eqn:E;
      [|reflexivity].
    eapply process_message_complete_other; eauto.
Qed.

(** Once the correlation of [id] is gone, only a new wait under the same
    id could bring it back. *)
Lemma step_absent id p ev :
  fresh_for id ev ->
  pending_responses p !! id = None ->
  pending_responses (step p ev) !! id = None.
Proof.
  intros Hfresh Hnone.
  destruct ev as [m | | m | id' | uuid now m | uuid now m handled | name h];
    cbn [fresh_for step] in *; try assumption.
  - cbn. now rewrite lookup_insert_ne.
  - cbn. now apply lookup_alter_None.
  - unfold _send_and_await_response_resume.
    destruct (pending_responses p !! AgentMessage.message_id m) as [[| r |]|];
      cbn; try assumption;
      (destruct (decide (AgentMessage.message_id m = id)) as [->|Hne];
       [apply lookup_delete_eq | now rewrite lookup_delete_ne]).
  - destruct (decide (AgentMessage.message_id m = id)) as [<-|Hne].
    + now rewrite process_message_complete_absent.
    + destruct (_process_message_complete uuid now p m handled) as [p'|] eqn:E;
        [|assumption].
      erewrite process_message_complete_other; eauto.
Qed.

Lemma run_unrelated id evs : forall p,
  Forall (unrelated id) evs ->
  pending_responses (run p evs) !! id = pending_responses p !! id.
Proof.
  induction evs as [|ev evs IH]; intros p Hall; [reflexivity|].
  inversion Hall as [|? ? Hev Hevs]; subst. cbn.
  unfold run in IH. rewrite IH by assumption. now apply step_unrelated.
Qed.

Lemma run_absent id evs : forall p,
  Forall (fresh_for id) evs ->
  pending_responses p !! id = None ->
  pending_responses (run p evs) !! id = None.
Proof.
  induction evs as [|ev evs IH]; intros p Hall Hnone; [assumption|].
  inversion Hall as [|? ? Hev Hevs]; subst. cbn.
  apply IH; [assumption|]. now apply step_absent.
Qed.

(** The path the code provides for.  When the timer finds the future of
    a waiting caller still pending, the caller is released with a
    response that has [success = false] and the error "Response timeout"
    (before the timer it is still suspended), and its correlation is
    popped and stays absent whatever the bus does next; a handler that
    completes after that (with a content or an exception) delivers
    nothing and raises nothing. *)
Lemma timeout_releases_caller_and_discards_late_result
    (p : A2AProtocol) (m : AgentMessage.t) (before later : list Event)
    (uuid now uuid' now' : string) (handled : Outcome Payload) :
  Forall (unrelated (AgentMessage.message_id m)) before ->
  Forall (fresh_for (AgentMessage.message_id m)) later ->
  let id := AgentMessage.message_id m in
  let waiting := run (_send_and_await_response_begin p m) before in
  _send_and_await_response_resume uuid now waiting m = None
  ∧ ∃ released,
      _send_and_await_response_resume uuid now (timer_fires waiting id) m
        = Some (timeout_response uuid now m, released)
      ∧ MessageResponse.success (timeout_response uuid now m) = false
      ∧ MessageResponse.error_message (timeout_response uuid now m)
        = Some "Response timeout"
      ∧ MessageResponse.original_message_id (timeout_response uuid now m) = id
      ∧ pending_responses released !! id = None
      ∧ pending_responses (run released later) !! id = None
      ∧ _process_message_complete uuid' now' (run released later) m handled
        = Return (run released later).
Proof.
  intros Hbefore Hlater id waiting.
  assert (Hwait : pending_responses waiting !! id = Some FutPending).
  { unfold waiting. rewrite run_unrelated by assumption. apply begin_registers. }
  split.
  { unfold _send_and_await_response_resume. fold id. now rewrite Hwait. }
  eexists. split.
  { unfold _send_and_await_response_resume, timer_fires. fold id. cbn.
    rewrite lookup_alter_eq, Hwait. cbn. reflexivity. }
  assert (Hgone : pending_responses
                    (with_pending (timer_fires waiting id)
                       (delete id (pending_responses (timer_fires waiting id))))
                    !! id = None) by apply lookup_delete_eq.
  repeat split; try assumption.
  - now apply run_absent.
  - apply process_message_complete_absent. now apply run_absent.
Qed.

(** C6 fails on the code, in two ways.

    A caller sends [m] on a bus whose queue is empty and waits; the
    processor takes the message.  A handler that is a plain function is
    called inside [_process_message], and the future is resolved before
    the next [await]: however long the handler takes, the event loop, and
    with it the timer of [wait_for], runs only when the future is
    resolved.  The timer then leaves the future alone and the caller
    resumes with the answer of the handler ([success = true] when the
    handler returned), not with a timeout response.

    A handler whose completion falls between the timer and the
    resumption of the caller finds the correlation still there and the
    future cancelled: [set_result] raises, so does the error path, and
    the exception leaves [_process_message]; the processor logs it.  The
    caller resumes with the timeout response. *)
Theorem overrun_is_answered_and_late_completion_raises
    (registered : gmap string Handler) (pending : gmap string Future)
    (m : AgentMessage.t) (handler : Handler)
    (uuid now uuid' now' : string) (handled : Outcome Payload) :
  let id := AgentMessage.message_id m in
  let idle :=
    {| registered_agents := <[AgentMessage.receiver m := handler]> registered;
       message_queue := [];
       pending_responses := pending |} in
  let waiting := take_message (_send_and_await_response_begin idle m) in
  (exists answered released,
     _process_message uuid now waiting m = Return answered
     ∧ _send_and_await_response_resume uuid' now' (timer_fires answered id) m
       = Some (response_for uuid now m (handler m), released)
     ∧ MessageResponse.success (response_for uuid now m (handler m))
       = match handler m with
         | Return _ => true
         | Raise _ => false
         end)
  ∧ _process_message_complete uuid now (timer_fires waiting id) m handled
    = Raise "invalid state"
  ∧ step (timer_fires waiting id) (EvHandled uuid now m handled) = timer_fires waiting id
  ∧ exists released,
      _send_and_await_response_resume uuid' now' (timer_fires waiting id) m
      = Some (timeout_response uuid' now' m, released).
Proof.
  intros id idle waiting.
  assert (Hwait : pending_responses waiting !! id = Some FutPending)
    by apply begin_registers.
  assert (Hhandler : registered_agents waiting !! AgentMessage.receiver m = Some handler)
    by (cbn; apply lookup_insert_eq).
  assert (Hcancelled : pending_responses (timer_fires waiting id) !! id = Some FutCancelled).
  { unfold timer_fires. cbn [pending_responses with_pending].
    rewrite lookup_alter_eq. fold id. now rewrite Hwait. }
  assert (Hraise : forall outcome,
             _process_message_complete uuid now (timer_fires waiting id) m outcome
             = Raise "invalid state").
  { intros outcome. unfold _process_message_complete, _send_error_response. fold id.
    rewrite Hcancelled. now destruct outcome. }
  split; [|split; [apply Hraise|split]].
  - unfold _process_message. unfold Handler in *. rewrite Hhandler.
    unfold _process_message_complete, _send_error_response. fold id. rewrite Hwait.
    destruct (handler m) as [response_content|e] eqn:Hhandled; cbn [set_result];
      eexists; eexists; (split; [reflexivity|]);
      unfold _send_and_await_response_resume, timer_fires; fold id;
      cbn [pending_responses with_pending];
      rewrite lookup_alter_eq, lookup_insert_eq; cbn; split; reflexivity.
  - cbn [step]. now rewrite Hraise.
  - unfold _send_and_await_response_resume. fold id. rewrite Hcancelled. eauto.
Qed.

(** *** Answers, errors and broadcasts *)

Lemma process_message_complete_pending uuid now p m handled :
  pending_responses p !! AgentMessage.message_id m = Some FutPending ->
  _process_message_complete uuid now p m handled
  = Return (with_pending p
              (<[AgentMessage.message_id m := FutResult (response_for uuid now m handled)]>
                 (pending_responses p))).
Proof.
  intros Hpending. unfold _process_message_complete, _send_error_response.
  destruct handled as [content|e]; rewrite Hpending; reflexivity.
Qed.

Lemma resume_resolved uuid now p m response :
  pending_responses p !! AgentMessage.message_id m = Some (FutResult response) ->
  _send_and_await_response_resume uuid now p m
  = Some (response,
          with_pending p (delete (AgentMessage.message_id m) (pending_responses p))).
Proof. intros H. unfold _send_and_await_response_resume. now rewrite H. Qed.

(** The answer of the handler, or its exception, reaches the caller that
    waits for it, whatever else the bus does meanwhile. *)
Theorem handled_message_answers_the_waiting_caller
    (p : A2AProtocol) (m : AgentMessage.t) (before after : list Event)
    (uuid now uuid' now' : string) (handled : Outcome Payload) :
  Forall (unrelated (AgentMessage.message_id m)) before ->
  Forall (unrelated (AgentMessage.message_id m)) after ->
  let id := AgentMessage.message_id m in
  let waiting := run (_send_and_await_response_begin p m) before in
  exists answered released,
    _process_message_complete uuid now waiting m handled = Return answered
    ∧ _send_and_await_response_resume uuid' now' (run answered after) m
      = Some (response_for uuid now m handled, released)
    ∧ pending_responses released !! id = None
    ∧ registered_agents released = registered_agents (run answered after)
    ∧ message_queue released = message_queue (run answered after).
Proof.
  intros Hbefore Hafter id waiting.
  assert (Hwait : pending_responses waiting !! id = Some FutPending).
  { unfold waiting. rewrite run_unrelated by assumption. apply begin_registers. }
  set (answered := with_pending waiting
                      (<[id := FutResult (response_for uuid now m handled)]>
                         (pending_responses waiting))).
  exists answered,
    (with_pending (run answered after) (delete id (pending_responses (run answered after)))).
  split; [now apply process_message_complete_pending|].
  split; [|split; [|split; reflexivity]].
  - apply resume_resolved. rewrite run_unrelated by assumption.
    cbn. apply lookup_insert_eq.
  - cbn. apply lookup_delete_eq.
Qed.


Lemma process_message_absent uuid now p m :
  pending_responses p !! AgentMessage.message_id m = None ->
  _process_message uuid now p m = Return p.
Proof.
  intros Hnone. unfold _process_message.
  destruct (registered_agents p !! AgentMessage.receiver m) as [handler|].
  - now apply process_message_complete_absent.
  - now apply send_error_response_absent.
Qed.

(** A message for a name that nobody has registered: a caller that waits
    for the answer gets a failure response naming the agent; a message
    nobody waits for is dropped, and the protocol is as before. *)
Theorem message_to_unknown_agent_is_answered_with_an_error
    (p : A2AProtocol) (m : AgentMessage.t) (uuid now uuid' now' : string) :
  registered_agents p !! AgentMessage.receiver m = None ->
  (exists answered released,
     _process_message uuid now (_send_and_await_response_begin p m) m = Return answered
     ∧ _send_and_await_response_resume uuid' now' answered m
       = Some (error_response uuid now m ("Unknown agent: " ++ AgentMessage.receiver m),
               released)
     ∧ pending_responses released !! AgentMessage.message_id m = None)
  ∧ (pending_responses p !! AgentMessage.message_id m = None ->
     _process_message uuid now (_queue_message p m) m = Return (_queue_message p m)).
Proof.
  intros Hunknown. split.
  - set (waiting := _send_and_await_response_begin p m).
    set (answered :=
           with_pending waiting
             (<[AgentMessage.message_id m :=
                  FutResult (error_response uuid now m
                               ("Unknown agent: " ++ AgentMessage.receiver m))]>
                (pending_responses waiting))).
    exists answered,
      (with_pending answered (delete (AgentMessage.message_id m) (pending_responses answered))).
    split; [|split].
    + unfold _process_message.
      change (registered_agents waiting) with (registered_agents p).
      unfold Handler in *. rewrite Hunknown. unfold _send_error_response.
      unfold waiting at 1. rewrite begin_registers. reflexivity.
    + apply resume_resolved. cbn. apply lookup_insert_eq.
    + cbn. apply lookup_delete_eq.
  - intros Hnone. now apply process_message_absent.
Qed.

Lemma message_to_unknown_agent_is_answered_with_an_error_witness :
  registered_agents init !! AgentMessage.receiver script_request = None
  ∧ (exists answered released,
       _process_message "u1" "t1" (_send_and_await_response_begin init script_request)
         script_request = Return answered
       ∧ _send_and_await_response_resume "u2" "t2" answered script_request
         = Some (error_response "u1" "t1" script_request "Unknown agent: script_writer",
                 released)
       ∧ pending_responses released !! "msg-1" = None)
  ∧ (pending_responses init !! "msg-1" = None ->
     _process_message "u1" "t1" (_queue_message init script_request) script_request
     = Return (_queue_message init script_request)).
Proof.
  assert (H : registered_agents init !! AgentMessage.receiver script_request = None)
    by reflexivity.
  split; [exact H|].
  exact (message_to_unknown_agent_is_answered_with_an_error init script_request
           "u1" "t1" "u2" "t2" H).
Defined.

(** *** Sending without waiting, and broadcasts *)

Lemma broadcast_fold draw sender message_type content receivers : forall p n,
  let sent :=
    fold_left
      (fun (st : A2AProtocol * nat) receiver =>
         if decide (receiver ≠ sender) then
           ((send_message (draw st.2).1 (draw st.2).2 st.1 sender receiver
               message_type content "normal" false).2, S st.2)
         else st)
      receivers (p, n) in
  message_queue sent.1
  = (message_queue p
     ++ imap (fun k receiver =>
                new_message (draw (n + k)).1 (draw (n + k)).2 sender receiver
                  message_type content "normal")
          (List.filter (fun receiver => bool_decide (receiver ≠ sender)) receivers))%list
  ∧ registered_agents sent.1 = registered_agents p
  ∧ pending_responses sent.1 = pending_responses p.
Proof.
  induction receivers as [|receiver receivers IH]; intros p n; cbn [fold_left List.filter].
  - cbn. now rewrite app_nil_r.
  - destruct (decide (receiver ≠ sender)) as [Hne|Heq].
    + rewrite bool_decide_eq_true_2 by assumption.
      destruct (IH (send_message (draw n).1 (draw n).2 p sender receiver
                      message_type content "normal" false).2 (S n))
        as (Hqueue & Hagents & Hpending).
      cbn zeta in *. cbn [fst snd] in *.
      rewrite Hqueue, Hagents, Hpending. cbn [send_message snd message_queue
        _queue_message registered_agents pending_responses].
      split; [|split; reflexivity].
      rewrite <- app_assoc. f_equal. cbn [app imap]. rewrite Nat.add_0_r. f_equal.
      apply imap_ext. intros k r _. cbn. now rewrite Nat.add_succ_r.
    + rewrite bool_decide_eq_false_2 by assumption. apply IH.
Qed.

(** A broadcast queues one message for every receiver other than the
    sender, in the order of the receivers, and nothing else: every
    receiver but the sender finds a message for it in the queue, no
    correlation is stored, so that no answer is ever delivered, and the
    log record counts the sender, too.  An empty target list stands for
    every registered agent. *)
Theorem broadcast_queues_one_message_per_other_receiver
    (draw : nat -> string * string) (keys : list string) (p : A2AProtocol)
    (sender message_type : string) (content : Payload)
    (target_agents : option (list string)) :
  let receivers := receivers_of target_agents keys in
  let sent := broadcast_message draw keys p sender message_type content target_agents in
  message_queue sent.1
  = (message_queue p
     ++ imap (fun k receiver =>
                new_message (draw k).1 (draw k).2 sender receiver
                  message_type content "normal")
          (List.filter (fun receiver => bool_decide (receiver ≠ sender)) receivers))%list
  ∧ (forall receiver, In receiver receivers -> receiver ≠ sender ->
       exists k,
         In (new_message (draw k).1 (draw k).2 sender receiver message_type content
               "normal")
            (message_queue sent.1))
  ∧ registered_agents sent.1 = registered_agents p
  ∧ pending_responses sent.1 = pending_responses p
  ∧ sent.2 = length receivers
  ∧ receivers_of (Some []) keys = keys
  ∧ receivers_of None keys = keys.
Proof.
  intros receivers sent.
  destruct (broadcast_fold draw sender message_type content receivers p 0)
    as (Hqueue & Hagents & Hpending).
  split; [exact Hqueue|]. split; [|repeat split; assumption].
  intros receiver Hin Hne.
  assert (Hfiltered : receiver ∈ List.filter (fun receiver => bool_decide (receiver ≠ sender))
                                 receivers).
  { apply list_elem_of_In, filter_In. split; [assumption|].
    now apply bool_decide_eq_true_2. }
  apply list_elem_of_lookup_1 in Hfiltered as [k Hk].
  exists k. apply list_elem_of_In.
  change (message_queue sent.1) with
    (message_queue
       (fold_left
          (fun (st : A2AProtocol * nat) receiver =>
             if decide (receiver ≠ sender) then
               ((send_message (draw st.2).1 (draw st.2).2 st.1 sender receiver
                   message_type content "normal" false).2, S st.2)
             else st)
          receivers (p, 0)).1).
  rewrite Hqueue. apply elem_of_app. right.
  apply (elem_of_lookup_imap_2
           (fun k receiver =>
              new_message (draw k).1 (draw k).2 sender receiver message_type content
                "normal") _ receiver k Hk).
Qed.

(** A message sent without [wait_for_response] is queued and never
    answered: no correlation is stored for it, so that when it is
    processed, whatever the bus has done meanwhile and whatever its
    handler does (return, raise, or be missing), nothing is delivered,
    nothing is raised, and the protocol is left as it is. *)
Theorem unawaited_message_is_never_answered
    (p : A2AProtocol) (sender receiver message_type : string) (content : Payload)
    (priority uuid now uuid' now' : string) (later : list Event) :
  pending_responses p !! uuid = None ->
  Forall (fresh_for uuid) later ->
  let sent := send_message uuid now p sender receiver message_type content priority false in
  message_queue sent.2 = (message_queue p ++ [sent.1])%list
  ∧ pending_responses sent.2 = pending_responses p
  ∧ registered_agents sent.2 = registered_agents p
  ∧ _process_message uuid' now' (run sent.2 later) sent.1 = Return (run sent.2 later).
Proof.
  intros Hfresh Hlater sent.
  repeat split.
  apply process_message_absent. now apply run_absent.
Qed.

(** A status message for the script writer, who is not registered, goes
    unanswered while "msg-2" comes and goes. *)
Lemma unawaited_message_is_never_answered_witness :
  pending_responses init !! "msg-3" = None
  ∧ Forall (fresh_for "msg-3") [EvAwaitBegin voice_request; EvTake; EvTimer "msg-2"]
  ∧ message_queue
      (send_message "msg-3" "t0" init "video_editor" "script_writer" "status" []
         "normal" false).2
    = [new_message "msg-3" "t0" "video_editor" "script_writer" "status" [] "normal"]
  ∧ _process_message "u1" "t1"
      (run (send_message "msg-3" "t0" init "video_editor" "script_writer" "status" []
              "normal" false).2
         [EvAwaitBegin voice_request; EvTake; EvTimer "msg-2"])
      (new_message "msg-3" "t0" "video_editor" "script_writer" "status" [] "normal")
    = Return
        (run (send_message "msg-3" "t0" init "video_editor" "script_writer" "status" []
                "normal" false).2
           [EvAwaitBegin voice_request; EvTake; EvTimer "msg-2"]).
Proof.
  assert (H1 : pending_responses init !! "msg-3" = None) by reflexivity.
  assert (H2 : Forall (fresh_for "msg-3")
                 [EvAwaitBegin voice_request; EvTake; EvTimer "msg-2"]).
  { repeat constructor. cbn. discriminate. }
  split; [exact H1|]. split; [exact H2|].
  destruct (unawaited_message_is_never_answered init "video_editor" "script_writer"
              "status" [] "normal" "msg-3" "t0" "u1" "t1"
              [EvAwaitBegin voice_request; EvTake; EvTimer "msg-2"] H1 H2)
    as (Hqueue & _ & _ & Hprocessed).
  split; [exact Hqueue|exact Hprocessed].
Defined.

(** The script writer answers "msg-1" while "msg-2" comes and goes. *)
Lemma handled_message_answers_the_waiting_caller_witness :
  Forall (unrelated "msg-1") [EvTake; EvAwaitBegin voice_request]
  ∧ Forall (unrelated "msg-1") [EvTimer "msg-2"; EvAwaitResume "u2" "t3" voice_request]
  ∧ exists answered released,
      _process_message_complete "u1" "t2"
        (run (_send_and_await_response_begin init script_request)
           [EvTake; EvAwaitBegin voice_request])
        script_request (Return [("script", "final")]) = Return answered
      ∧ _send_and_await_response_resume "u3" "t4"
          (run answered [EvTimer "msg-2"; EvAwaitResume "u2" "t3" voice_request])
          script_request
        = Some (success_response "u1" "t2" script_request [("script", "final")], released)
      ∧ pending_responses released !! "msg-1" = None
      ∧ registered_agents released
        = registered_agents
            (run answered [EvTimer "msg-2"; EvAwaitResume "u2" "t3" voice_request])
      ∧ message_queue released
        = message_queue
            (run answered [EvTimer "msg-2"; EvAwaitResume "u2" "t3" voice_request]).
Proof.
  assert (H1 : Forall (unrelated "msg-1") [EvTake; EvAwaitBegin voice_request]).
  { repeat constructor; cbn; discriminate. }
  assert (H2 : Forall (unrelated "msg-1")
                 [EvTimer "msg-2"; EvAwaitResume "u2" "t3" voice_request]).
  { repeat constructor; cbn; discriminate. }
  split; [exact H1|]. split; [exact H2|].
  exact (handled_message_answers_the_waiting_caller init script_request
           [EvTake; EvAwaitBegin voice_request]
           [EvTimer "msg-2"; EvAwaitResume "u2" "t3" voice_request]
           "u1" "t2" "u3" "t4" (Return [("script", "final")]) H1 H2).
Defined.

(** *** Registration, and answers that come twice *)

(** A message is answered by the handler registered last under the name
    of its receiver.  Registering a handler replaces the one registered
    before under the same name and leaves the other names alone; a
    caller that then sends a message to that name and waits gets the
    answer, or the exception, of the new handler. *)
Theorem message_is_answered_by_the_handler_registered_last
    (p : A2AProtocol) (m : AgentMessage.t) (earlier handler : Handler)
    (uuid now uuid' now' : string) :
  let name := AgentMessage.receiver m in
  let registered := register_agent (register_agent p name earlier) name handler in
  (forall other, other ≠ name ->
     registered_agents registered !! other = registered_agents p !! other)
  ∧ pending_responses registered = pending_responses p
  ∧ message_queue registered = message_queue p
  ∧ exists answered released,
      _process_message uuid now (_send_and_await_response_begin registered m) m
      = Return answered
      ∧ _send_and_await_response_resume uuid' now' answered m
        = Some (response_for uuid now m (handler m), released)
      ∧ pending_responses released !! AgentMessage.message_id m = None.
Proof.
  intros name registered. split; [|split; [reflexivity|split; [reflexivity|]]].
  { intros other Hother. cbn. now rewrite !lookup_insert_ne by congruence. }
  set (waiting := _send_and_await_response_begin registered m).
  set (answered :=
         with_pending waiting
           (<[AgentMessage.message_id m := FutResult (response_for uuid now m (handler m))]>
              (pending_responses waiting))).
  exists answered,
    (with_pending answered (delete (AgentMessage.message_id m) (pending_responses answered))).
  split; [|split].
  - unfold _process_message.
    change (registered_agents waiting)
      with (<[name := handler]> (<[name := earlier]> (registered_agents p))).
    fold name. unfold Handler in *. rewrite lookup_insert_eq.
    apply process_message_complete_pending. apply begin_registers.
  - apply resume_resolved. cbn. apply lookup_insert_eq.
  - cbn. apply lookup_delete_eq.
Qed.

(** The first answer stands.  Once the future of a waiting caller is
    resolved, or cancelled by the timer, a further completion for the
    same message cannot change it: [set_result] raises, so does the
    error path, the exception leaves [_process_message], the processor
    logs it, and the protocol is as it was.  The caller then resumes
    with the first answer (or the timeout response). *)
Theorem settled_future_is_not_overwritten
    (p : A2AProtocol) (m : AgentMessage.t) (fut : Future)
    (uuid now uuid' now' : string) (handled : Outcome Payload) :
  pending_responses p !! AgentMessage.message_id m = Some fut ->
  fut ≠ FutPending ->
  _process_message_complete uuid now p m handled = Raise "invalid state"
  ∧ step p (EvHandled uuid now m handled) = p
  ∧ fst <$> _send_and_await_response_resume uuid' now'
              (step p (EvHandled uuid now m handled)) m
    = Some match fut with
           | FutResult response => response
           | _ => timeout_response uuid' now' m
           end.
Proof.
  intros Hfut Hsettled.
  assert (Hraise : _process_message_complete uuid now p m handled = Raise "invalid state").
  { unfold _process_message_complete, _send_error_response. rewrite Hfut.
    destruct handled as [content|e]; destruct fut as [|r|]; try contradiction;
      reflexivity. }
  split; [exact Hraise|].
  assert (Hstep : step p (EvHandled uuid now m handled) = p)
    by (cbn; now rewrite Hraise).
  split; [exact Hstep|]. rewrite Hstep.
  unfold _send_and_await_response_resume. rewrite Hfut.
  destruct fut as [|r|]; [contradiction|reflexivity|reflexivity].
Qed.

(** The script writer answers "msg-1" twice. *)
Lemma settled_future_is_not_overwritten_witness :
  pending_responses
    (step (_send_and_await_response_begin init script_request)
       (EvHandled "u1" "t1" script_request (Return [("script", "first")])))
    !! AgentMessage.message_id script_request
  = Some (FutResult (success_response "u1" "t1" script_request [("script", "first")]))
  ∧ FutResult (success_response "u1" "t1" script_request [("script", "first")])
    ≠ FutPending
  ∧ _process_message_complete "u2" "t2"
      (step (_send_and_await_response_begin init script_request)
         (EvHandled "u1" "t1" script_request (Return [("script", "first")])))
      script_request (Return [("script", "second")])
    = Raise "invalid state"
  ∧ fst <$> _send_and_await_response_resume "u3" "t3"
              (step
                 (step (_send_and_await_response_begin init script_request)
                    (EvHandled "u1" "t1" script_request (Return [("script", "first")])))
                 (EvHandled "u2" "t2" script_request (Return [("script", "second")])))
              script_request
    = Some (success_response "u1" "t1" script_request [("script", "first")]).
Proof.
  assert (H1 : pending_responses
                 (step (_send_and_await_response_begin init script_request)
                    (EvHandled "u1" "t1" script_request (Return [("script", "first")])))
                 !! AgentMessage.message_id script_request
               = Some (FutResult (success_response "u1" "t1" script_request
                                    [("script", "first")]))) by reflexivity.
  assert (H2 : FutResult (success_response "u1" "t1" script_request [("script", "first")])
               ≠ FutPending) by discriminate.
  split; [exact H1|]. split; [exact H2|].
  destruct (settled_future_is_not_overwritten _ script_request _ "u2" "t2" "u3" "t3"
              (Return [("script", "second")]) H1 H2) as (Hraise & _ & Hresume).
  split; [exact Hraise|exact Hresume].
Defined.

End A2AFacts.

(** ** The quality loop *)

Module QualityLoopFacts.
Import QualityLoop.

Section Loop.
Context {W : Type}.
Variable assess :
  W -> gmap string Value -> gmap string Value -> Outcome Assessment.t * W.

(** The budget of the agent is enough fuel: the loop comes back. *)
Lemma loop_returns fuel : forall self world assets reqs results,
  budget self <= fuel ->
  is_Some (loop assess fuel self world assets reqs results).
Proof.
  unfold budget.
  induction fuel as [|fuel IH]; intros self world assets reqs results Hfuel; cbn.
  - destruct (iteration_count self <? max_iterations self)%Z eqn:Hlt; cbn; [|eauto].
    apply Z.ltb_lt in Hlt. lia.
  - destruct (iteration_count self <? max_iterations self)%Z eqn:Hlt; cbn; [|eauto].
    destruct (negb (Results.meets_standards results)); [|eauto].
    destruct (assess world assets reqs) as [[qa|e] world']; [|eauto].
    destruct (PrimFloat.leb _ _); [eauto|].
    destruct (max_iterations self <=? iteration_count self + 1)%Z eqn:Hle; [eauto|].
    apply IH. cbn. apply Z.ltb_lt in Hlt. lia.
Qed.

(** [execute] is total. *)
Lemma execute_total self world task :
  is_Some (execute assess self world task).
Proof. unfold execute. now apply loop_returns. Qed.

(** The loop only ever moves the counter, and never past the maximum. *)
Lemma loop_bounds fuel : forall self world assets reqs results out self' world',
loop assess fuel self world assets reqs results = Some (out, self', world') ->
quality_threshold self' = quality_threshold self
∧ max_iterations self' = max_iterations self
∧ (iteration_count self <= iteration_count self'
   <= Z.max (iteration_count self) (max_iterations self))%Z.
Proof.
induction fuel as [|fuel IH]; intros self world assets reqs results out self' world'; cbn.
- destruct (iteration_count self <? max_iterations self)%Z eqn:Hlt; cbn.
  + destruct (negb (Results.meets_standards results)); [discriminate|].
    intros [= <- <- <-]. repeat split; lia.
  + intros [= <- <- <-]. repeat split; lia.
- destruct (iteration_count self <? max_iterations self)%Z eqn:Hlt; cbn;
    [|intros [= <- <- <-]; repeat split; lia].
  apply Z.ltb_lt in Hlt.
  destruct (negb (Results.meets_standards results));
    [|intros [= <- <- <-]; repeat split; lia].
  destruct (assess world assets reqs) as [[qa|e] world1];
    [|intros [= <- <- <-]; cbn; repeat split; lia].
  destruct (PrimFloat.leb _ _); [intros [= <- <- <-]; cbn; repeat split; lia|].
  destruct (max_iterations self <=? iteration_count self + 1)%Z eqn:Hle;
    [intros [= <- <- <-]; cbn; repeat split; lia|].
  intros Hloop. apply IH in Hloop. cbn in Hloop.
  destruct Hloop as (Hthreshold & Hmax & Hcount).
  split; [assumption|]. split; [assumption|]. apply Z.leb_gt in Hle. lia.
Qed.

(** The loop raises nothing of its own: an exception that leaves it is
    one of the assessment. *)
Lemma loop_raises fuel : forall self world assets reqs results e self' world',
  loop assess fuel self world assets reqs results = Some (Raise e, self', world') ->
  exists world0 assets0 reqs0, (assess world0 assets0 reqs0).1 = Raise e.
Proof.
  induction fuel as [|fuel IH]; intros self world assets reqs results e self' world'; cbn.
  - destruct (_ && _); discriminate.
  - destruct (_ && _); [|discriminate].
    destruct (assess world assets reqs) as [[qa|e0] world1] eqn:Hassess.
    + destruct (PrimFloat.leb _ _); [discriminate|].
      destruct (_ <=? _)%Z; [discriminate|]. apply IH.
    + intros [= <- <- <-]. exists world, assets, reqs. now rewrite Hassess.
Qed.

(** Results that do not meet the standards come from an agent that has
    used up its budget. *)
Lemma loop_failed_exhausts fuel : forall self world assets reqs results r self' world',
  loop assess fuel self world assets reqs results = Some (Return r, self', world') ->
  Results.meets_standards r = false ->
  (max_iterations self' <= iteration_count self')%Z.
Proof.
  induction fuel as [|fuel IH]; intros self world assets reqs results r self' world'; cbn.
  - destruct (iteration_count self <? max_iterations self)%Z eqn:Hlt; cbn.
    + destruct (Results.meets_standards results) eqn:Hmeets; cbn; [|discriminate].
      intros [= <- <- <-] Hr. congruence.
    + intros [= <- <- <-] _. now apply Z.ltb_ge in Hlt.
  - destruct (iteration_count self <? max_iterations self)%Z eqn:Hlt; cbn;
      [|intros [= <- <- <-] _; now apply Z.ltb_ge in Hlt].
    destruct (Results.meets_standards results) eqn:Hmeets; cbn;
      [intros [= <- <- <-] Hr; congruence|].
    destruct (assess world assets reqs) as [[qa|e0] world1]; [|discriminate].
    destruct (PrimFloat.leb _ _); [intros [= <- <- <-] Hr; discriminate Hr|].
    destruct (max_iterations self <=? iteration_count self + 1)%Z eqn:Hle.
    + intros [= <- <- <-] _. cbn. now apply Z.leb_le in Hle.
    + apply IH.
Qed.

(** The results are those the loop began with, or they carry the counter
    of the agent as the number of iterations. *)
Lemma loop_counts fuel : forall self world assets reqs results r self' world',
  loop assess fuel self world assets reqs results = Some (Return r, self', world') ->
  (r = results ∧ self' = self)
  ∨ Results.iterations_performed r = iteration_count self'.
Proof.
  induction fuel as [|fuel IH]; intros self world assets reqs results r self' world'; cbn.
  - destruct (_ && _); [discriminate|]. intros [= <- <- <-]. now left.
  - destruct (_ && _); [|intros [= <- <- <-]; now left].
    destruct (assess world assets reqs) as [[qa|e0] world1]; [|discriminate].
    destruct (PrimFloat.leb _ _); [intros [= <- <- <-]; now right|].
    destruct (_ <=? _)%Z; [intros [= <- <- <-]; now right|].
    intros Hloop. apply IH in Hloop as [[-> ->]|Hcount]; right; [reflexivity|assumption].
Qed.

(** An agent whose counter has reached the maximum does not iterate:
    the results are the initial ones and nothing is assessed. *)
Lemma execute_exhausted self world task :
  (max_iterations self <= iteration_count self)%Z ->
  execute assess self world task = Some (Return initial_results, self, world).
Proof.
  intros Hle. unfold execute, budget.
  replace (Z.to_nat _) with 0 by lia. cbn.
  destruct (iteration_count self <? max_iterations self)%Z eqn:Hlt; [|reflexivity].
  apply Z.ltb_lt in Hlt. lia.
Qed.
End Loop.

(** The quality loop terminates: whatever the assessment does, [execute]
    comes back, with its results or with an exception of the assessment,
    and it leaves the counter of the agent between its old value and the
    maximum (threshold and maximum are not changed). *)
Theorem execute_returns_within_the_budget {W : Type}
    (assess : W -> gmap string Value -> gmap string Value -> Outcome Assessment.t * W)
    (self : QualityValidatorAgent) (world : W) (task : Task.t) :
  exists out self' world',
    execute assess self world task = Some (out, self', world')
    ∧ match out with
      | Return _ => True
      | Raise e => exists world0 assets reqs, (assess world0 assets reqs).1 = Raise e
      end
    ∧ quality_threshold self' = quality_threshold self
    ∧ max_iterations self' = max_iterations self
    ∧ (iteration_count self <= iteration_count self'
       <= Z.max (iteration_count self) (max_iterations self))%Z.
Proof.
  destruct (execute_total assess self world task) as [[[out self'] world'] Hexecute].
  exists out, self', world'. split; [assumption|].
  unfold execute in Hexecute. split.
  - destruct out as [r|e]; [exact I|]. now apply loop_raises in Hexecute.
  - now apply loop_bounds in Hexecute.
Qed.

(** The loop on scripted scores, from any point at which the counter of
    the agent and the number of assessments made so far are both [c]. *)
Lemma loop_scripted (t : float) (m k : nat) (score : nat -> float) :
  k < m ->
  (forall i, i < k -> PrimFloat.leb t (score i) = false) ->
  PrimFloat.leb t (score k) = true \/ S k = m ->
  forall d c fuel assets reqs results,
    c + d = k ->
    m - c <= fuel ->
    Results.meets_standards results = false ->
    loop (scripted_assess score) fuel
      {| quality_threshold := t; max_iterations := Z.of_nat m;
         iteration_count := Z.of_nat c |} c assets reqs results
    = Some (Return {| Results.final_quality_score := score k;
                      Results.iterations_performed := Z.of_nat (S k);
                      Results.improvements_made := Results.improvements_made results;
                      Results.meets_standards := PrimFloat.leb t (score k) |},
            {| quality_threshold := t; max_iterations := Z.of_nat m;
               iteration_count := Z.of_nat (S k) |}, S k).
Proof.
  intros Hk Hbelow Hlast.
  induction d as [|d IH]; intros c fuel assets reqs results Hc Hfuel Hmeets.
  - replace c with k in * by lia.
    destruct fuel as [|fuel]; [lia|]. cbn.
    replace (Z.of_nat k <? Z.of_nat m)%Z with true by (symmetry; apply Z.ltb_lt; lia).
    rewrite Hmeets. cbn.
    replace (Z.of_nat k + 1)%Z with (Z.of_nat (S k)) by lia.
    destruct (PrimFloat.leb t (score k)) eqn:Hscore; [reflexivity|].
    destruct Hlast as [|Hlast]; [discriminate|].
    replace (Z.of_nat m <=? Z.of_nat (S k))%Z with true by (symmetry; apply Z.leb_le; lia).
    now rewrite app_nil_r.
  - destruct fuel as [|fuel]; [lia|]. cbn.
    replace (Z.of_nat c <? Z.of_nat m)%Z with true by (symmetry; apply Z.ltb_lt; lia).
    rewrite Hmeets. cbn.
    rewrite Hbelow by lia.
    replace (Z.of_nat m <=? Z.of_nat c + 1)%Z with false
      by (symmetry; apply Z.leb_gt; lia).
    replace (Z.of_nat c + 1)%Z with (Z.of_nat (S c)) by lia.
    rewrite (IH (S c)); [|lia|lia|reflexivity]. cbn.
    now rewrite app_nil_r.
Qed.

(** C4. A fresh quality loop with threshold [t] and budget [m] assesses
    until the threshold is met or [m] iterations are done, and reports the
    last score: if the scores of the first [k] assessments are below [t]
    and the next one meets [t] or is the [m]-th, [execute] performs exactly
    [k + 1] iterations, reports the score of the last one, and meets the
    standards exactly when that score does. *)
Theorem execute_fresh_iterates_until_met_or_exhausted
    (t : float) (m k : nat) (score : nat -> float) (task : Task.t) :
  k < m ->
  (forall i, i < k -> PrimFloat.leb t (score i) = false) ->
  PrimFloat.leb t (score k) = true \/ S k = m ->
  execute (scripted_assess score) (new t (Z.of_nat m)) 0 task
  = Some (Return {| Results.final_quality_score := score k;
                    Results.iterations_performed := Z.of_nat (S k);
                    Results.improvements_made := [];
                    Results.meets_standards := PrimFloat.leb t (score k) |},
          {| quality_threshold := t; max_iterations := Z.of_nat m;
             iteration_count := Z.of_nat (S k) |}, S k).
Proof.
  intros Hk Hbelow Hlast. unfold execute, new, budget. cbn [max_iterations iteration_count].
  change 0%Z with (Z.of_nat 0).
  rewrite (loop_scripted t m k score Hk Hbelow Hlast k 0); [reflexivity|lia|lia|reflexivity].
Qed.

(** The two runs of the specification: scores 0.5, 0.6, 0.9 against a
    threshold of 0.8 give three iterations, standards met, final score
    0.9; a constant score of 0.3 gives five iterations, standards not met,
    final score 0.3. *)
Lemma execute_fresh_iterates_until_met_or_exhausted_witness :
  (execute (scripted_assess (successive [0.5; 0.6; 0.9]%float 0.9%float))
     (new 0.8 5) 0 empty_task
   = Some (Return {| Results.final_quality_score := 0.9;
                     Results.iterations_performed := 3;
                     Results.improvements_made := [];
                     Results.meets_standards := true |},
           {| quality_threshold := 0.8; max_iterations := 5; iteration_count := 3 |},
           3))
  ∧ (execute (scripted_assess (successive [] 0.3%float)) (new 0.8 5) 0 empty_task
     = Some (Return {| Results.final_quality_score := 0.3;
                       Results.iterations_performed := 5;
                       Results.improvements_made := [];
                       Results.meets_standards := false |},
             {| quality_threshold := 0.8; max_iterations := 5; iteration_count := 5 |},
             5)).
Proof.
  split.
  - apply (execute_fresh_iterates_until_met_or_exhausted 0.8 5 2
             (successive [0.5; 0.6; 0.9]%float 0.9%float) empty_task).
    + lia.
    + intros [|[|i]] Hi; [reflexivity|reflexivity|lia].
    + left. reflexivity.
  - apply (execute_fresh_iterates_until_met_or_exhausted 0.8 5 4
             (successive [] 0.3%float) empty_task).
    + lia.
    + intros [|[|[|[|i]]]] Hi; solve [reflexivity | lia].
    + right. reflexivity.
Defined.

(** C5 fails on the code: [iteration_count] is an attribute that [execute]
    never resets.  The agent with the default threshold and budget, the
    scoring of the repository and an empty task: the first [execute]
    scores 0.6 five times and leaves the counter at five; the second
    [execute] on the same agent assesses nothing and returns the initial
    results (no iteration, score 0.0). *)
Theorem second_execute_starts_from_old_count (format_2f : float -> string) :
  (execute (_assess_quality format_2f) (new 0.8 5) tt empty_task
   ≫= fun first =>
        (fun results =>
           (Results.iterations_performed results, Results.final_quality_score results,
            Results.meets_standards results, iteration_count first.1.2))
          <$> returned first.1.1)
  = Some (5%Z, 0.60000000000000009%float, false, 5%Z)
  ∧ (execute (_assess_quality format_2f) (new 0.8 5) tt empty_task
     ≫= fun first =>
          execute (_assess_quality format_2f) first.1.2 first.2 empty_task)
    = Some (Return initial_results,
            {| quality_threshold := 0.8; max_iterations := 5; iteration_count := 5 |},
            tt).
Proof. split; vm_compute; reflexivity. Qed.

(** The same with scripted scores: after five iterations at 0.3 the
    second call does nothing. *)
Lemma second_execute_on_scripted_scores :
  execute (scripted_assess (successive [] 0.3%float)) (new 0.8 5) 0 empty_task
  = Some (Return {| Results.final_quality_score := 0.3;
                    Results.iterations_performed := 5;
                    Results.improvements_made := [];
                    Results.meets_standards := false |},
          {| quality_threshold := 0.8; max_iterations := 5; iteration_count := 5 |},
          5)
  ∧ execute (scripted_assess (successive [] 0.3%float))
      {| quality_threshold := 0.8; max_iterations := 5; iteration_count := 5 |}
      5 empty_task
    = Some (Return initial_results,
            {| quality_threshold := 0.8; max_iterations := 5; iteration_count := 5 |},
            5).
Proof. split; vm_compute; reflexivity. Qed.

(** After a run that met the standards in three iterations the same agent
    has two iterations left, and numbers them 4 and 5. *)
Lemma second_execute_has_the_rest_of_the_budget :
  execute (scripted_assess (successive [0.5; 0.6; 0.9; 0.5; 0.6; 0.9]%float 0.9%float))
    {| quality_threshold := 0.8; max_iterations := 5; iteration_count := 3 |}
    3 empty_task
  = Some (Return {| Results.final_quality_score := 0.6;
                    Results.iterations_performed := 5;
                    Results.improvements_made := [];
                    Results.meets_standards := false |},
          {| quality_threshold := 0.8; max_iterations := 5; iteration_count := 5 |},
          5).
Proof. vm_compute. reflexivity. Qed.

(** *** The loop on the scoring of the repository *)

Lemma length_append s1 s2 :
  String.length (s1 ++ s2) = String.length s1 + String.length s2.
Proof. induction s1 as [|c s1 IH]; simpl; [reflexivity|]. now f_equal. Qed.

(** No flag set by [_apply_improvements] is stored under "script". *)
Lemma improved_key_is_not_script component : component ++ "_improved" ≠ "script".
Proof.
  intros H. apply (f_equal String.length) in H.
  rewrite length_append in H. cbn in H. lia.
Qed.

Lemma apply_improvements_app assets l1 l2 :
  _apply_improvements assets (l1 ++ l2)%list
  = _apply_improvements (_apply_improvements assets l1) l2.
Proof. apply fold_left_app. Qed.

(** Key by key: an entry is as before, or it is the flag of one of the
    improvements, stored for a component that is itself a key. *)
Lemma apply_improvements_lookup improvements : forall assets key,
  _apply_improvements assets improvements !! key = assets !! key
  ∨ (_apply_improvements assets improvements !! key = Some (VBool true)
     ∧ exists improvement,
         In improvement improvements
         ∧ key = Improvement.component improvement ++ "_improved").
Proof.
  induction improvements as [|improvement improvements IH]; intros assets key;
    [now left|].
  cbn.
  destruct (assets !! Improvement.component improvement) as [v|] eqn:Hcomponent.
  - destruct (IH (<[Improvement.component improvement ++ "_improved" := VBool true]> assets) key)
      as [Hsame | (Hflag & imp & Hin & Hkey)].
    + destruct (decide (key = Improvement.component improvement ++ "_improved")) as [->|Hne].
      * right. rewrite lookup_insert_eq in Hsame. split; [exact Hsame|].
        exists improvement. split; [now left|reflexivity].
      * left. now rewrite lookup_insert_ne in Hsame.
    + right. split; [exact Hflag|]. exists imp. split; [now right|assumption].
  - destruct (IH assets key) as [Hsame | (Hflag & imp & Hin & Hkey)]; [now left|].
    right. split; [exact Hflag|]. exists imp. split; [now right|assumption].
Qed.

Lemma apply_improvements_script assets improvements :
  _apply_improvements assets improvements !! "script" = assets !! "script".
Proof.
  destruct (apply_improvements_lookup improvements assets "script")
    as [Hsame | (_ & imp & _ & Hkey)]; [exact Hsame|].
  symmetry in Hkey. now apply improved_key_is_not_script in Hkey.
Qed.

(** The assessment of the repository reads the assets under "script" only. *)
Lemma assess_quality_reads_the_script format_2f world assets assets' requirements :
  assets' !! "script" = assets !! "script" ->
  _assess_quality format_2f world assets' requirements
  = _assess_quality format_2f world assets requirements.
Proof.
  intros Hscript.
  unfold _assess_quality, _score_audio, _score_visuals, _score_engagement.
  now rewrite Hscript.
Qed.

Lemma apply_improvements_keeps_keys improvements : forall assets key,
  is_Some (assets !! key) ->
  is_Some (_apply_improvements assets improvements !! key).
Proof.
  induction improvements as [|improvement improvements IH]; intros assets key Hsome;
    [exact Hsome|].
  cbn. destruct (assets !! Improvement.component improvement); [|now apply IH].
  apply IH.
  destruct (decide (key = Improvement.component improvement ++ "_improved")) as [->|Hne].
  - rewrite lookup_insert_eq. eauto.
  - now rewrite lookup_insert_ne.
Qed.

(** Applying improvements improves nothing.  Every entry of the assets
    is as it was, unless it is the flag [<component>_improved], set to
    [True], of an improvement; no entry is removed; and the assessment of
    the improved assets is the assessment of the assets (the same
    scores and issues, or the same exception). *)
Theorem improvements_only_set_flags
    (format_2f : float -> string) (assets requirements : gmap string Value)
    (improvements : list Improvement.t) :
  (forall key,
     _apply_improvements assets improvements !! key = assets !! key
     ∨ (_apply_improvements assets improvements !! key = Some (VBool true)
        ∧ exists improvement,
            In improvement improvements
            ∧ key = Improvement.component improvement ++ "_improved"))
  ∧ (forall key, is_Some (assets !! key) ->
       is_Some (_apply_improvements assets improvements !! key))
  ∧ _assess_quality format_2f tt (_apply_improvements assets improvements) requirements
    = _assess_quality format_2f tt assets requirements.
Proof.
  split; [apply apply_improvements_lookup|].
  split; [apply apply_improvements_keeps_keys|].
  apply assess_quality_reads_the_script, apply_improvements_script.
Qed.

(** The loop on the scoring of the repository, from any point at which
    the script entry is the original one and the score is below the
    threshold: the remaining budget is used up. *)
Lemma loop_stationary format_2f (t : float) (m : Z) assets reqs assessment :
  (_assess_quality format_2f tt assets reqs).1 = Return assessment ->
  PrimFloat.leb t (Assessment.overall_score assessment) = false ->
  forall d fuel c assets' results,
    assets' !! "script" = assets !! "script" ->
    Z.to_nat (m - c) = S d ->
    S d <= fuel ->
    Results.meets_standards results = false ->
    loop (_assess_quality format_2f) fuel
      {| quality_threshold := t; max_iterations := m; iteration_count := c |}
      tt assets' reqs results
    = Some (Return {| Results.final_quality_score := Assessment.overall_score assessment;
                      Results.iterations_performed := m;
                      Results.improvements_made :=
                        Results.improvements_made results
                        ++ mjoin (replicate (S d) (_generate_improvements assessment));
                      Results.meets_standards := false |},
            {| quality_threshold := t; max_iterations := m; iteration_count := m |},
            tt).
Proof.
  intros Hassess Hbelow.
  induction d as [|d IH]; intros fuel c assets' results Hscript Hleft Hfuel Hmeets;
    (destruct fuel as [|fuel]; [lia|]); cbn [loop];
    cbn [quality_threshold max_iterations iteration_count];
    (replace (c <? m)%Z with true by (symmetry; apply Z.ltb_lt; lia));
    rewrite Hmeets; cbn [negb andb];
    rewrite (assess_quality_reads_the_script format_2f tt assets assets' reqs Hscript);
    destruct (_assess_quality format_2f tt assets reqs) as [out []] eqn:Hqa;
    cbn [fst] in Hassess; subst out; rewrite Hbelow.
  - replace (m <=? c + 1)%Z with true by (symmetry; apply Z.leb_le; lia).
    replace (c + 1)%Z with m by lia.
    cbn [mjoin replicate list_join]. rewrite app_nil_r. reflexivity.
  - replace (m <=? c + 1)%Z with false by (symmetry; apply Z.leb_gt; lia).
    rewrite (IH fuel (c + 1)%Z); [|  |lia|lia|reflexivity].
    + cbn [Results.improvements_made]. rewrite <- app_assoc. reflexivity.
    + destruct (_generate_improvements assessment); [exact Hscript|].
      now rewrite apply_improvements_script.
Qed.

(** The three ways the loop can go on the scoring of the repository. *)
Lemma execute_raises_at_once format_2f self task e :
  (iteration_count self < max_iterations self)%Z ->
  (_assess_quality format_2f tt (default ∅ (Task.video_assets task))
     (default ∅ (Task.quality_requirements task))).1 = Raise e ->
  execute (_assess_quality format_2f) self tt task
  = Some (Raise e, counting self (iteration_count self + 1)%Z, tt).
Proof.
  intros Hleft Hassess. unfold execute, budget.
  destruct (Z.to_nat (max_iterations self - iteration_count self)) as [|fuel] eqn:Hfuel;
    [lia|].
  cbn [loop].
  replace (iteration_count self <? max_iterations self)%Z with true
    by (symmetry; apply Z.ltb_lt; lia).
  cbn [Results.meets_standards negb andb quality_threshold max_iterations iteration_count].
  destruct (_assess_quality format_2f tt _ _) as [out []] eqn:Hqa.
  cbn [fst] in Hassess. now subst out.
Qed.

Lemma execute_meets_at_once format_2f self task assessment :
  (iteration_count self < max_iterations self)%Z ->
  (_assess_quality format_2f tt (default ∅ (Task.video_assets task))
     (default ∅ (Task.quality_requirements task))).1 = Return assessment ->
  PrimFloat.leb (quality_threshold self) (Assessment.overall_score assessment) = true ->
  execute (_assess_quality format_2f) self tt task
  = Some (Return {| Results.final_quality_score := Assessment.overall_score assessment;
                    Results.iterations_performed := iteration_count self + 1;
                    Results.improvements_made := [];
                    Results.meets_standards := true |},
          counting self (iteration_count self + 1)%Z, tt).
Proof.
  intros Hleft Hassess Hscore. unfold execute, budget.
  destruct (Z.to_nat (max_iterations self - iteration_count self)) as [|fuel] eqn:Hfuel;
    [lia|].
  cbn [loop].
  replace (iteration_count self <? max_iterations self)%Z with true
    by (symmetry; apply Z.ltb_lt; lia).
  cbn [Results.meets_standards negb andb quality_threshold max_iterations iteration_count].
  destruct (_assess_quality format_2f tt _ _) as [out []] eqn:Hqa.
  cbn [fst] in Hassess. subst out. now rewrite Hscore.
Qed.

Lemma execute_uses_up_the_budget format_2f self task assessment :
  (iteration_count self < max_iterations self)%Z ->
  (_assess_quality format_2f tt (default ∅ (Task.video_assets task))
     (default ∅ (Task.quality_requirements task))).1 = Return assessment ->
  PrimFloat.leb (quality_threshold self) (Assessment.overall_score assessment) = false ->
  execute (_assess_quality format_2f) self tt task
  = Some (Return {| Results.final_quality_score := Assessment.overall_score assessment;
                    Results.iterations_performed := max_iterations self;
                    Results.improvements_made :=
                      mjoin (replicate (budget self) (_generate_improvements assessment));
                    Results.meets_standards := false |},
          counting self (max_iterations self), tt).
Proof.
  intros Hleft Hassess Hscore. unfold execute.
  destruct self as [t m c]. cbn [quality_threshold max_iterations iteration_count] in *.
  destruct (budget {| quality_threshold := t; max_iterations := m; iteration_count := c |})
    as [|d] eqn:Hbudget; [unfold budget in Hbudget; cbn in Hbudget; lia|].
  rewrite (loop_stationary format_2f t m (default ∅ (Task.video_assets task))
             (default ∅ (Task.quality_requirements task)) assessment Hassess Hscore
             d (S d) c);
    [reflexivity|reflexivity|exact Hbudget|lia|reflexivity].
Qed.

(** The quality loop cannot improve anything.  On an agent with budget
    left, [execute] with the scoring of the repository goes one of three
    ways, decided by its first assessment: the assessment raises and so
    does [execute], with the counter moved by one; the score meets the
    threshold at once; or the budget is used up on the same score, with
    the same improvements collected in every round. *)
Theorem execute_passes_at_once_or_exhausts_the_budget
    (format_2f : float -> string) (self : QualityValidatorAgent) (task : Task.t) :
  (iteration_count self < max_iterations self)%Z ->
  execute (_assess_quality format_2f) self tt task
  = Some
      match (_assess_quality format_2f tt (default ∅ (Task.video_assets task))
               (default ∅ (Task.quality_requirements task))).1 with
      | Raise e => (Raise e, counting self (iteration_count self + 1)%Z, tt)
      | Return assessment =>
          let score := Assessment.overall_score assessment in
          if PrimFloat.leb (quality_threshold self) score then
            (Return {| Results.final_quality_score := score;
                       Results.iterations_performed := iteration_count self + 1;
                       Results.improvements_made := [];
                       Results.meets_standards := true |},
             counting self (iteration_count self + 1)%Z, tt)
          else
            (Return {| Results.final_quality_score := score;
                       Results.iterations_performed := max_iterations self;
                       Results.improvements_made :=
                         mjoin (replicate (budget self)
                                  (_generate_improvements assessment));
                       Results.meets_standards := false |},
             counting self (max_iterations self), tt)
      end.
Proof.
  intros Hleft.
  destruct (_assess_quality format_2f tt _ _).1 as [assessment|e] eqn:Hassess.
  - cbn zeta.
    destruct (PrimFloat.leb (quality_threshold self) (Assessment.overall_score assessment))
      eqn:Hscore.
    + now apply execute_meets_at_once.
    + now apply execute_uses_up_the_budget.
  - now apply execute_raises_at_once.
Qed.

(** The agent of the production team (threshold 0.8, five iterations) on
    an empty task uses up its budget: five rounds at 0.6, with the same
    two improvements each time.  On a script that is a string the first
    assessment raises, and the counter is at one. *)
Lemma execute_passes_at_once_or_exhausts_the_budget_witness :
  (iteration_count (new 0.8 5) < max_iterations (new 0.8 5))%Z
  ∧ (execute (_assess_quality two_decimals) (new 0.8 5) tt empty_task
     ≫= fun r =>
          (fun results =>
             (Results.final_quality_score results, Results.iterations_performed results,
              Results.meets_standards results,
              map Improvement.issue (Results.improvements_made results)))
            <$> returned r.1.1)
    = Some (0.60000000000000009%float, 5%Z, false,
            mjoin (replicate 5 ["Low script_quality score: 0.30";
                                "Low visual_quality score: 0.60"]))
  ∧ execute (_assess_quality two_decimals) (new 0.8 5) tt
      {| Task.video_assets := Some {[ "script" := VStr "draft" ]};
         Task.quality_requirements := None |}
    = Some (Raise "AttributeError",
            {| quality_threshold := 0.8; max_iterations := 5; iteration_count := 1 |}, tt).
Proof.
  assert (H : (iteration_count (new 0.8 5) < max_iterations (new 0.8 5))%Z)
    by (cbn; lia).
  split; [exact H|]. split.
  - rewrite (execute_passes_at_once_or_exhausts_the_budget two_decimals (new 0.8 5)
               empty_task H).
    vm_compute. reflexivity.
  - rewrite (execute_passes_at_once_or_exhausts_the_budget two_decimals (new 0.8 5)
               _ H).
    vm_compute. reflexivity.
Defined.

(** *** Requirements, and the quality phase of the production team *)

(** The loop over the scores raises nothing when the threshold is one a
    score compares with. *)
Lemma issues_below_comparable format_2f threshold scores :
  match threshold with
  | VFloat _ | VInt _ | VBool _ => True
  | _ => False
  end ->
  exists issues, issues_below format_2f threshold scores = Return issues.
Proof.
  intros Hthreshold.
  induction scores as [|cs scores [issues IH]]; cbn [issues_below]; [eauto|].
  destruct threshold; try contradiction; cbn [less_than]; rewrite IH; eauto.
Qed.

(** Requirements do not bear on the scores: with thresholds that compare,
    two assessments of the same assets raise the same exception or find
    the same overall score. *)
Lemma overall_score_of_the_assets format_2f assets requirements requirements' :
  comparable requirements ->
  comparable requirements' ->
  match (_assess_quality format_2f tt assets requirements).1,
        (_assess_quality format_2f tt assets requirements').1 with
  | Return assessment, Return assessment' =>
      Assessment.overall_score assessment = Assessment.overall_score assessment'
  | Raise e, Raise e' => e = e'
  | _, _ => False
  end.
Proof.
  unfold comparable, _assess_quality, _identify_issues. intros Hcomparable Hcomparable'.
  cbn [fst].
  destruct (_score_script _) as [script_quality|e]; [|reflexivity].
  match goal with
  | |- context [issues_below format_2f ?t ?scores] =>
      destruct (issues_below_comparable format_2f t scores) as [issues ->]
  end.
  { destruct (requirements !! "min_component_score") as [[]|]; cbn; auto. }
  match goal with
  | |- context [issues_below format_2f ?t ?scores] =>
      destruct (issues_below_comparable format_2f t scores) as [issues' ->]
  end.
  { destruct (requirements' !! "min_component_score") as [[]|]; cbn; auto. }
  reflexivity.
Qed.

(** The requirements cannot change the verdict.  Whatever requirements a
    task carries, as long as the component threshold in them is one a
    score compares with, [execute] with the scoring of the repository
    reports the same score, the same number of iterations and the same
    [meets_standards] (or raises the same exception), and leaves the
    agent in the same state: the requirements only decide which
    improvements are listed. *)
Theorem requirements_do_not_change_the_verdict
    (format_2f : float -> string) (self : QualityValidatorAgent)
    (assets requirements requirements' : option (gmap string Value)) :
  comparable (default ∅ requirements) ->
  comparable (default ∅ requirements') ->
  verdict (execute (_assess_quality format_2f) self tt
             {| Task.video_assets := assets; Task.quality_requirements := requirements |})
  = verdict (execute (_assess_quality format_2f) self tt
               {| Task.video_assets := assets;
                  Task.quality_requirements := requirements' |}).
Proof.
  intros Hcomparable Hcomparable'.
  destruct (Z.lt_ge_cases (iteration_count self) (max_iterations self)) as [Hleft|Hdone];
    [|now rewrite !execute_exhausted by lia].
  set (task := {| Task.video_assets := assets;
                  Task.quality_requirements := requirements |}).
  set (task' := {| Task.video_assets := assets;
                   Task.quality_requirements := requirements' |}).
  pose proof (overall_score_of_the_assets format_2f (default ∅ assets)
                (default ∅ requirements) (default ∅ requirements')
                Hcomparable Hcomparable') as Hsame.
  destruct (_assess_quality format_2f tt (default ∅ assets) (default ∅ requirements)).1
    as [assessment|e] eqn:Hassess;
    destruct (_assess_quality format_2f tt (default ∅ assets) (default ∅ requirements')).1
      as [assessment'|e'] eqn:Hassess'; try contradiction.
  - destruct (PrimFloat.leb (quality_threshold self) (Assessment.overall_score assessment))
      eqn:Hscore.
    + rewrite (execute_meets_at_once format_2f self task assessment Hleft Hassess Hscore).
      rewrite Hsame in Hscore.
      rewrite (execute_meets_at_once format_2f self task' assessment' Hleft Hassess' Hscore).
      cbn. now rewrite Hsame.
    + rewrite (execute_uses_up_the_budget format_2f self task assessment Hleft Hassess
                 Hscore).
      rewrite Hsame in Hscore.
      rewrite (execute_uses_up_the_budget format_2f self task' assessment' Hleft Hassess'
                 Hscore).
      cbn. now rewrite Hsame.
  - subst e'.
    rewrite (execute_raises_at_once format_2f self task e Hleft Hassess).
    rewrite (execute_raises_at_once format_2f self task' e Hleft Hassess').
    reflexivity.
Qed.

(** A script of two scenes, once without requirements and once with a
    component threshold of 0.9: five iterations at 0.65 either way. *)
Lemma requirements_do_not_change_the_verdict_witness :
  comparable (default ∅ None)
  ∧ comparable (default ∅ (Some {[ "min_component_score" := VFloat 0.9 ]}))
  ∧ verdict (execute (_assess_quality two_decimals) (new 0.8 5) tt
               {| Task.video_assets :=
                    Some {[ "script" :=
                              VDict [("scenes", VList [VStr "intro"; VStr "outro"])] ]};
                  Task.quality_requirements := None |})
    = verdict (execute (_assess_quality two_decimals) (new 0.8 5) tt
                 {| Task.video_assets :=
                      Some {[ "script" :=
                                VDict [("scenes", VList [VStr "intro"; VStr "outro"])] ]};
                    Task.quality_requirements :=
                      Some {[ "min_component_score" := VFloat 0.9 ]} |}).
Proof.
  assert (H1 : comparable (default ∅ None)) by exact I.
  assert (H2 : comparable (default ∅ (Some {[ "min_component_score" := VFloat 0.9 ]})))
    by (vm_compute; exact I).
  split; [exact H1|]. split; [exact H2|].
  exact (requirements_do_not_change_the_verdict two_decimals (new 0.8 5) _ None
           (Some {[ "min_component_score" := VFloat 0.9 ]}) H1 H2).
Defined.

(** The production team has one validator for all its videos.  Once the
    quality phase of a video has returned without meeting the standards,
    the validator has used up its five iterations for good: the quality
    phase of every later video assesses nothing and reports a score of
    0.0, no iteration and [meets_standards] false, whatever the assets
    are and whatever the assessment would have said. *)
Theorem later_videos_are_not_assessed {W : Type}
    (assess : W -> gmap string Value -> gmap string Value -> Outcome Assessment.t * W)
    (world world1 world' : W) (assets assets' : gmap string Value)
    (final : FinalAssets.t) (quality_validator : QualityValidatorAgent) :
  _execute_quality_phase assess (new 0.8 5) world assets
  = Some (Return final, quality_validator, world1) ->
  FinalAssets.meets_standards final = false ->
  Results.iterations_performed (FinalAssets.quality_assessment final) = 5%Z
  ∧ iteration_count quality_validator = 5%Z
  ∧ _execute_quality_phase assess quality_validator world' assets'
    = Some (Return {| FinalAssets.production_assets := assets';
                      FinalAssets.quality_assessment := initial_results;
                      FinalAssets.quality_score := 0.0;
                      FinalAssets.meets_standards := false |}, quality_validator, world').
Proof.
  unfold _execute_quality_phase.
  destruct (execute assess (new 0.8 5) world _) as [[[[r|e] validator] w]|] eqn:Hexecute;
    [|discriminate|discriminate].
  intros [= <- <- <-]. cbn [FinalAssets.meets_standards FinalAssets.quality_assessment].
  intros Hfailed. unfold execute in Hexecute.
  pose proof (loop_failed_exhausts assess _ _ _ _ _ _ _ _ _ Hexecute Hfailed) as Hdone.
  pose proof (loop_bounds assess _ _ _ _ _ _ _ _ _ Hexecute) as (_ & Hmax & Hcount).
  cbn in Hmax, Hcount.
  assert (Hfive : iteration_count validator = 5%Z) by lia.
  split; [|split; [exact Hfive|]].
  - destruct (loop_counts assess _ _ _ _ _ _ _ _ _ Hexecute) as [[_ ->]|Hcounts];
      [cbn in Hfive; lia|].
    now rewrite Hcounts.
  - rewrite execute_exhausted by lia. reflexivity.
Qed.

(** The first video of a team has no assets to show and fails; the
    second one, with a script, is not looked at. *)
Lemma later_videos_are_not_assessed_witness :
  exists final quality_validator,
    _execute_quality_phase (_assess_quality two_decimals) (new 0.8 5) tt ∅
    = Some (Return final, quality_validator, tt)
    ∧ FinalAssets.meets_standards final = false
    ∧ Results.iterations_performed (FinalAssets.quality_assessment final) = 5%Z
    ∧ iteration_count quality_validator = 5%Z
    ∧ _execute_quality_phase (_assess_quality two_decimals) quality_validator tt
        {[ "script" := VDict [("scenes", VList [VStr "intro"; VStr "outro"])] ]}
      = Some (Return
                {| FinalAssets.production_assets :=
                     {[ "script" := VDict [("scenes", VList [VStr "intro"; VStr "outro"])] ]};
                   FinalAssets.quality_assessment := initial_results;
                   FinalAssets.quality_score := 0.0;
                   FinalAssets.meets_standards := false |}, quality_validator, tt).
Proof.
  assert (Hsome : match _execute_quality_phase (_assess_quality two_decimals)
                          (new 0.8 5) tt ∅ with
                  | Some (Return final, _, _) => negb (FinalAssets.meets_standards final)
                  | _ => false
                  end = true) by (vm_compute; reflexivity).
  destruct (_execute_quality_phase (_assess_quality two_decimals) (new 0.8 5) tt ∅)
    as [[[[final|e] quality_validator] []]|] eqn:Hphase;
    [|discriminate Hsome|discriminate Hsome].
  exists final, quality_validator. split; [reflexivity|].
  assert (Hfailed : FinalAssets.meets_standards final = false)
    by (destruct (FinalAssets.meets_standards final); [discriminate Hsome|reflexivity]).
  split; [exact Hfailed|].
  exact (later_videos_are_not_assessed (_assess_quality two_decimals) tt tt tt ∅
           {[ "script" := VDict [("scenes", VList [VStr "intro"; VStr "outro"])] ]}
           final quality_validator Hphase Hfailed).
Defined.

End QualityLoopFacts.

(** ** The orchestrator *)

Module OrchestratorFacts.
Import Orchestrator.

(** *** Updating the step dictionary *)

Lemma update_step_keys key f store :
  map fst (update_step key f store) = map fst store.
Proof.
  unfold update_step. rewrite map_map. apply map_ext.
  intros [k s]. cbn. now destruct (decide (k = key)).
Qed.

(** A series of updates under distinct keys, seen entry by entry. *)
Lemma fold_update_step {A} (key : A -> string)
    (f : A -> WorkflowStep.t -> WorkflowStep.t) (l : list A) : forall store,
  NoDup (map key l) ->
  fold_left (fun store a => update_step (key a) (f a) store) l store
  = map (fun ks =>
           match List.find (fun a => bool_decide (key a = ks.1)) l with
           | Some a => (ks.1, f a ks.2)
           | None => ks
           end) store.
Proof.
  induction l as [|a l IH]; intros store Hnodup; cbn.
  - symmetry. apply map_id.
  - inversion Hnodup as [|? ? Hnotin Hnodup']; subst.
    rewrite IH by assumption. unfold update_step at 1. rewrite map_map.
    apply map_ext. intros [k s]. cbn.
    destruct (decide (k = key a)) as [->|Hne]; cbn.
    + rewrite bool_decide_eq_true_2 by reflexivity.
      destruct (List.find _ l) as [b|] eqn:Hfind; [|reflexivity].
      apply find_some in Hfind as [Hin Hkey].
      apply bool_decide_eq_true_1 in Hkey.
      exfalso. apply Hnotin. rewrite <- Hkey.
      apply list_elem_of_In, in_map, Hin.
    + rewrite bool_decide_eq_false_2 by congruence. reflexivity.
Qed.

(** The entry a wave holds for a step of the dictionary. *)
Lemma find_among_ready {A} (g : string * WorkflowStep.t -> A) (key : A -> string)
    (p : string * WorkflowStep.t -> bool) (steps : list (string * WorkflowStep.t)) :
  (forall ks, key (g ks) = ks.1) ->
  NoDup (map fst steps) ->
  forall ks, In ks steps ->
    List.find (fun a => bool_decide (key a = ks.1)) (map g (List.filter p steps))
    = if p ks then Some (g ks) else None.
Proof.
  intros Hkey. induction steps as [|x steps IH]; intros Hnodup ks Hin; [easy|].
  inversion Hnodup as [|? ? Hnotin Hnodup']; subst.
  assert (Hrest : ~ In ks steps ->
            List.find (fun a => bool_decide (key a = ks.1)) (map g (List.filter p steps))
            = None -> x = ks ->
            List.find (fun a => bool_decide (key a = ks.1))
              (map g (List.filter p (x :: steps)))
            = if p ks then Some (g ks) else None).
  { intros _ Hnone ->. cbn. destruct (p ks); cbn; [|exact Hnone].
    now rewrite Hkey, bool_decide_eq_true_2. }
  destruct Hin as [Heq | Hin].
  - apply Hrest; [|  |exact Heq].
    + intros Hin. apply Hnotin. subst x. apply list_elem_of_In, in_map, Hin.
    + destruct (List.find _ _) as [b|] eqn:Hfind; [|reflexivity].
      apply find_some in Hfind as [Hb Hkb]. apply bool_decide_eq_true_1 in Hkb.
      apply in_map_iff in Hb as [y [<- Hy]]. apply filter_In in Hy as [Hy _].
      rewrite Hkey in Hkb. exfalso. apply Hnotin. subst x. rewrite <- Hkb.
      apply list_elem_of_In, in_map, Hy.
  - cbn. destruct (p x); cbn.
    + rewrite Hkey. rewrite bool_decide_eq_false_2; [now apply IH|].
      intros Heq. apply Hnotin. rewrite Heq. apply list_elem_of_In, in_map, Hin.
    + now apply IH.
Qed.

Lemma update_step_same key store :
  update_step key (fun s => s) store = store.
Proof.
  unfold update_step. rewrite <- (map_id store) at 2. apply map_ext.
  intros [k s]. cbn. now destruct (decide (k = key)).
Qed.

Lemma NoDup_keys_filter (p : string * WorkflowStep.t -> bool) steps :
  NoDup (map fst steps) -> NoDup (map fst (List.filter p steps)).
Proof.
  induction steps as [|x steps IH]; intros Hnodup; [assumption|].
  inversion Hnodup as [|? ? Hnotin Hnodup']; subst. cbn.
  destruct (p x); cbn; [|now apply IH].
  constructor; [|now apply IH].
  intros Hin. apply Hnotin.
  apply list_elem_of_In, in_map_iff in Hin as [y [Hy Hin]].
  apply filter_In in Hin as [Hin _].
  rewrite <- Hy. apply list_elem_of_In, in_map, Hin.
Qed.

Lemma dispatch_keys world wave ready :
  map (fun d : Dispatched => d.1.1) (dispatch world wave ready) = map fst ready.
Proof. unfold dispatch. rewrite map_map. reflexivity. Qed.

(** *** A wave, entry by entry *)

(** The dictionary while a wave is in flight. *)
Lemma in_flight_spec world wave progress executed steps :
  NoDup (map fst steps) ->
  in_flight world wave progress (ready_steps executed steps) steps
  = map (during_wave world wave executed progress) steps.
Proof.
  intros Hnodup. unfold in_flight.
  set (f := fun (ks : string * WorkflowStep.t) (cur : WorkflowStep.t) =>
              match progress ks.1 with
              | NotStarted => cur
              | Awaiting => begin_step (started_time world wave ks.1) ks.2
              | Settled => (_execute_workflow_step world wave ks.1 ks.2).1
              end).
  transitivity
    (fold_left (fun store ks => update_step ks.1 (f ks) store)
       (ready_steps executed steps) steps).
  { generalize steps at 2 4. induction (ready_steps executed steps) as [|ks l IH];
      intros store; [reflexivity|]. cbn. rewrite <- IH. f_equal.
    unfold f. destruct (progress ks.1); [|reflexivity|reflexivity].
    symmetry. apply update_step_same. }
  rewrite fold_update_step by (apply NoDup_keys_filter; assumption).
  apply map_ext_in. intros ks Hin.
  unfold ready_steps.
  rewrite <- (map_id (List.filter _ steps)).
  rewrite (find_among_ready (fun ks => ks) fst _ steps) by (auto; reflexivity).
  unfold during_wave, f.
  destruct (is_ready executed ks.2); [|reflexivity].
  destruct (progress ks.1); [now destruct ks|reflexivity|reflexivity].
Qed.

(** The dictionary when every coroutine of the wave has come back. *)
Lemma gathered_spec world wave executed steps :
  NoDup (map fst steps) ->
  gathered (dispatch world wave (ready_steps executed steps)) steps
  = map (during_wave world wave executed (fun _ => Settled)) steps.
Proof.
  intros Hnodup. unfold gathered.
  rewrite (fold_update_step (fun d : Dispatched => d.1.1) (fun d _ => d.1.2)).
  2:{ rewrite dispatch_keys. apply NoDup_keys_filter; assumption. }
  apply map_ext_in. intros ks Hin.
  unfold dispatch, ready_steps.
  rewrite (find_among_ready _ (fun d : Dispatched => d.1.1) _ steps) by auto.
  unfold during_wave. now destruct (is_ready executed ks.2).
Qed.

(** Processing the results of a wave, field by field. *)
Lemma fold_process_result_steps ds : forall st,
  Workflow.steps (workflow (fold_left process_result ds st))
  = fold_left (fun store (d : Dispatched) => update_step d.1.1 (mark d.2) store) ds
      (Workflow.steps (workflow st)).
Proof.
  induction ds as [|d ds IH]; intros st; [reflexivity|]. cbn.
  rewrite IH. f_equal. unfold process_result, mark. now destruct d.2.
Qed.

Lemma fold_process_result_executed ds : forall st,
  executed_steps (fold_left process_result ds st)
  = executed_steps st ∪ list_to_set (completed_ids ds).
Proof.
  induction ds as [|d ds IH]; intros st; cbn.
  - set_solver.
  - rewrite IH. unfold process_result, completed_ids. cbn.
    destruct d.2; cbn; set_solver.
Qed.

Lemma fold_process_result_status ds : forall st,
  Workflow.status (workflow (fold_left process_result ds st))
  = Workflow.status (workflow st).
Proof.
  induction ds as [|d ds IH]; intros st; [reflexivity|]. cbn.
  rewrite IH. unfold process_result. now destruct d.2.
Qed.

Lemma control_effect_steps c w :
  Workflow.steps (control_effect c w) = Workflow.steps w.
Proof.
  destruct c; cbn; [|reflexivity].
  now destruct (decide (Workflow.status w = RUNNING)).
Qed.

Lemma interfere_steps cs : forall wl,
  Workflow.steps (interfere cs wl).1 = Workflow.steps wl.1.
Proof.
  induction cs as [|c cs IH]; intros wl; [reflexivity|]. cbn.
  unfold interfere in IH. rewrite IH. cbn. apply control_effect_steps.
Qed.

Lemma during_wave_key world wave executed progress ks :
  (during_wave world wave executed progress ks).1 = ks.1.
Proof.
  unfold during_wave. destruct (is_ready executed ks.2); [|reflexivity].
  now destruct (progress ks.1).
Qed.

(** The loop runs a wave exactly when steps are left and some are ready. *)
Lemma iteration_continue_inv world calls st st' :
  iteration world calls st = Continue st' ->
  size (executed_steps st) < length (Workflow.steps (workflow st))
  ∧ ready_steps (executed_steps st) (Workflow.steps (workflow st)) ≠ [].
Proof.
  unfold iteration.
  destruct (decide (size (executed_steps st) < length (Workflow.steps (workflow st))));
    [|discriminate].
  destruct (ready_steps _ _); [discriminate|]. intros _. split; [assumption|easy].
Qed.

Lemma iteration_runs world calls st :
  size (executed_steps st) < length (Workflow.steps (workflow st)) ->
  ready_steps (executed_steps st) (Workflow.steps (workflow st)) ≠ [] ->
  exists st', iteration world calls st = Continue st'.
Proof.
  intros Hsize Hready. unfold iteration.
  destruct (decide (size (executed_steps st) < length (Workflow.steps (workflow st))));
    [|contradiction].
  destruct (ready_steps _ _); [contradiction|]. eauto.
Qed.

(** When the loop is left, the steps are as they were. *)
Lemma iteration_exit_spec world calls st st' :
  iteration world calls st = Exit st' ->
  workflow st' = workflow st
  ∧ executed_steps st' = executed_steps st
  ∧ wave st' = wave st.
Proof.
  unfold iteration.
  destruct (decide (size (executed_steps st) < length (Workflow.steps (workflow st)))).
  - destruct (ready_steps _ _); [|discriminate]. now intros [= <-].
  - now intros [= <-].
Qed.

(** A wave of the loop: every ready step is dispatched and marked, the
    others are left alone; the completed ones join [executed_steps]. *)
Lemma iteration_continue_spec world calls st st' :
  NoDup (map fst (Workflow.steps (workflow st))) ->
  iteration world calls st = Continue st' ->
  Workflow.steps (workflow st')
    = map (after_wave world (wave st) (executed_steps st))
        (Workflow.steps (workflow st))
  ∧ executed_steps st'
    = executed_steps st
      ∪ list_to_set
          (completed_ids
             (dispatch world (wave st)
                (ready_steps (executed_steps st) (Workflow.steps (workflow st)))))
  ∧ wave st' = S (wave st).
Proof.
  intros Hnodup. unfold iteration.
  destruct (decide (size (executed_steps st) < length (Workflow.steps (workflow st))));
    [|discriminate].
  destruct (ready_steps _ _) as [|r ready] eqn:Hready; [discriminate|].
  rewrite <- Hready. intros [= <-]. cbn [workflow executed_steps wave].
  split; [|split; [|reflexivity]].
  - rewrite fold_process_result_steps. cbn [workflow].
    rewrite interfere_steps. cbn [fst Workflow.steps Workflow.set_steps].
    rewrite gathered_spec by assumption.
    rewrite (fold_update_step (fun d : Dispatched => d.1.1) (fun d => mark d.2)).
    2:{ rewrite dispatch_keys. apply NoDup_keys_filter; assumption. }
    rewrite map_map. apply map_ext_in. intros ks Hin.
    rewrite during_wave_key.
    unfold dispatch, ready_steps.
    rewrite (find_among_ready _ (fun d : Dispatched => d.1.1) _ _) by auto.
    unfold during_wave, after_wave, finished.
    now destruct (is_ready (executed_steps st) ks.2).
  - now rewrite fold_process_result_executed.
Qed.

(** *** Results and errors of the steps *)

(** What a dispatch leaves on the step object. *)
Lemma execute_workflow_step_fields world wave key step :
  let settled := _execute_workflow_step world wave key step in
  WorkflowStep.step_id settled.1 = WorkflowStep.step_id step
  ∧ WorkflowStep.dependencies settled.1 = WorkflowStep.dependencies step
  ∧ WorkflowStep.result settled.1 = WorkflowStep.result step
  ∧ WorkflowStep.status settled.1 = RUNNING
  ∧ (forall e, settled.2 = Raise e -> WorkflowStep.error settled.1 = Some e).
Proof.
  unfold _execute_workflow_step, settle_step.
  destruct (send_message world wave key _ _) as [[r|]|e]; cbn;
    [destruct (A2A.MessageResponse.success r); cbn| |];
    repeat split; intros; congruence.
Qed.

Lemma finished_fields world wave key step :
  WorkflowStep.step_id (finished world wave key step) = WorkflowStep.step_id step
  ∧ WorkflowStep.dependencies (finished world wave key step)
    = WorkflowStep.dependencies step.
Proof.
  destruct (execute_workflow_step_fields world wave key step) as (Hid & Hdeps & _).
  unfold finished, mark.
  destruct (_execute_workflow_step world wave key step).2; cbn; auto.
Qed.

Lemma sound_mono executed executed' step :
  executed ⊆ executed' -> sound executed step -> sound executed' step.
Proof. intros Hsub [Hc Hin]. split; [assumption|]. intros H. apply Hsub, Hin, H. Qed.

Lemma pristine_sound step : pristine step -> sound ∅ step.
Proof.
  intros (Hstatus & Hresult & Herror). unfold sound, consistent.
  rewrite Hstatus, Hresult. repeat split; try discriminate; intros H.
  - now apply is_Some_None in H.
  - now apply is_Some_None in H.
Qed.

(** A ready step has no result yet. *)
Lemma ready_has_no_result executed step :
  sound executed step -> is_ready executed step = true ->
  WorkflowStep.result step = None.
Proof.
  intros [_ Hin] Hready. unfold is_ready in Hready.
  apply andb_prop in Hready as [Hid _]. apply bool_decide_eq_true_1 in Hid.
  destruct (WorkflowStep.result step) eqn:E; [|reflexivity].
  exfalso. apply Hid, Hin. eauto.
Qed.

(** While its wave is in flight a step stays consistent. *)
Lemma during_wave_consistent world wave executed progress ks :
  sound executed ks.2 ->
  consistent (during_wave world wave executed progress ks).2.
Proof.
  intros Hsound. unfold during_wave.
  destruct (is_ready executed ks.2) eqn:Hready; [|apply Hsound].
  pose proof (ready_has_no_result _ _ Hsound Hready) as Hnone.
  destruct (progress ks.1); [apply Hsound| |]; cbn.
  - unfold consistent, begin_step. cbn. rewrite Hnone.
    repeat split; try discriminate. intros H. now apply is_Some_None in H.
  - destruct (execute_workflow_step_fields world wave ks.1 ks.2)
      as (_ & _ & Hresult & Hstatus & _).
    unfold consistent. rewrite Hresult, Hstatus, Hnone.
    repeat split; try discriminate. intros H. now apply is_Some_None in H.
Qed.

(** The id of a ready step whose dispatch succeeds is among those the
    wave adds to [executed_steps]. *)
Lemma completed_ids_elem world wave executed steps ks result :
  In ks steps ->
  is_ready executed ks.2 = true ->
  (_execute_workflow_step world wave ks.1 ks.2).2 = Return result ->
  WorkflowStep.step_id ks.2
  ∈ completed_ids (dispatch world wave (ready_steps executed steps)).
Proof.
  intros Hin Hready Hreturn.
  unfold completed_ids. apply list_elem_of_omap.
  exists (ks.1, (_execute_workflow_step world wave ks.1 ks.2).1,
          (_execute_workflow_step world wave ks.1 ks.2).2).
  split.
  - apply list_elem_of_In. unfold dispatch, ready_steps.
    apply in_map_iff. exists ks. split; [reflexivity|].
    apply filter_In. auto.
  - cbn. rewrite Hreturn. f_equal.
    apply (execute_workflow_step_fields world wave ks.1 ks.2).
Qed.

(** After its wave a step is sound again. *)
Lemma after_wave_sound world wave executed steps ks :
  In ks steps ->
  sound executed ks.2 ->
  sound
    (executed
     ∪ list_to_set (completed_ids (dispatch world wave (ready_steps executed steps))))
    (after_wave world wave executed ks).2.
Proof.
  intros Hin Hsound. unfold after_wave.
  destruct (is_ready executed ks.2) eqn:Hready;
    [|eapply sound_mono; [|exact Hsound]; set_solver].
  pose proof (ready_has_no_result _ _ Hsound Hready) as Hnone.
  destruct (execute_workflow_step_fields world wave ks.1 ks.2)
    as (Hid & _ & Hresult & Hstatus & Herror).
  cbn. unfold finished, mark.
  destruct (_execute_workflow_step world wave ks.1 ks.2).2 as [result|e] eqn:Hout.
  - unfold sound, consistent. cbn. repeat split; try discriminate; eauto.
    intros _. rewrite Hid. apply elem_of_union_r, elem_of_list_to_set.
    eapply completed_ids_elem; eauto.
  - unfold sound, consistent. cbn. rewrite Hresult, Hnone.
    repeat split; try discriminate; eauto;
      intros H; now apply is_Some_None in H.
Qed.

(** Every state the loop reaches keeps its keys apart and its steps sound. *)
Lemma reaches_sound world calls st0 st :
  reaches world calls st0 st ->
  NoDup (map fst (Workflow.steps (workflow st0))) ->
  Forall (fun ks => sound (executed_steps st0) ks.2) (Workflow.steps (workflow st0)) ->
  NoDup (map fst (Workflow.steps (workflow st)))
  ∧ Forall (fun ks => sound (executed_steps st) ks.2) (Workflow.steps (workflow st)).
Proof.
  intros Hreach Hnodup Hsound.
  induction Hreach as [st0|st0 st st' Hreach IH Hiter]; [auto|].
  destruct (IH Hnodup Hsound) as [Hnodup' Hsound'].
  destruct (iteration_continue_spec _ _ _ _ Hnodup' Hiter) as (Hsteps & Hexec & _).
  rewrite Hsteps, Hexec. split.
  - rewrite map_map.
    erewrite map_ext; [exact Hnodup'|].
    intros ks. unfold after_wave. now destruct (is_ready _ _).
  - apply List.Forall_forall. intros ks' Hin'.
    apply in_map_iff in Hin' as [ks [<- Hin]].
    apply after_wave_sound; [assumption|].
    rewrite List.Forall_forall in Hsound'. now apply Hsound'.
Qed.

Lemma conclude_steps st :
  Workflow.steps (workflow (conclude st)) = Workflow.steps (workflow st).
Proof. unfold conclude. now destruct (failed_steps _). Qed.

(** What the code does keep.  In a run of [execute_workflow] on a
    workflow whose steps are as created (pending, no result, no error),
    under distinct keys, every step dictionary that can be observed
    (between waves, while a wave is in flight, after the loop) has on
    every step a result exactly when the status is [COMPLETED], and an
    error whenever the status is [FAILED].  The converse for the error
    fails, see below. *)
Theorem observed_steps_are_consistent
    (world : World) (calls : nat -> list Control) (o : WorkflowOrchestrator)
    (workflow_id : string) (w : Workflow.t) (steps : list (string * WorkflowStep.t)) :
  NoDup (map fst (Workflow.steps w)) ->
  Forall (fun ks => pristine ks.2) (Workflow.steps w) ->
  observed world calls (enter o workflow_id w) steps ->
  Forall (fun ks => consistent ks.2) steps.
Proof.
  intros Hnodup Hpristine Hobserved.
  assert (Hstart : Forall (fun ks => sound (executed_steps (enter o workflow_id w)) ks.2)
                     (Workflow.steps (workflow (enter o workflow_id w)))).
  { cbn. eapply Forall_impl; [exact Hpristine|].
    intros ks Hks. now apply pristine_sound. }
  assert (Hkeys : NoDup (map fst (Workflow.steps (workflow (enter o workflow_id w)))))
    by exact Hnodup.
  destruct Hobserved as [st Hreach | st st' progress Hreach Hiter | st st' Hreach Hiter];
    destruct (reaches_sound _ _ _ _ Hreach Hkeys Hstart) as [Hnodup' Hsound].
  - eapply Forall_impl; [exact Hsound|]. intros ks Hks. apply Hks.
  - rewrite in_flight_spec by assumption.
    apply List.Forall_forall. intros ks' Hin'.
    apply in_map_iff in Hin' as [ks [<- Hin]].
    apply during_wave_consistent.
    rewrite List.Forall_forall in Hsound. now apply Hsound.
  - rewrite conclude_steps.
    destruct (iteration_exit_spec _ _ _ _ Hiter) as (-> & _).
    eapply Forall_impl; [exact Hsound|]. intros ks Hks. apply Hks.
Qed.

(** The production workflow while its first wave is in flight, nobody
    answers, and the first research step has come back with the timeout. *)
Lemma observed_steps_are_consistent_witness :
  NoDup (map fst (Workflow.steps production_workflow))
  ∧ Forall (fun ks => pristine ks.2) (Workflow.steps production_workflow)
  ∧ observed silent undisturbed production_start
      (in_flight silent 0 trends_back_first
         (ready_steps ∅ (Workflow.steps production_workflow))
         (Workflow.steps production_workflow))
  ∧ Forall (fun ks => consistent ks.2)
      (in_flight silent 0 trends_back_first
         (ready_steps ∅ (Workflow.steps production_workflow))
         (Workflow.steps production_workflow)).
Proof.
  assert (H1 : NoDup (map fst (Workflow.steps production_workflow))).
  { apply (@bool_decide_unpack _ (NoDup_dec _)). vm_compute. exact I. }
  assert (H2 : Forall (fun ks => pristine ks.2) (Workflow.steps production_workflow)).
  { repeat constructor. }
  assert (H3 : observed silent undisturbed production_start
                 (in_flight silent 0 trends_back_first
                    (ready_steps ∅ (Workflow.steps production_workflow))
                    (Workflow.steps production_workflow))).
  { destruct (iteration silent undisturbed production_start) as [st'|st'] eqn:Hiter;
      [|vm_compute in Hiter; discriminate].
    exact (observed_in_flight silent undisturbed production_start production_start st'
             trends_back_first (reaches_here _ _ _) Hiter). }
  split; [exact H1|]. split; [exact H2|]. split; [exact H3|].
  exact (observed_steps_are_consistent silent undisturbed producing "workflow_s1"
           production_workflow _ H1 H2 H3).
Defined.

(** An error without the status [FAILED], while a wave is in flight.
    The production workflow with agents that do not answer: the dispatch
    of the first research step has come back with the timeout while the
    other steps of the wave are still waiting.  The error is already
    stored on the step, and its status is still [RUNNING]. *)
Lemma error_is_stored_before_the_status :
  exists steps step,
    observed silent undisturbed production_start steps
    ∧ In ("research_trends", step) steps
    ∧ WorkflowStep.status step = RUNNING
    ∧ WorkflowStep.error step = Some "Agent execution failed: Response timeout"
    ∧ ~ strictly_consistent step.
Proof.
  destruct (iteration silent undisturbed production_start) as [st'|st'] eqn:Hiter;
    [|vm_compute in Hiter; discriminate].
  eexists. eexists. split.
  { exact (observed_in_flight silent undisturbed production_start production_start st'
             trends_back_first (reaches_here _ _ _) Hiter). }
  split; [vm_compute; left; reflexivity|].
  split; [reflexivity|]. split; [reflexivity|].
  intros [_ [Herror _]]. cbn in Herror. discriminate Herror. eauto.
Qed.

(** C9 fails on the code: [step.error] is set when a dispatch fails and
    never cleared.  The production workflow with agents that answer from
    the second wave on: the first research step fails in the first wave,
    is dispatched again and succeeds, and when [execute_workflow] has
    returned it is [COMPLETED], holds its result, and still carries the
    error of its first dispatch. *)
Lemma retried_step_keeps_its_error :
  final_step "workflow_s1" "research_trends"
    (execute_workflow recovering undisturbed 6 producing "workflow_s1")
  = Some {| WorkflowStep.step_id := "research_trends";
            WorkflowStep.agent_name := "researcher_trends";
            WorkflowStep.task := [("topic", "rocks"); ("research_type", "trends")];
            WorkflowStep.dependencies := [];
            WorkflowStep.status := COMPLETED;
            WorkflowStep.result := Some [("output", "research_trends")];
            WorkflowStep.error := Some "Agent execution failed: Response timeout";
            WorkflowStep.started_at := Some 2;
            WorkflowStep.completed_at := Some 3 |}.
Proof. vm_compute. reflexivity. Qed.

(** *** The loop and the status of the workflow *)

Lemma scheduler_log_app l1 l2 :
  scheduler_log (l1 ++ l2) = (scheduler_log l1 ++ scheduler_log l2)%list.
Proof. apply List.filter_app. Qed.

Lemma agree_refl st : agree st st.
Proof. repeat split. Qed.

Lemma agree_steps st1 st2 :
  agree st1 st2 -> Workflow.steps (workflow st1) = Workflow.steps (workflow st2).
Proof. intros [H _]. exact (f_equal Workflow.steps H). Qed.

Lemma agree_results st1 st2 :
  agree st1 st2 -> Workflow.results (workflow st1) = Workflow.results (workflow st2).
Proof. intros [H _]. exact (f_equal Workflow.results H). Qed.

Lemma agree_workflow_id st1 st2 :
  agree st1 st2 ->
  Workflow.workflow_id (workflow st1) = Workflow.workflow_id (workflow st2).
Proof. intros [H _]. exact (f_equal Workflow.workflow_id H). Qed.

Lemma forget_status_set_steps steps w1 w2 :
  Workflow.set_status PENDING w1 = Workflow.set_status PENDING w2 ->
  Workflow.set_status PENDING (Workflow.set_steps steps w1)
  = Workflow.set_status PENDING (Workflow.set_steps steps w2).
Proof. destruct w1, w2. cbn. intros [= -> -> -> -> -> -> ->]. reflexivity. Qed.

Lemma forget_status_set_results results w1 w2 :
  Workflow.set_status PENDING w1 = Workflow.set_status PENDING w2 ->
  Workflow.set_status PENDING (Workflow.set_results results w1)
  = Workflow.set_status PENDING (Workflow.set_results results w2).
Proof. destruct w1, w2. cbn. intros [= -> -> -> -> -> -> ->]. reflexivity. Qed.

Lemma forget_status_control_effect c w :
  Workflow.set_status PENDING (control_effect c w) = Workflow.set_status PENDING w.
Proof.
  destruct c; cbn; [|reflexivity].
  now destruct (decide (Workflow.status w = RUNNING)).
Qed.

Lemma scheduler_log_control_record c w : scheduler_log (control_record c w) = [].
Proof.
  destruct c; cbn; [|reflexivity].
  now destruct (decide (Workflow.status w = RUNNING)).
Qed.

(** Control calls change the status and add their own log records,
    nothing else. *)
Lemma interfere_forgotten cs : forall wl,
  Workflow.set_status PENDING (interfere cs wl).1 = Workflow.set_status PENDING wl.1
  ∧ scheduler_log (interfere cs wl).2 = scheduler_log wl.2.
Proof.
  induction cs as [|c cs IH]; intros wl; [split; reflexivity|]. cbn.
  unfold interfere in IH. destruct (IH (control_effect c wl.1,
                                        (wl.2 ++ control_record c wl.1)%list)) as [Hw Hl].
  rewrite Hw, Hl. cbn. split.
  - apply forget_status_control_effect.
  - rewrite scheduler_log_app, scheduler_log_control_record. apply app_nil_r.
Qed.

Lemma process_result_agree d st1 st2 :
  agree st1 st2 -> agree (process_result st1 d) (process_result st2 d).
Proof.
  intros Hagree.
  pose proof (agree_steps _ _ Hagree) as Hsteps.
  pose proof (agree_results _ _ Hagree) as Hresults.
  destruct Hagree as (Hw & Hexec & Hlog & Hwave).
  unfold process_result, agree. destruct d.2; cbn.
  - rewrite Hsteps, Hresults, Hexec, Hwave, !scheduler_log_app, Hlog.
    repeat split.
    now apply forget_status_set_results, forget_status_set_steps.
  - rewrite Hsteps, Hexec, Hwave, !scheduler_log_app, Hlog.
    repeat split. now apply forget_status_set_steps.
Qed.

Lemma fold_process_result_agree ds : forall st1 st2,
  agree st1 st2 ->
  agree (fold_left process_result ds st1) (fold_left process_result ds st2).
Proof.
  induction ds as [|d ds IH]; intros st1 st2 Hagree; [assumption|]. cbn.
  now apply IH, process_result_agree.
Qed.

(** The loop does not look at the status of the workflow: from states
    that agree, under any two schedules of control calls, it takes the
    same branch and arrives in states that agree. *)
Lemma iteration_agree world calls1 calls2 st1 st2 :
  agree st1 st2 ->
  match iteration world calls1 st1, iteration world calls2 st2 with
  | Continue st1', Continue st2' => agree st1' st2'
  | Exit st1', Exit st2' => agree st1' st2'
  | _, _ => False
  end.
Proof.
  intros Hagree.
  pose proof (agree_steps _ _ Hagree) as Hsteps.
  pose proof Hagree as (Hw & Hexec & Hlog & Hwave).
  unfold iteration. rewrite <- Hsteps, <- Hexec, <- Hwave.
  destruct (decide (size (executed_steps st1) < length (Workflow.steps (workflow st1))));
    [|exact Hagree].
  destruct (ready_steps _ _) as [|r ready] eqn:Hready.
  - unfold agree. cbn. rewrite !scheduler_log_app, Hlog. repeat split; assumption.
  - set (ds := dispatch world (wave st1) (r :: ready)).
    set (logged := map _ (r :: ready)).
    set (i1 := interfere (calls1 (wave st1)) _).
    set (i2 := interfere (calls2 (wave st1)) _).
    assert (Hsettled :
      agree {| workflow := i1.1; executed_steps := executed_steps st1;
               log := i1.2; wave := wave st1 |}
            {| workflow := i2.1; executed_steps := executed_steps st1;
               log := i2.2; wave := wave st1 |}).
    { unfold agree. cbn [workflow executed_steps log wave]. unfold i1, i2.
      destruct (interfere_forgotten (calls1 (wave st1))
                  (Workflow.set_steps (gathered ds (Workflow.steps (workflow st1)))
                     (workflow st1), (log st1 ++ logged)%list)) as [-> ->].
      destruct (interfere_forgotten (calls2 (wave st1))
                  (Workflow.set_steps (gathered ds (Workflow.steps (workflow st1)))
                     (workflow st2), (log st2 ++ logged)%list)) as [-> ->].
      cbn [fst snd]. rewrite !scheduler_log_app, Hlog. repeat split.
      now apply forget_status_set_steps. }
    apply (fold_process_result_agree ds) in Hsettled.
    destruct Hsettled as (Hw' & Hexec' & Hlog' & _).
    repeat split; assumption.
Qed.

Lemma drive_agree world calls1 calls2 fuel : forall st1 st2,
  agree st1 st2 ->
  match drive world calls1 fuel st1, drive world calls2 fuel st2 with
  | Some st1', Some st2' => agree st1' st2'
  | None, None => True
  | _, _ => False
  end.
Proof.
  induction fuel as [|fuel IH]; intros st1 st2 Hagree; cbn;
    pose proof (iteration_agree world calls1 calls2 _ _ Hagree) as Hiter;
    destruct (iteration world calls1 st1), (iteration world calls2 st2);
    try contradiction; try exact Hiter; try exact I.
  now apply IH.
Qed.

(** After the loop the status is overwritten: states that agree end in
    the same workflow. *)
Lemma conclude_agree st1 st2 :
  agree st1 st2 ->
  workflow (conclude st1) = workflow (conclude st2)
  ∧ scheduler_log (log (conclude st1)) = scheduler_log (log (conclude st2)).
Proof.
  intros Hagree.
  pose proof (agree_steps _ _ Hagree) as Hsteps.
  pose proof (agree_workflow_id _ _ Hagree) as Hid.
  destruct Hagree as (Hw & _ & Hlog & _).
  unfold conclude. rewrite Hsteps.
  assert (Hset : forall v, Workflow.set_status v (workflow st1)
                           = Workflow.set_status v (workflow st2)).
  { intros v. destruct (workflow st1), (workflow st2). cbn in *.
    injection Hw as -> -> -> -> -> -> ->. reflexivity. }
  destruct (failed_steps _); cbn; rewrite Hset, !scheduler_log_app, Hlog, ?Hid; auto.
Qed.

Lemma conclude_status st :
  Workflow.status (workflow (conclude st)) = COMPLETED
  ∨ Workflow.status (workflow (conclude st)) = FAILED.
Proof. unfold conclude. destruct (failed_steps _); cbn; auto. Qed.

(** The loop of [execute_workflow] never reads the status of the
    workflow, so [pause_workflow] and [cancel_workflow] neither pause nor
    cancel a run.  Calls that arrive while waves are in flight change
    nothing but the status and the log: the call returns when the
    undisturbed call does, with the same results, the same workflow
    (steps, results and final status) and the same scheduler log; the
    final status is [COMPLETED] or [FAILED], whatever the controls
    set. *)
Theorem execute_workflow_ignores_pause_and_cancel
    (world : World) (calls : nat -> list Control) (fuel : nat)
    (o : WorkflowOrchestrator) (workflow_id : string) :
  match execute_workflow world calls fuel o workflow_id,
        execute_workflow world undisturbed fuel o workflow_id with
  | Some (returned, o'), Some (returned0, o0) =>
      returned = returned0
      ∧ active_workflows o' = active_workflows o0
      ∧ scheduler_log (logger o') = scheduler_log (logger o0)
      ∧ match status_of o workflow_id, status_of o' workflow_id with
        | None, None => True
        | Some _, Some final => final = COMPLETED ∨ final = FAILED
        | _, _ => False
        end
  | None, None => True
  | _, _ => False
  end.
Proof.
  unfold execute_workflow, status_of.
  destruct (active_workflows o !! workflow_id) as [w|] eqn:Hw.
  - pose proof (drive_agree world calls undisturbed fuel _ _
                  (agree_refl (enter o workflow_id w))) as Hdrive.
    destruct (drive world calls fuel _) as [st1|],
             (drive world undisturbed fuel _) as [st2|];
      try contradiction; [|exact I].
    destruct (conclude_agree _ _ Hdrive) as [Hwf Hlog].
    cbn [active_workflows logger]. rewrite Hwf, Hlog, lookup_insert_eq.
    repeat split. cbn [fmap option_fmap option_map].
    rewrite <- Hwf. apply conclude_status.
  - rewrite Hw. cbn. repeat split.
Qed.

(** C8 fails on the code.  The production workflow with agents that
    answer: the workflow is cancelled (or paused) while the first wave is
    in flight, so the second wave begins with status [CANCELLED]
    ([PAUSED]) and the script step still pending; the wave is dispatched
    all the same, the script step is completed in it, and the call ends
    with the workflow [COMPLETED]. *)
Lemma wave_dispatched_after_cancel_and_pause :
  ((fun st => Workflow.status (workflow st))
     <$> after_waves obliging cancelled_in_first_wave 1 production_start
   = Some CANCELLED
   ∧ WorkflowStep.status
       <$> (after_waves obliging cancelled_in_first_wave 1 production_start
            ≫= step_in "script_writing") = Some PENDING
   ∧ WorkflowStep.status
       <$> (after_waves obliging cancelled_in_first_wave 2 production_start
            ≫= step_in "script_writing") = Some COMPLETED
   ∧ final_status "workflow_s1"
       (execute_workflow obliging cancelled_in_first_wave 5 producing "workflow_s1")
     = Some COMPLETED)
  ∧ ((fun st => Workflow.status (workflow st))
       <$> after_waves obliging paused_in_first_wave 1 production_start
     = Some PAUSED
     ∧ WorkflowStep.status
         <$> (after_waves obliging paused_in_first_wave 1 production_start
              ≫= step_in "script_writing") = Some PENDING
     ∧ WorkflowStep.status
         <$> (after_waves obliging paused_in_first_wave 2 production_start
              ≫= step_in "script_writing") = Some COMPLETED
     ∧ final_status "workflow_s1"
         (execute_workflow obliging paused_in_first_wave 5 producing "workflow_s1")
       = Some COMPLETED).
Proof. repeat split; vm_compute; reflexivity. Qed.

(** *** Steps that fail are dispatched again *)

Lemma never_succeeds_raises world wave key step :
  never_succeeds world key ->
  exists e, (_execute_workflow_step world wave key step).2 = Raise e.
Proof.
  intros Hnever. unfold _execute_workflow_step, settle_step.
  specialize (Hnever wave (WorkflowStep.agent_name step) (WorkflowStep.task step)).
  destruct (send_message world wave key _ _) as [[r|]|e]; cbn; eauto.
  rewrite Hnever. cbn. eauto.
Qed.

Lemma NoDup_map_inj {A B} (f : A -> B) (l : list A) a b :
  NoDup (map f l) -> In a l -> In b l -> f a = f b -> a = b.
Proof.
  induction l as [|x l IH]; intros Hnodup Ha Hb Heq; [easy|].
  inversion Hnodup as [|? ? Hnotin Hnodup']; subst.
  destruct Ha as [->|Ha], Hb as [->|Hb]; auto.
  - exfalso. apply Hnotin. rewrite Heq. apply list_elem_of_In, in_map, Hb.
  - exfalso. apply Hnotin. rewrite <- Heq. apply list_elem_of_In, in_map, Ha.
Qed.

Lemma after_wave_keys world wave executed steps :
  map fst (map (after_wave world wave executed) steps) = map fst steps.
Proof.
  rewrite map_map. apply map_ext. intros ks. unfold after_wave.
  now destruct (is_ready executed ks.2).
Qed.

Lemma after_wave_step_ids world wave executed steps :
  map (fun ks => WorkflowStep.step_id ks.2) (map (after_wave world wave executed) steps)
  = map (fun ks => WorkflowStep.step_id ks.2) steps.
Proof.
  rewrite map_map. apply map_ext. intros ks. unfold after_wave.
  destruct (is_ready executed ks.2); [|reflexivity].
  apply finished_fields.
Qed.

(** The ids a wave adds to [executed_steps] are ids of ready steps whose
    dispatch returned. *)
Lemma completed_ids_inv world wave executed steps id :
  id ∈ completed_ids (dispatch world wave (ready_steps executed steps)) ->
  exists ks result,
    In ks steps ∧ is_ready executed ks.2 = true
    ∧ (_execute_workflow_step world wave ks.1 ks.2).2 = Return result
    ∧ WorkflowStep.step_id ks.2 = id.
Proof.
  unfold completed_ids. rewrite list_elem_of_omap. intros (d & Hd & Hout).
  apply list_elem_of_In in Hd. unfold dispatch, ready_steps in Hd.
  apply in_map_iff in Hd as (ks & <- & Hks). apply filter_In in Hks as [Hin Hready].
  cbn in Hout.
  destruct (_execute_workflow_step world wave ks.1 ks.2).2 as [result|] eqn:E;
    [|discriminate].
  injection Hout as <-. exists ks, result. repeat split; auto.
  symmetry. apply (execute_workflow_step_fields world wave ks.1 ks.2).
Qed.

(** A ready step whose dispatch fails is ready again after the wave. *)
Lemma failed_step_is_ready_again world wave executed steps ks e :
  NoDup (map (fun ks => WorkflowStep.step_id ks.2) steps) ->
  In ks steps ->
  is_ready executed ks.2 = true ->
  (_execute_workflow_step world wave ks.1 ks.2).2 = Raise e ->
  is_ready
    (executed
     ∪ list_to_set (completed_ids (dispatch world wave (ready_steps executed steps))))
    (finished world wave ks.1 ks.2) = true.
Proof.
  intros Hids Hin Hready Hraise.
  destruct (finished_fields world wave ks.1 ks.2) as [Hid Hdeps].
  unfold is_ready. rewrite Hid, Hdeps.
  unfold is_ready in Hready. apply andb_prop in Hready as [Hnotin Hdepsready].
  apply bool_decide_eq_true_1 in Hnotin.
  apply andb_true_intro. split.
  - apply bool_decide_eq_true_2. intros Hmem.
    apply elem_of_union in Hmem as [Hmem|Hmem]; [contradiction|].
    apply elem_of_list_to_set in Hmem.
    apply completed_ids_inv in Hmem as (ks2 & result & Hks & _ & Hout & Hsame).
    assert (ks2 = ks) as ->
      by (eapply (NoDup_map_inj (fun ks => WorkflowStep.step_id ks.2)); eauto).
    congruence.
  - rewrite forallb_forall in Hdepsready. apply forallb_forall.
    intros dep Hdep. specialize (Hdepsready dep Hdep).
    apply bool_decide_eq_true_1 in Hdepsready.
    apply bool_decide_eq_true_2. now apply elem_of_union_l.
Qed.

(** While a step is ready the loop runs another wave. *)
Lemma held_up_runs world calls key st :
  held_up_by key st -> exists st', iteration world calls st = Continue st'.
Proof.
  intros (Hkeys & Hids & Hsub & step & Hin & Hready).
  assert (Hnotin : WorkflowStep.step_id step ∉ executed_steps st).
  { unfold is_ready in Hready. apply andb_prop in Hready as [H _].
    now apply bool_decide_eq_true_1 in H. }
  apply iteration_runs.
  - rewrite <- (length_map (fun ks => WorkflowStep.step_id ks.2)).
    rewrite <- (size_list_to_set (C := gset string)) by assumption.
    apply subset_size. split; [assumption|].
    intros Hsup. apply Hnotin, Hsup, elem_of_list_to_set, list_elem_of_In.
    apply (in_map (fun ks => WorkflowStep.step_id ks.2) _ _ Hin).
  - intros Hnil.
    assert (H : In (key, step)
                  (ready_steps (executed_steps st) (Workflow.steps (workflow st))))
      by (apply filter_In; auto).
    now rewrite Hnil in H.
Qed.

(** A wave keeps the keys and the step ids, and executes only steps of
    the dictionary. *)
Lemma wave_keeps_shape world calls st st' :
  NoDup (map fst (Workflow.steps (workflow st))) ->
  NoDup (map (fun ks => WorkflowStep.step_id ks.2) (Workflow.steps (workflow st))) ->
  executed_steps st
    ⊆ list_to_set (map (fun ks => WorkflowStep.step_id ks.2) (Workflow.steps (workflow st))) ->
  iteration world calls st = Continue st' ->
  NoDup (map fst (Workflow.steps (workflow st')))
  ∧ NoDup (map (fun ks => WorkflowStep.step_id ks.2) (Workflow.steps (workflow st')))
  ∧ executed_steps st'
      ⊆ list_to_set (map (fun ks => WorkflowStep.step_id ks.2)
                       (Workflow.steps (workflow st'))).
Proof.
  intros Hkeys Hids Hsub Hiter.
  destruct (iteration_continue_spec _ _ _ _ Hkeys Hiter) as (Hsteps & Hexec & _).
  rewrite Hsteps, Hexec, after_wave_keys, after_wave_step_ids.
  split; [assumption|]. split; [assumption|].
  apply union_least; [assumption|].
  intros id Hid. apply elem_of_list_to_set in Hid.
  apply completed_ids_inv in Hid as (ks & result & Hks & _ & _ & <-).
  apply elem_of_list_to_set, list_elem_of_In.
  apply (in_map (fun ks => WorkflowStep.step_id ks.2) _ _ Hks).
Qed.

(** A ready step whose dispatch never succeeds is ready again after the
    wave: the loop goes round once more. *)
Lemma held_up_again world calls key st :
  never_succeeds world key ->
  held_up_by key st ->
  exists st', iteration world calls st = Continue st' ∧ held_up_by key st'.
Proof.
  intros Hnever Hheld.
  destruct (held_up_runs world calls key st Hheld) as [st' Hiter].
  destruct Hheld as (Hkeys & Hids & Hsub & step & Hin & Hready).
  exists st'. split; [assumption|].
  destruct (wave_keeps_shape _ _ _ _ Hkeys Hids Hsub Hiter) as (Hkeys' & Hids' & Hsub').
  destruct (iteration_continue_spec _ _ _ _ Hkeys Hiter) as (Hsteps & Hexec & _).
  unfold held_up_by. repeat (split; [assumption|]).
  exists (finished world (wave st) key step). rewrite Hsteps, Hexec. split.
  - apply in_map_iff. exists (key, step). split; [|assumption].
    unfold after_wave. cbn. now rewrite Hready.
  - destruct (never_succeeds_raises world (wave st) key step Hnever) as [e He].
    now apply (failed_step_is_ready_again world (wave st) (executed_steps st)
                 (Workflow.steps (workflow st)) (key, step) e).
Qed.

(** The loop never ends while a ready step keeps failing. *)
Lemma drive_held_up world calls key fuel : forall st,
  never_succeeds world key ->
  held_up_by key st ->
  drive world calls fuel st = None.
Proof.
  induction fuel as [|fuel IH]; intros st Hnever Hheld;
    destruct (held_up_again world calls key st Hnever Hheld) as (st' & Hiter & Hheld');
    cbn; rewrite Hiter; [reflexivity|].
  now apply IH.
Qed.

(** A registered workflow with distinct keys and step ids, one of whose
    steps has no dependencies and an agent that never succeeds:
    [execute_workflow] does not return. *)
Lemma execute_workflow_held_up world calls fuel o workflow_id w key step :
  active_workflows o !! workflow_id = Some w ->
  NoDup (map fst (Workflow.steps w)) ->
  NoDup (map (fun ks => WorkflowStep.step_id ks.2) (Workflow.steps w)) ->
  In (key, step) (Workflow.steps w) ->
  WorkflowStep.dependencies step = [] ->
  never_succeeds world key ->
  execute_workflow world calls fuel o workflow_id = None.
Proof.
  intros Hw Hkeys Hids Hin Hdeps Hnever. unfold execute_workflow. rewrite Hw.
  rewrite (drive_held_up world calls key); [reflexivity|assumption|].
  unfold held_up_by. cbn. repeat split; try assumption; [set_solver|].
  exists step. split; [assumption|]. unfold is_ready. rewrite Hdeps. cbn.
  rewrite andb_true_r. apply bool_decide_eq_true_2. set_solver.
Qed.

Lemma silent_never_succeeds key : never_succeeds silent key.
Proof. intros wave receiver content. reflexivity. Qed.

Lemma production_keys :
  NoDup (map fst (Workflow.steps production_workflow)).
Proof. apply (@bool_decide_unpack _ (NoDup_dec _)). vm_compute. exact I. Qed.

Lemma production_step_ids :
  NoDup (map (fun ks => WorkflowStep.step_id ks.2) (Workflow.steps production_workflow)).
Proof. apply (@bool_decide_unpack _ (NoDup_dec _)). vm_compute. exact I. Qed.

Lemma production_registered :
  active_workflows producing !! "workflow_s1" = Some production_workflow.
Proof. vm_compute. reflexivity. Qed.

(** The production workflow never comes back while its agents are
    silent: the first research step is ready in every wave. *)
Lemma production_never_returns_in_silence fuel :
  execute_workflow silent undisturbed fuel producing "workflow_s1" = None.
Proof.
  apply (execute_workflow_held_up silent undisturbed fuel producing "workflow_s1"
           production_workflow "research_trends"
           (WorkflowStep.new "research_trends" "researcher_trends"
              [("topic", "rocks"); ("research_type", "trends")] [])).
  - apply production_registered.
  - apply production_keys.
  - apply production_step_ids.
  - cbn. auto.
  - reflexivity.
  - apply silent_never_succeeds.
Qed.

(** C1 fails on the code. A step whose dispatch fails is not added to
    [executed_steps], so it is ready, and dispatched, again in the next
    wave. On the production workflow (longest chain: five steps), with
    agents that never answer [execute_workflow] is still running after
    any number of waves; with agents that answer from the second wave on
    it takes six waves. *)
Theorem failing_step_is_dispatched_again_and_again :
  (forall fuel,
     execute_workflow silent undisturbed fuel producing "workflow_s1" = None)
  ∧ wave <$> drive recovering undisturbed 6 production_start = Some 6.
Proof.
  split; [|vm_compute; reflexivity].
  intros fuel. apply production_never_returns_in_silence.
Qed.

(** C3 fails on the code. In the production workflow the script step
    depends on the research steps, and the dispatch of the research
    steps fails in the first wave: they are [FAILED] and the script step
    is pending. They are dispatched again; when that succeeds the script
    step is executed and completed, and the workflow ends [COMPLETED].
    When a research step fails every time, [execute_workflow] never
    returns, so the workflow never ends [FAILED] either. *)
Theorem dependent_runs_once_failed_dependency_succeeds :
  (WorkflowStep.status
     <$> (after_waves recovering undisturbed 1 production_start
          ≫= step_in "research_trends") = Some FAILED
   ∧ WorkflowStep.status
       <$> (after_waves recovering undisturbed 1 production_start
            ≫= step_in "script_writing") = Some PENDING
   ∧ WorkflowStep.status
       <$> final_step "workflow_s1" "research_trends"
             (execute_workflow recovering undisturbed 6 producing "workflow_s1")
     = Some COMPLETED
   ∧ WorkflowStep.status
       <$> final_step "workflow_s1" "script_writing"
             (execute_workflow recovering undisturbed 6 producing "workflow_s1")
     = Some COMPLETED
   ∧ returned_for "script_writing"
       (execute_workflow recovering undisturbed 6 producing "workflow_s1")
     = Some [("output", "script_writing")]
   ∧ final_status "workflow_s1"
       (execute_workflow recovering undisturbed 6 producing "workflow_s1")
     = Some COMPLETED)
  ∧ (forall fuel,
       execute_workflow silent undisturbed fuel producing "workflow_s1" = None).
Proof.
  split; [repeat split; vm_compute; reflexivity|].
  intros fuel. apply production_never_returns_in_silence.
Qed.

(** C2 fails on the code. Two steps that wait for each other: no step is
    ready, the loop logs the pending steps and stops, and since no step
    has status [FAILED] the workflow is marked [COMPLETED], with both
    steps still [PENDING] and no result. *)
Theorem deadlocked_workflow_is_marked_completed :
  fst <$> execute_workflow obliging undisturbed 0 (orchestrating deadlocked) "workflow_s1"
    = Some (Return ∅)
  ∧ final_log
      (execute_workflow obliging undisturbed 0 (orchestrating deadlocked) "workflow_s1")
    = Some [LogStarting "workflow_s1"; LogNoReadySteps ["A"; "B"];
            LogWorkflowCompleted "workflow_s1"]
  ∧ WorkflowStep.status
      <$> final_step "workflow_s1" "A"
            (execute_workflow obliging undisturbed 0 (orchestrating deadlocked)
               "workflow_s1") = Some PENDING
  ∧ WorkflowStep.status
      <$> final_step "workflow_s1" "B"
            (execute_workflow obliging undisturbed 0 (orchestrating deadlocked)
               "workflow_s1") = Some PENDING
  ∧ final_status "workflow_s1"
      (execute_workflow obliging undisturbed 0 (orchestrating deadlocked) "workflow_s1")
    = Some COMPLETED.
Proof. repeat split; vm_compute; reflexivity. Qed.

(** *** Runs in which every dispatch succeeds *)

Lemma graph_keys steps : map (fun n => n.1.1) (graph steps) = map fst steps.
Proof. unfold graph. now rewrite map_map. Qed.

Lemma graph_ids_steps steps :
  graph_ids (graph steps) = map (fun ks => WorkflowStep.step_id ks.2) steps.
Proof. unfold graph_ids, graph. now rewrite map_map. Qed.

(** A wave leaves the dependency graph as it is. *)
Lemma graph_after_wave world wave executed steps :
  graph (map (after_wave world wave executed) steps) = graph steps.
Proof.
  unfold graph. rewrite map_map. apply map_ext. intros ks. unfold after_wave.
  destruct (is_ready executed ks.2); [|reflexivity]. cbn.
  destruct (finished_fields world wave ks.1 ks.2) as [-> ->]. reflexivity.
Qed.

Lemma in_graph steps ks :
  In ks steps ->
  In (ks.1, WorkflowStep.step_id ks.2, WorkflowStep.dependencies ks.2) (graph steps).
Proof.
  intros Hin. unfold graph.
  apply (in_map (fun ks => (ks.1, WorkflowStep.step_id ks.2, WorkflowStep.dependencies ks.2))
           _ _ Hin).
Qed.

Lemma in_graph_ids steps id :
  In id (graph_ids (graph steps)) ->
  exists ks, In ks steps ∧ WorkflowStep.step_id ks.2 = id.
Proof.
  rewrite graph_ids_steps. intros Hin.
  apply in_map_iff in Hin as (ks & Hid & Hin). eauto.
Qed.

Lemma always_succeeds_returns world wave key step :
  always_succeeds world ->
  exists result, (_execute_workflow_step world wave key step).2 = Return result.
Proof.
  intros Hall. unfold _execute_workflow_step, settle_step.
  destruct (Hall wave key (WorkflowStep.agent_name step) (WorkflowStep.task step))
    as (r & -> & Hsuccess).
  rewrite Hsuccess. cbn. eauto.
Qed.

Lemma forallb_false {A} (f : A -> bool) (l : list A) :
  forallb f l = false -> exists x, In x l ∧ f x = false.
Proof.
  induction l as [|x l IH]; cbn; [discriminate|].
  destruct (f x) eqn:Hx; cbn.
  - intros H. destruct (IH H) as (y & Hy & Hfy). eauto.
  - eauto.
Qed.

(** In a layered graph, as long as a step is not executed some step is
    ready: follow unexecuted dependencies down the levels. *)
Lemma unexecuted_step_gives_ready_step level height steps executed :
  layered level height (graph steps) ->
  forall l ks,
    In ks steps ->
    level (WorkflowStep.step_id ks.2) = l ->
    WorkflowStep.step_id ks.2 ∉ executed ->
    exists ks', In ks' steps ∧ is_ready executed ks'.2 = true.
Proof.
  intros (_ & _ & Hlevels) l.
  induction l as [l IH] using lt_wf_ind. intros ks Hin Hl Hnot.
  destruct (forallb (fun dep => bool_decide (dep ∈ executed))
              (WorkflowStep.dependencies ks.2)) eqn:Hdeps.
  - exists ks. split; [assumption|]. unfold is_ready. rewrite Hdeps.
    now rewrite bool_decide_eq_true_2.
  - apply forallb_false in Hdeps as (dep & Hdep & Hout).
    apply bool_decide_eq_false_1 in Hout.
    destruct (Hlevels _ (in_graph _ _ Hin)) as [_ Hbelow]. cbn in Hbelow.
    destruct (Hbelow dep Hdep) as [Hid Hlt].
    apply in_graph_ids in Hid as (ks_dep & Hin_dep & Heq).
    apply (IH (level dep)) with (ks := ks_dep); subst; auto.
Qed.

(** When the loop is left on schedule, every step has been executed. *)
Lemma exit_on_schedule world calls level height n st st' :
  layered level height (graph (Workflow.steps (workflow st))) ->
  on_schedule level n st ->
  iteration world calls st = Exit st' ->
  forall ks, In ks (Workflow.steps (workflow st)) ->
    WorkflowStep.step_id ks.2 ∈ executed_steps st.
Proof.
  intros Hlayered (Hsub & _ & _) Hexit ks Hin.
  pose proof Hlayered as (_ & Hids & _).
  unfold iteration in Hexit.
  destruct (decide (size (executed_steps st) < length (Workflow.steps (workflow st))))
    as [Hlt|Hge].
  - destruct (ready_steps _ _) as [|r ready] eqn:Hready; [|discriminate].
    destruct (decide (WorkflowStep.step_id ks.2 ∈ executed_steps st)) as [|Hnot];
      [assumption|].
    destruct (unexecuted_step_gives_ready_step _ _ _ _ Hlayered _ ks Hin eq_refl Hnot)
      as (ks' & Hin' & Hready').
    assert (H : In ks' (ready_steps (executed_steps st) (Workflow.steps (workflow st))))
      by (apply filter_In; auto).
    now rewrite Hready in H.
  - assert (Heq : executed_steps st
                  = list_to_set (graph_ids (graph (Workflow.steps (workflow st))))).
    { apply set_subseteq_size_eq; [assumption|].
      rewrite size_list_to_set by assumption.
      rewrite graph_ids_steps, length_map. lia. }
    rewrite Heq. apply elem_of_list_to_set, list_elem_of_In.
    rewrite graph_ids_steps.
    apply (in_map (fun ks => WorkflowStep.step_id ks.2) _ _ Hin).
Qed.

(** When every step has been executed, the loop is left. *)
Lemma all_executed_exits world calls level height st :
  layered level height (graph (Workflow.steps (workflow st))) ->
  (forall ks, In ks (Workflow.steps (workflow st)) ->
     WorkflowStep.step_id ks.2 ∈ executed_steps st) ->
  iteration world calls st = Exit st.
Proof.
  intros (_ & Hids & _) Hall. unfold iteration.
  destruct (decide (size (executed_steps st) < length (Workflow.steps (workflow st))))
    as [Hlt|Hge]; [|reflexivity].
  exfalso.
  assert (Hsub : list_to_set (graph_ids (graph (Workflow.steps (workflow st))))
                 ⊆ executed_steps st).
  { intros id Hid. apply elem_of_list_to_set, list_elem_of_In in Hid.
    apply in_graph_ids in Hid as (ks & Hin & <-). now apply Hall. }
  apply subseteq_size in Hsub.
  rewrite size_list_to_set in Hsub by assumption.
  rewrite graph_ids_steps, length_map in Hsub. lia.
Qed.

(** One wave further on schedule. *)
Lemma wave_on_schedule world calls level height n st st' :
  always_succeeds world ->
  layered level height (graph (Workflow.steps (workflow st))) ->
  on_schedule level n st ->
  iteration world calls st = Continue st' ->
  graph (Workflow.steps (workflow st')) = graph (Workflow.steps (workflow st))
  ∧ on_schedule level (S n) st'
  ∧ wave st' = S (wave st).
Proof.
  intros Hsucceeds Hlayered (Hsub & Hbelow & Hdone) Hiter.
  pose proof Hlayered as (Hkeys & Hids & Hlevels).
  rewrite graph_keys in Hkeys.
  destruct (iteration_continue_spec _ _ _ _ Hkeys Hiter) as (Hsteps & Hexec & Hwave).
  assert (Hgraph : graph (Workflow.steps (workflow st'))
                   = graph (Workflow.steps (workflow st)))
    by (rewrite Hsteps; apply graph_after_wave).
  split; [assumption|]. split; [|assumption].
  unfold on_schedule. rewrite Hgraph, Hexec. rewrite Hsteps. repeat split.
  - apply union_least; [assumption|].
    intros id Hid. apply elem_of_list_to_set in Hid.
    apply completed_ids_inv in Hid as (ks & result & Hks & _ & _ & <-).
    apply elem_of_list_to_set, list_elem_of_In. rewrite graph_ids_steps.
    apply (in_map (fun ks => WorkflowStep.step_id ks.2) _ _ Hks).
  - intros ks' Hin' Hlevel.
    apply in_map_iff in Hin' as (ks & <- & Hin).
    assert (Hid : WorkflowStep.step_id (after_wave world (wave st) (executed_steps st) ks).2
                  = WorkflowStep.step_id ks.2).
    { unfold after_wave. destruct (is_ready _ _); [|reflexivity].
      apply finished_fields. }
    rewrite Hid in *.
    destruct (decide (WorkflowStep.step_id ks.2 ∈ executed_steps st)) as [Hin_e|Hnot];
      [now apply elem_of_union_l|].
    apply elem_of_union_r, elem_of_list_to_set.
    destruct (always_succeeds_returns world (wave st) ks.1 ks.2 Hsucceeds)
      as [result Hresult].
    eapply completed_ids_elem; eauto.
    unfold is_ready. rewrite bool_decide_eq_true_2 by assumption. cbn.
    apply forallb_forall. intros dep Hdep. apply bool_decide_eq_true_2.
    destruct (Hlevels _ (in_graph _ _ Hin)) as [_ Hdeps]. cbn in Hdeps.
    destruct (Hdeps dep Hdep) as [Hdep_id Hdep_level].
    apply in_graph_ids in Hdep_id as (ks_dep & Hin_dep & <-).
    apply Hbelow; [assumption|lia].
  - intros ks' Hin' Hexecuted.
    apply in_map_iff in Hin' as (ks & <- & Hin).
    unfold after_wave in *.
    destruct (is_ready (executed_steps st) ks.2) eqn:Hready; cbn in *.
    + destruct (always_succeeds_returns world (wave st) ks.1 ks.2 Hsucceeds)
        as [result Hresult].
      unfold finished, mark. now rewrite Hresult.
    + apply elem_of_union in Hexecuted as [Hold|Hnew]; [now apply Hdone|].
      apply elem_of_list_to_set in Hnew.
      apply completed_ids_inv in Hnew as (ks2 & result & Hin2 & Hready2 & _ & Hsame).
      rewrite graph_ids_steps in Hids.
      assert (ks2 = ks) as ->
        by (eapply (NoDup_map_inj (fun ks => WorkflowStep.step_id ks.2)); eauto).
      congruence.
Qed.

(** With every dispatch succeeding, a loop that is on schedule after [n]
    waves is left within the remaining [height - n] waves, every step
    completed. *)
Lemma drive_on_schedule world calls level height : forall k n fuel st,
  always_succeeds world ->
  layered level height (graph (Workflow.steps (workflow st))) ->
  on_schedule level n st ->
  n + k = height ->
  k <= fuel ->
  exists st',
    drive world calls fuel st = Some st'
    ∧ wave st' <= wave st + k
    ∧ Forall (fun ks => WorkflowStep.status ks.2 = COMPLETED)
        (Workflow.steps (workflow st')).
Proof.
  induction k as [|k IH]; intros n fuel st Hsucceeds Hlayered Hschedule Hn Hfuel.
  - assert (Hall : forall ks, In ks (Workflow.steps (workflow st)) ->
                     WorkflowStep.step_id ks.2 ∈ executed_steps st).
    { intros ks Hin. destruct Hschedule as (_ & Hbelow & _).
      apply Hbelow; [assumption|].
      destruct Hlayered as (_ & _ & Hlevels).
      destruct (Hlevels _ (in_graph _ _ Hin)) as [Hlt _]. cbn in Hlt. lia. }
    exists st. split; [|split; [lia|]].
    + destruct fuel; cbn; now rewrite (all_executed_exits world calls level height st).
    + apply List.Forall_forall. intros ks Hin.
      destruct Hschedule as (_ & _ & Hdone). apply Hdone; auto.
  - destruct (iteration world calls st) as [st1|st1] eqn:Hiter.
    + destruct (wave_on_schedule _ _ _ _ _ _ _ Hsucceeds Hlayered Hschedule Hiter)
        as (Hgraph & Hschedule1 & Hwave1).
      destruct fuel as [|fuel]; [lia|].
      destruct (IH (S n) fuel st1) as (st' & Hdrive & Hwaves & Hcompleted);
        try assumption; try lia.
      { now rewrite Hgraph. }
      exists st'. split; [|split; [lia|assumption]].
      cbn. now rewrite Hiter.
    + exists st1. destruct (iteration_exit_spec _ _ _ _ Hiter) as (Hw & _ & Hwave1).
      split; [|split; [lia|]].
      * destruct fuel; cbn; now rewrite Hiter.
      * rewrite Hw. apply List.Forall_forall. intros ks Hin.
        pose proof Hschedule as (_ & _ & Hdone). apply Hdone; [assumption|].
        eapply exit_on_schedule; eauto.
Qed.

Lemma completed_steps_have_not_failed steps :
  Forall (fun ks => WorkflowStep.status ks.2 = COMPLETED) steps ->
  failed_steps steps = [].
Proof.
  intros Hall. unfold failed_steps.
  induction Hall as [|ks steps Hks _ IH]; [reflexivity|]. cbn.
  rewrite bool_decide_eq_false_2 by congruence. exact IH.
Qed.

Lemma obliging_always_succeeds : always_succeeds obliging.
Proof. intros wave key receiver content. eexists. split; reflexivity. Qed.

(** *** The status a run ends with *)

Lemma reaches_prepend world calls st0 st1 st :
  iteration world calls st0 = Continue st1 ->
  reaches world calls st1 st ->
  reaches world calls st0 st.
Proof.
  intros Hiter Hreach. induction Hreach as [st1|st1 st st' Hreach IH Hstep].
  - eapply reaches_wave; [apply reaches_here|assumption].
  - eapply reaches_wave; [apply IH; assumption|assumption].
Qed.

(** A call of the loop that comes back has gone through some waves and
    then left the loop. *)
Lemma drive_reaches world calls fuel : forall st0 st',
  drive world calls fuel st0 = Some st' ->
  exists st, reaches world calls st0 st ∧ iteration world calls st = Exit st'.
Proof.
  induction fuel as [|fuel IH]; intros st0 st'; cbn;
    destruct (iteration world calls st0) as [st1|st1] eqn:Hiter;
    try discriminate.
  - intros [= <-]. exists st0. split; [apply reaches_here|assumption].
  - intros Hdrive. destruct (IH _ _ Hdrive) as (st & Hreach & Hexit).
    exists st. split; [|assumption]. eapply reaches_prepend; eauto.
  - intros [= <-]. exists st0. split; [apply reaches_here|assumption].
Qed.

(** Throughout the loop, a step with status [FAILED] is ready. *)
Lemma reaches_failed_are_ready world calls st0 st :
  reaches world calls st0 st ->
  NoDup (map fst (Workflow.steps (workflow st0))) ->
  NoDup (map (fun ks => WorkflowStep.step_id ks.2) (Workflow.steps (workflow st0))) ->
  executed_steps st0
    ⊆ list_to_set (map (fun ks => WorkflowStep.step_id ks.2)
                     (Workflow.steps (workflow st0))) ->
  failed_are_ready st0 ->
  NoDup (map fst (Workflow.steps (workflow st)))
  ∧ NoDup (map (fun ks => WorkflowStep.step_id ks.2) (Workflow.steps (workflow st)))
  ∧ executed_steps st
      ⊆ list_to_set (map (fun ks => WorkflowStep.step_id ks.2)
                       (Workflow.steps (workflow st)))
  ∧ failed_are_ready st.
Proof.
  intros Hreach Hkeys0 Hids0 Hsub0 Hfailed0.
  induction Hreach as [st0|st0 st st' Hreach IH Hiter]; [auto|].
  destruct (IH Hkeys0 Hids0 Hsub0 Hfailed0) as (Hkeys & Hids & Hsub & Hfailed).
  destruct (wave_keeps_shape _ _ _ _ Hkeys Hids Hsub Hiter) as (Hkeys' & Hids' & Hsub').
  repeat (split; [assumption|]).
  destruct (iteration_continue_spec _ _ _ _ Hkeys Hiter) as (Hsteps & Hexec & _).
  unfold failed_are_ready. rewrite Hsteps, Hexec.
  intros ks' Hin' Hstatus.
  apply in_map_iff in Hin' as (ks & <- & Hin).
  unfold after_wave in *.
  destruct (is_ready (executed_steps st) ks.2) eqn:Hready; cbn in *.
  - destruct (_execute_workflow_step world (wave st) ks.1 ks.2).2 as [result|e] eqn:Hout.
    + unfold finished, mark in Hstatus. rewrite Hout in Hstatus. discriminate.
    + now apply (failed_step_is_ready_again world (wave st) (executed_steps st)
                   (Workflow.steps (workflow st)) ks e).
  - specialize (Hfailed ks Hin Hstatus). congruence.
Qed.



(** When every dispatch succeeds and the steps form a valid acyclic graph
    whose chains have at most [height] steps, [execute_workflow] returns
    after at most [height] waves, whatever pause or cancel calls arrive,
    with every step and the workflow [COMPLETED]. *)
Theorem every_step_completes_within_the_height
    (world : World) (calls : nat -> list Control) (level : string -> nat)
    (height fuel : nat) (o : WorkflowOrchestrator) (workflow_id : string)
    (w : Workflow.t) :
  active_workflows o !! workflow_id = Some w ->
  always_succeeds world ->
  layered level height (graph (Workflow.steps w)) ->
  height <= fuel ->
  exists st returned o' w',
    drive world calls fuel (enter o workflow_id w) = Some st
    ∧ wave st <= height
    ∧ execute_workflow world calls fuel o workflow_id = Some (Return returned, o')
    ∧ active_workflows o' !! workflow_id = Some w'
    ∧ Workflow.status w' = COMPLETED
    ∧ Forall (fun ks => WorkflowStep.status ks.2 = COMPLETED) (Workflow.steps w').
Proof.
  intros Hw Hsucceeds Hlayered Hfuel.
  destruct (drive_on_schedule world calls level height height 0 fuel
              (enter o workflow_id w)) as (st & Hdrive & Hwaves & Hcompleted);
    try assumption; try reflexivity.
  { unfold on_schedule. cbn. repeat split.
    - set_solver.
    - intros ks _ Hlt. inversion Hlt.
    - intros ks _ Hin. set_solver. }
  pose proof (completed_steps_have_not_failed _ Hcompleted) as Hnone.
  exists st. eexists. eexists. exists (workflow (conclude st)).
  split; [assumption|]. split; [exact Hwaves|].
  split; [unfold execute_workflow; rewrite Hw, Hdrive; reflexivity|].
  cbn [active_workflows]. split; [apply lookup_insert_eq|].
  unfold conclude. rewrite Hnone. cbn. split; [reflexivity|assumption].
Qed.

(** The production workflow has five levels (research, script, production,
    validation, assembly): with agents that answer it is done after at
    most five waves. *)
Lemma every_step_completes_within_the_height_witness :
  active_workflows producing !! "workflow_s1" = Some production_workflow
  ∧ always_succeeds obliging
  ∧ layered production_level 5 (graph (Workflow.steps production_workflow))
  ∧ 5 <= 5
  ∧ exists st returned o' w',
      drive obliging cancelled_in_first_wave 5
        (enter producing "workflow_s1" production_workflow) = Some st
      ∧ wave st <= 5
      ∧ execute_workflow obliging cancelled_in_first_wave 5 producing "workflow_s1"
        = Some (Return returned, o')
      ∧ active_workflows o' !! "workflow_s1" = Some w'
      ∧ Workflow.status w' = COMPLETED
      ∧ Forall (fun ks => WorkflowStep.status ks.2 = COMPLETED) (Workflow.steps w').
Proof.
  assert (H3 : layered production_level 5 (graph (Workflow.steps production_workflow))).
  { split; [|split].
    - rewrite graph_keys. apply production_keys.
    - rewrite graph_ids_steps. apply production_step_ids.
    - intros n Hin. cbn in Hin.
      repeat (destruct Hin as [<-|Hin]); try contradiction;
        (split; [vm_compute; lia|]);
        intros dep Hdep; cbn in Hdep;
        repeat (destruct Hdep as [<-|Hdep]); try contradiction;
        (split; [cbn; tauto|vm_compute; lia]). }
  assert (H4 : 5 <= 5) by lia.
  split; [exact production_registered|]. split; [exact obliging_always_succeeds|].
  split; [exact H3|]. split; [exact H4|].
  exact (every_step_completes_within_the_height obliging cancelled_in_first_wave
           production_level 5 5 producing "workflow_s1" production_workflow
           production_registered obliging_always_succeeds H3 H4).
Defined.

(** *** Unknown workflows and invalid transitions *)

(** C10. For a workflow id that is not registered, [execute_workflow]
    raises (it does not return a failed result), pause, resume and cancel
    return [False], the status query returns an error value, and the
    orchestrator is left as it was by each of them. *)
Theorem unknown_workflow_is_rejected_without_effect
    (world : World) (calls : nat -> list Control) (fuel : nat)
    (o : WorkflowOrchestrator) (workflow_id : string) :
  active_workflows o !! workflow_id = None ->
  execute_workflow world calls fuel o workflow_id
    = Some (Raise ("Workflow not found: " ++ workflow_id), o)
  ∧ pause_workflow o workflow_id = (false, o)
  ∧ resume_workflow o workflow_id = (false, o, None)
  ∧ cancel_workflow o workflow_id = (false, o)
  ∧ get_workflow_status o workflow_id = StatusError "Workflow not found".
Proof.
  intros Hunknown.
  unfold execute_workflow, pause_workflow, resume_workflow, cancel_workflow,
    get_workflow_status.
  rewrite Hunknown. repeat split.
Qed.

Lemma unknown_workflow_is_rejected_without_effect_witness :
  active_workflows producing !! "workflow_s2" = None
  ∧ execute_workflow obliging undisturbed 0 producing "workflow_s2"
    = Some (Raise "Workflow not found: workflow_s2", producing)
  ∧ pause_workflow producing "workflow_s2" = (false, producing)
  ∧ resume_workflow producing "workflow_s2" = (false, producing, None)
  ∧ cancel_workflow producing "workflow_s2" = (false, producing)
  ∧ get_workflow_status producing "workflow_s2" = StatusError "Workflow not found".
Proof.
  assert (H : active_workflows producing !! "workflow_s2" = None)
    by (vm_compute; reflexivity).
  split; [exact H|].
  exact (unknown_workflow_is_rejected_without_effect obliging undisturbed 0
           producing "workflow_s2" H).
Defined.

(** [pause_workflow] refuses every status but [RUNNING]. *)
Lemma pause_workflow_invalid o workflow_id w :
  active_workflows o !! workflow_id = Some w ->
  Workflow.status w ≠ RUNNING ->
  pause_workflow o workflow_id = (false, o).
Proof.
  intros Hw Hstatus. unfold pause_workflow. rewrite Hw.
  now destruct (decide (Workflow.status w = RUNNING)).
Qed.

(** [resume_workflow] refuses every status but [PAUSED]. *)
Lemma resume_workflow_invalid o workflow_id w :
  active_workflows o !! workflow_id = Some w ->
  Workflow.status w ≠ PAUSED ->
  resume_workflow o workflow_id = (false, o, None).
Proof.
  intros Hw Hstatus. unfold resume_workflow. rewrite Hw.
  now destruct (decide (Workflow.status w = PAUSED)).
Qed.

(** Pause and resume check the transition: on a registered workflow,
    pause returns [False] and changes nothing unless the status is
    [RUNNING], and resume returns [False], changes nothing and starts no
    task unless the status is [PAUSED]. *)
Theorem pause_and_resume_refuse_invalid_transitions
    (o : WorkflowOrchestrator) (workflow_id : string) (w : Workflow.t) :
  active_workflows o !! workflow_id = Some w ->
  (Workflow.status w ≠ RUNNING -> pause_workflow o workflow_id = (false, o))
  ∧ (Workflow.status w ≠ PAUSED -> resume_workflow o workflow_id = (false, o, None)).
Proof.
  intros Hw. split; intros Hstatus.
  - now apply (pause_workflow_invalid o workflow_id w).
  - now apply (resume_workflow_invalid o workflow_id w).
Qed.

Lemma pause_and_resume_refuse_invalid_transitions_witness :
  active_workflows producing !! "workflow_s1" = Some production_workflow
  ∧ (Workflow.status production_workflow ≠ RUNNING ->
     pause_workflow producing "workflow_s1" = (false, producing))
  ∧ (Workflow.status production_workflow ≠ PAUSED ->
     resume_workflow producing "workflow_s1" = (false, producing, None)).
Proof.
  split; [exact production_registered|].
  exact (pause_and_resume_refuse_invalid_transitions producing "workflow_s1"
           production_workflow production_registered).
Defined.

(** [cancel_workflow] looks at no status: any registered workflow becomes
    [CANCELLED]. *)
Lemma cancel_workflow_registered o workflow_id w :
  active_workflows o !! workflow_id = Some w ->
  cancel_workflow o workflow_id
  = (true,
     {| active_workflows :=
          <[workflow_id := Workflow.set_status CANCELLED w]> (active_workflows o);
        logger := logger o ++ [LogCancelled workflow_id] |}).
Proof. intros Hw. unfold cancel_workflow. now rewrite Hw. Qed.

(** What a control call does to the registered workflow object is what
    [control_effect] says. *)
Lemma pause_workflow_effect o workflow_id w :
  active_workflows o !! workflow_id = Some w ->
  active_workflows (pause_workflow o workflow_id).2 !! workflow_id
  = Some (control_effect CallPause w).
Proof.
  intros Hw. unfold pause_workflow, control_effect. rewrite Hw.
  destruct (decide (Workflow.status w = RUNNING)); cbn; [|assumption].
  apply lookup_insert_eq.
Qed.

Lemma cancel_workflow_effect o workflow_id w :
  active_workflows o !! workflow_id = Some w ->
  active_workflows (cancel_workflow o workflow_id).2 !! workflow_id
  = Some (control_effect CallCancel w).
Proof.
  intros Hw. rewrite (cancel_workflow_registered _ _ _ Hw). cbn.
  apply lookup_insert_eq.
Qed.

(** C7 fails on the code for cancel. The production workflow has run to
    [COMPLETED] and is cancelled: the call returns [True] and the status
    is now [CANCELLED]. (Pause and resume return [False] there, as on
    every status that is not theirs.) *)
Theorem cancel_relabels_a_completed_workflow :
  final_status "workflow_s1"
    (execute_workflow obliging undisturbed 5 producing "workflow_s1")
  = Some COMPLETED
  ∧ (fun ro => (pause_workflow ro.2 "workflow_s1").1)
      <$> execute_workflow obliging undisturbed 5 producing "workflow_s1"
    = Some false
  ∧ (fun ro => (resume_workflow ro.2 "workflow_s1").1.1)
      <$> execute_workflow obliging undisturbed 5 producing "workflow_s1"
    = Some false
  ∧ (fun ro => (cancel_workflow ro.2 "workflow_s1").1)
      <$> execute_workflow obliging undisturbed 5 producing "workflow_s1"
    = Some true
  ∧ (execute_workflow obliging undisturbed 5 producing "workflow_s1"
     ≫= fun ro => status_of (cancel_workflow ro.2 "workflow_s1").2 "workflow_s1")
    = Some CANCELLED.
Proof. repeat split; vm_compute; reflexivity. Qed.

(** *** The results dictionary *)

Lemma control_effect_results c w :
  Workflow.results (control_effect c w) = Workflow.results w.
Proof.
  destruct c; cbn; [|reflexivity].
  now destruct (decide (Workflow.status w = RUNNING)).
Qed.

Lemma interfere_results cs : forall wl,
  Workflow.results (interfere cs wl).1 = Workflow.results wl.1.
Proof.
  induction cs as [|c cs IH]; intros wl; [reflexivity|]. cbn.
  unfold interfere in IH. rewrite IH. cbn. apply control_effect_results.
Qed.

Lemma fold_process_result_results ds : forall st,
  Workflow.results (workflow (fold_left process_result ds st))
  = fold_left record_result ds (Workflow.results (workflow st)).
Proof.
  induction ds as [|d ds IH]; intros st; [reflexivity|]. cbn.
  rewrite IH. f_equal. unfold process_result, record_result. now destruct d.2.
Qed.

(** The results after a wave. *)
Lemma iteration_continue_results world calls st st' :
  iteration world calls st = Continue st' ->
  Workflow.results (workflow st')
  = fold_left record_result
      (dispatch world (wave st)
         (ready_steps (executed_steps st) (Workflow.steps (workflow st))))
      (Workflow.results (workflow st)).
Proof.
  unfold iteration.
  destruct (decide (size (executed_steps st) < length (Workflow.steps (workflow st))));
    [|discriminate].
  destruct (ready_steps _ _) as [|r ready] eqn:Hready; [discriminate|].
  rewrite <- Hready. intros [= <-]. cbn [workflow].
  rewrite fold_process_result_results. cbn [workflow].
  now rewrite interfere_results.
Qed.

Lemma dispatched_step_id world wave ks :
  WorkflowStep.step_id (_execute_workflow_step world wave ks.1 ks.2).1
  = WorkflowStep.step_id ks.2.
Proof. apply (execute_workflow_step_fields world wave ks.1 ks.2). Qed.

(** A wave leaves the entry of [id] alone if none of its steps has that id. *)
Lemma record_results_other world wave id ready : forall results,
  (forall ks, In ks ready -> WorkflowStep.step_id ks.2 ≠ id) ->
  fold_left record_result (dispatch world wave ready) results !! id = results !! id.
Proof.
  induction ready as [|ks ready IH]; intros results Hother; [reflexivity|].
  change (dispatch world wave (ks :: ready))
    with ((ks.1, (_execute_workflow_step world wave ks.1 ks.2).1,
           (_execute_workflow_step world wave ks.1 ks.2).2)
          :: dispatch world wave ready).
  cbn [fold_left]. rewrite IH by (intros ks' Hin; apply Hother; now right).
  unfold record_result. cbn.
  destruct (_execute_workflow_step world wave ks.1 ks.2).2; [|reflexivity].
  rewrite lookup_insert_ne; [reflexivity|].
  rewrite dispatched_step_id. apply Hother. now left.
Qed.

(** The entry of a dispatched step after the wave. *)
Lemma record_results_step world wave ready : forall results ks,
  NoDup (map (fun ks => WorkflowStep.step_id ks.2) ready) ->
  In ks ready ->
  fold_left record_result (dispatch world wave ready) results
    !! WorkflowStep.step_id ks.2
  = match (_execute_workflow_step world wave ks.1 ks.2).2 with
    | Return result => Some result
    | Raise _ => results !! WorkflowStep.step_id ks.2
    end.
Proof.
  induction ready as [|ks0 ready IH]; intros results ks Hids Hin; [easy|].
  inversion Hids as [|? ? Hnotin Hids']; subst.
  change (dispatch world wave (ks0 :: ready))
    with ((ks0.1, (_execute_workflow_step world wave ks0.1 ks0.2).1,
           (_execute_workflow_step world wave ks0.1 ks0.2).2)
          :: dispatch world wave ready).
  cbn [fold_left].
  destruct Hin as [->|Hin].
  - rewrite record_results_other.
    + unfold record_result. cbn.
      destruct (_execute_workflow_step world wave ks.1 ks.2).2; [|reflexivity].
      rewrite dispatched_step_id. apply lookup_insert_eq.
    + intros ks' Hin' Heq. apply Hnotin. rewrite <- Heq.
      apply list_elem_of_In.
      apply (in_map (fun ks => WorkflowStep.step_id ks.2) _ _ Hin').
  - rewrite IH by assumption.
    destruct (_execute_workflow_step world wave ks.1 ks.2).2; [reflexivity|].
    unfold record_result. cbn.
    destruct (_execute_workflow_step world wave ks0.1 ks0.2).2; [|reflexivity].
    rewrite lookup_insert_ne; [reflexivity|].
    rewrite dispatched_step_id. intros Heq. apply Hnotin. rewrite Heq.
    apply list_elem_of_In.
    apply (in_map (fun ks => WorkflowStep.step_id ks.2) _ _ Hin).
Qed.

Lemma NoDup_ids_filter (p : string * WorkflowStep.t -> bool) steps :
  NoDup (map (fun ks => WorkflowStep.step_id ks.2) steps) ->
  NoDup (map (fun ks => WorkflowStep.step_id ks.2) (List.filter p steps)).
Proof.
  induction steps as [|x steps IH]; intros Hnodup; [assumption|].
  inversion Hnodup as [|? ? Hnotin Hnodup']; subst. cbn.
  destruct (p x); cbn; [|now apply IH].
  constructor; [|now apply IH].
  intros Hin. apply Hnotin.
  apply list_elem_of_In, in_map_iff in Hin as [y [Hy Hin]].
  apply filter_In in Hin as [Hin _].
  rewrite <- Hy. apply list_elem_of_In.
  apply (in_map (fun ks => WorkflowStep.step_id ks.2) _ _ Hin).
Qed.

(** A wave keeps results and steps in step. *)
Lemma wave_recorded world calls st st' :
  NoDup (map fst (Workflow.steps (workflow st))) ->
  NoDup (map (fun ks => WorkflowStep.step_id ks.2) (Workflow.steps (workflow st))) ->
  recorded st ->
  iteration world calls st = Continue st' ->
  recorded st'.
Proof.
  intros Hkeys Hids (Hsteps & Hdom) Hiter.
  destruct (iteration_continue_spec _ _ _ _ Hkeys Hiter) as (Hsteps' & Hexec' & _).
  pose proof (iteration_continue_results _ _ _ _ Hiter) as Hresults'.
  unfold recorded. rewrite Hsteps', Hexec', Hresults'.
  set (ready := ready_steps (executed_steps st) (Workflow.steps (workflow st))).
  assert (Hready_ids : NoDup (map (fun ks => WorkflowStep.step_id ks.2) ready))
    by (apply NoDup_ids_filter; assumption).
  split.
  - intros ks' Hin'. apply in_map_iff in Hin' as (ks & <- & Hin).
    unfold after_wave.
    destruct (is_ready (executed_steps st) ks.2) eqn:Hready; cbn [snd].
    + destruct (finished_fields world (wave st) ks.1 ks.2) as [-> _].
      rewrite record_results_step; [|assumption|apply filter_In; auto].
      unfold finished, mark.
      destruct (_execute_workflow_step world (wave st) ks.1 ks.2).2 as [result|e] eqn:Hout;
        [reflexivity|].
      cbn. rewrite (Hsteps ks Hin).
      symmetry. apply (execute_workflow_step_fields world (wave st) ks.1 ks.2).
    + rewrite record_results_other; [now apply Hsteps|].
      intros ks2 Hin2 Heq. apply filter_In in Hin2 as [Hin2 Hready2].
      assert (ks2 = ks) as ->
        by exact (NoDup_map_inj (fun ks => WorkflowStep.step_id ks.2) _ ks2 ks
                    Hids Hin2 Hin Heq).
      congruence.
  - intros id Hsome.
    destruct (List.find (fun ks => bool_decide (WorkflowStep.step_id ks.2 = id)) ready)
      as [ks|] eqn:Hfind.
    + apply find_some in Hfind as [Hin Hid]. apply bool_decide_eq_true_1 in Hid.
      subst id. rewrite record_results_step in Hsome by assumption.
      pose proof Hin as Hin'. apply filter_In in Hin' as [Hin' Hready].
      destruct (_execute_workflow_step world (wave st) ks.1 ks.2).2 as [result|e] eqn:Hout.
      * apply elem_of_union_r, elem_of_list_to_set.
        eapply completed_ids_elem; eauto.
      * apply elem_of_union_l. now apply Hdom.
    + rewrite record_results_other in Hsome.
      * apply elem_of_union_l. now apply Hdom.
      * intros ks Hin Heq.
        apply (find_none _ _ Hfind) in Hin.
        apply bool_decide_eq_false_1 in Hin. contradiction.
Qed.


Lemma reaches_recorded world calls st0 st :
  reaches world calls st0 st ->
  NoDup (map fst (Workflow.steps (workflow st0))) ->
  NoDup (map (fun ks => WorkflowStep.step_id ks.2) (Workflow.steps (workflow st0))) ->
  executed_steps st0
    ⊆ list_to_set (map (fun ks => WorkflowStep.step_id ks.2)
                     (Workflow.steps (workflow st0))) ->
  recorded st0 ->
  NoDup (map fst (Workflow.steps (workflow st)))
  ∧ NoDup (map (fun ks => WorkflowStep.step_id ks.2) (Workflow.steps (workflow st)))
  ∧ executed_steps st
      ⊆ list_to_set (map (fun ks => WorkflowStep.step_id ks.2)
                       (Workflow.steps (workflow st)))
  ∧ recorded st.
Proof.
  intros Hreach Hkeys0 Hids0 Hsub0 Hrecorded0.
  induction Hreach as [st0|st0 st st' Hreach IH Hiter]; [auto|].
  destruct (IH Hkeys0 Hids0 Hsub0 Hrecorded0) as (Hkeys & Hids & Hsub & Hrecorded).
  destruct (wave_keeps_shape _ _ _ _ Hkeys Hids Hsub Hiter) as (Hkeys' & Hids' & Hsub').
  repeat (split; [assumption|]).
  now apply (wave_recorded world calls st st').
Qed.

(** The loop is not left while a step has status [FAILED]. *)
Lemma exit_without_failed_step world calls st st' :
  NoDup (map fst (Workflow.steps (workflow st))) ->
  NoDup (map (fun ks => WorkflowStep.step_id ks.2) (Workflow.steps (workflow st))) ->
  executed_steps st
    ⊆ list_to_set (map (fun ks => WorkflowStep.step_id ks.2)
                     (Workflow.steps (workflow st))) ->
  failed_are_ready st ->
  iteration world calls st = Exit st' ->
  failed_steps (Workflow.steps (workflow st')) = [].
Proof.
  intros Hkeys Hids Hsub Hfailed Hexit.
  destruct (iteration_exit_spec _ _ _ _ Hexit) as (-> & _ & _).
  unfold failed_steps.
  destruct (List.filter _ _) as [|ks l] eqn:Hfilter; [reflexivity|].
  assert (Hin : In ks (List.filter
                         (fun ks => bool_decide (WorkflowStep.status ks.2 = FAILED))
                         (Workflow.steps (workflow st))))
    by (rewrite Hfilter; left; reflexivity).
  apply filter_In in Hin as [Hin Hstatus]. apply bool_decide_eq_true_1 in Hstatus.
  destruct (held_up_runs world calls ks.1 st) as [st'' Hcontinue]; [|congruence].
  unfold held_up_by. repeat (split; [assumption|]).
  exists ks.2. split; [now destruct ks|]. now apply Hfailed.
Qed.

(** The state in which a run on a workflow as created leaves the loop. *)
Lemma drive_from_pristine world calls fuel o workflow_id w st' :
  NoDup (map fst (Workflow.steps w)) ->
  NoDup (map (fun ks => WorkflowStep.step_id ks.2) (Workflow.steps w)) ->
  Forall (fun ks => pristine ks.2) (Workflow.steps w) ->
  Workflow.results w = ∅ ->
  drive world calls fuel (enter o workflow_id w) = Some st' ->
  failed_steps (Workflow.steps (workflow st')) = []
  ∧ recorded st'
  ∧ executed_steps st'
      ⊆ list_to_set (map (fun ks => WorkflowStep.step_id ks.2)
                       (Workflow.steps (workflow st')))
  ∧ Forall (fun ks => consistent ks.2) (Workflow.steps (workflow st')).
Proof.
  intros Hkeys Hids Hpristine Hempty Hdrive.
  apply drive_reaches in Hdrive as (st & Hreach & Hexit).
  assert (Hsub0 : executed_steps (enter o workflow_id w)
                  ⊆ list_to_set (map (fun ks => WorkflowStep.step_id ks.2)
                                   (Workflow.steps (workflow (enter o workflow_id w)))))
    by (cbn; set_solver).
  destruct (reaches_failed_are_ready _ _ _ _ Hreach) as (Hkeys' & Hids' & Hsub' & Hfailed);
    try assumption.
  { intros ks Hin Hstatus. cbn in Hin.
    rewrite List.Forall_forall in Hpristine.
    destruct (Hpristine ks Hin) as (Hpending & _). congruence. }
  destruct (reaches_recorded _ _ _ _ Hreach) as (_ & _ & _ & Hrecorded);
    try assumption.
  { split; cbn.
    - intros ks Hin. rewrite Hempty, lookup_empty.
      rewrite List.Forall_forall in Hpristine.
      destruct (Hpristine ks Hin) as (_ & Hresult & _). now rewrite Hresult.
    - intros id Hsome. rewrite Hempty, lookup_empty in Hsome.
      now apply is_Some_None in Hsome. }
  destruct (reaches_sound _ _ _ _ Hreach) as [_ Hsound].
  { exact Hkeys. }
  { cbn. eapply Forall_impl; [exact Hpristine|].
    intros ks Hks. now apply pristine_sound. }
  split; [now apply (exit_without_failed_step world calls st st')|].
  destruct (iteration_exit_spec _ _ _ _ Hexit) as (Hw & He & _).
  unfold recorded. rewrite Hw, He.
  split; [exact Hrecorded|]. split; [exact Hsub'|].
  eapply Forall_impl; [exact Hsound|]. intros ks Hks. apply Hks.
Qed.

Lemma get_workflow_results_completed o workflow_id w :
  active_workflows o !! workflow_id = Some w ->
  Workflow.status w = COMPLETED ->
  get_workflow_results o workflow_id = Return (Results (Workflow.results w)).
Proof.
  intros Hw Hstatus. unfold get_workflow_results, get_workflow_status.
  rewrite Hw. cbn. rewrite Hstatus. cbn.
  destruct (decide _) as [Hne|_]; [now contradiction Hne|reflexivity].
Qed.




(** *** What a run leaves alone *)

Lemma control_effect_identity c w : identity (control_effect c w) = identity w.
Proof.
  destruct c; cbn; [|reflexivity].
  now destruct (decide (Workflow.status w = RUNNING)).
Qed.

Lemma interfere_identity cs : forall wl,
  identity (interfere cs wl).1 = identity wl.1.
Proof.
  induction cs as [|c cs IH]; intros wl; [reflexivity|]. cbn.
  unfold interfere in IH. rewrite IH. cbn. apply control_effect_identity.
Qed.

Lemma fold_process_result_identity ds : forall st,
  identity (workflow (fold_left process_result ds st)) = identity (workflow st).
Proof.
  induction ds as [|d ds IH]; intros st; [reflexivity|]. cbn.
  rewrite IH. unfold process_result. now destruct d.2.
Qed.

Lemma iteration_identity world calls st :
  identity
    (workflow match iteration world calls st with Continue st' | Exit st' => st' end)
  = identity (workflow st).
Proof.
  unfold iteration.
  destruct (decide (size (executed_steps st) < length (Workflow.steps (workflow st))));
    [|reflexivity].
  destruct (ready_steps _ _) as [|r ready]; [reflexivity|].
  cbn [workflow]. rewrite fold_process_result_identity. cbn [workflow].
  now rewrite interfere_identity.
Qed.

Lemma conclude_identity st : identity (workflow (conclude st)) = identity (workflow st).
Proof. unfold conclude. now destruct (failed_steps _). Qed.

Lemma finished_blueprint world wave key step :
  WorkflowStep.agent_name (finished world wave key step) = WorkflowStep.agent_name step
  ∧ WorkflowStep.task (finished world wave key step) = WorkflowStep.task step.
Proof.
  unfold finished, mark, _execute_workflow_step, settle_step.
  destruct (send_message world wave key _ _) as [[r|]|e]; cbn;
    [destruct (A2A.MessageResponse.success r); cbn| |]; split; reflexivity.
Qed.

Lemma blueprint_after_wave world wave executed steps :
  blueprint (map (after_wave world wave executed) steps) = blueprint steps.
Proof.
  unfold blueprint. rewrite map_map. apply map_ext. intros ks. unfold after_wave.
  destruct (is_ready executed ks.2); [|reflexivity]. cbn.
  destruct (finished_fields world wave ks.1 ks.2) as [-> ->].
  destruct (finished_blueprint world wave ks.1 ks.2) as [-> ->]. reflexivity.
Qed.

Lemma drive_frame world calls fuel : forall st st',
  NoDup (map fst (Workflow.steps (workflow st))) ->
  drive world calls fuel st = Some st' ->
  identity (workflow st') = identity (workflow st)
  ∧ blueprint (Workflow.steps (workflow st')) = blueprint (Workflow.steps (workflow st)).
Proof.
  induction fuel as [|fuel IH]; intros st st' Hkeys; cbn;
    pose proof (iteration_identity world calls st) as Hidentity;
    destruct (iteration world calls st) as [st1|st1] eqn:Hiter; try discriminate.
  - intros [= <-]. split; [exact Hidentity|].
    now destruct (iteration_exit_spec _ _ _ _ Hiter) as (-> & _).
  - intros Hdrive.
    destruct (iteration_continue_spec _ _ _ _ Hkeys Hiter) as (Hsteps & _).
    destruct (IH st1 st') as [Hid Hblue]; [|assumption|].
    { rewrite Hsteps, after_wave_keys. exact Hkeys. }
    split; [congruence|].
    rewrite Hblue, Hsteps. apply blueprint_after_wave.
  - intros [= <-]. split; [exact Hidentity|].
    now destruct (iteration_exit_spec _ _ _ _ Hiter) as (-> & _).
Qed.

(** A run changes the progress of its workflow and nothing else: the
    other workflows of the registry are as they were, and so are the
    fields of the workflow written at its creation ([current_step] among
    them, which no run sets) and the keys, ids, agents, tasks and
    dependencies of its steps. *)
Theorem execute_workflow_changes_only_progress
    (world : World) (calls : nat -> list Control) (fuel : nat)
    (o o' : WorkflowOrchestrator) (workflow_id : string) (w : Workflow.t)
    (returned : Outcome (gmap string Payload)) :
  active_workflows o !! workflow_id = Some w ->
  NoDup (map fst (Workflow.steps w)) ->
  execute_workflow world calls fuel o workflow_id = Some (returned, o') ->
  (forall other, other ≠ workflow_id ->
     active_workflows o' !! other = active_workflows o !! other)
  ∧ exists w',
      active_workflows o' !! workflow_id = Some w'
      ∧ identity w' = identity w
      ∧ blueprint (Workflow.steps w') = blueprint (Workflow.steps w).
Proof.
  intros Hw Hkeys. unfold execute_workflow. rewrite Hw.
  destruct (drive world calls fuel (enter o workflow_id w)) as [st'|] eqn:Hdrive;
    [|discriminate].
  intros [= <- <-]. cbn [active_workflows]. split.
  - intros other Hother. now rewrite lookup_insert_ne.
  - exists (workflow (conclude st')). split; [apply lookup_insert_eq|].
    destruct (drive_frame world calls fuel (enter o workflow_id w) st' Hkeys Hdrive)
      as [Hid Hblue].
    rewrite conclude_identity, conclude_steps. split; assumption.
Qed.


Lemma execute_workflow_changes_only_progress_witness :
  active_workflows producing !! "workflow_s1" = Some production_workflow
  ∧ NoDup (map fst (Workflow.steps production_workflow))
  ∧ exists returned o',
      execute_workflow recovering cancelled_in_first_wave 6 producing "workflow_s1"
      = Some (returned, o')
      ∧ (forall other, other ≠ "workflow_s1" ->
           active_workflows o' !! other = active_workflows producing !! other)
      ∧ exists w',
          active_workflows o' !! "workflow_s1" = Some w'
          ∧ identity w' = identity production_workflow
          ∧ blueprint (Workflow.steps w')
            = blueprint (Workflow.steps production_workflow).
Proof.
  split; [exact production_registered|]. split; [exact production_keys|].
  assert (Hsome : match execute_workflow recovering cancelled_in_first_wave 6 producing
                          "workflow_s1"
                  with Some _ => true | None => false end = true)
    by (vm_compute; reflexivity).
  destruct (execute_workflow recovering cancelled_in_first_wave 6 producing "workflow_s1")
    as [[returned o']|] eqn:Hrun; [|discriminate Hsome].
  exists returned, o'. split; [reflexivity|].
  exact (execute_workflow_changes_only_progress recovering cancelled_in_first_wave 6
           producing o' "workflow_s1" production_workflow returned
           production_registered production_keys Hrun).
Defined.

(** *** From creation to completion *)

(** The production template is a valid acyclic graph on five levels,
    whatever the topic. *)
Lemma production_template_layered topic :
  layered production_level 5 (graph (_create_production_steps topic)).
Proof.
  change (graph (_create_production_steps topic))
    with (graph (Workflow.steps production_workflow)).
  split; [|split].
  - rewrite graph_keys. apply production_keys.
  - rewrite graph_ids_steps. apply production_step_ids.
  - intros n Hin. cbn in Hin.
    repeat (destruct Hin as [<-|Hin]); try contradiction;
      (split; [vm_compute; lia|]);
      intros dep Hdep; cbn in Hdep;
      repeat (destruct Hdep as [<-|Hdep]); try contradiction;
      (split; [cbn; tauto|vm_compute; lia]).
Qed.

Lemma production_template_pristine topic :
  Forall (fun ks => pristine ks.2) (_create_production_steps topic).
Proof. repeat constructor. Qed.

Lemma blueprint_ids steps :
  map (fun b => snd (fst (fst (fst b)))) (blueprint steps)
  = map (fun ks => WorkflowStep.step_id ks.2) steps.
Proof. unfold blueprint. now rewrite map_map. Qed.

Lemma all_completed_count (steps : list (string * WorkflowStep.t)) :
  Forall (fun ks => WorkflowStep.status ks.2 = COMPLETED) steps ->
  length (List.filter
            (fun ks => bool_decide (WorkflowStep.status ks.2 = COMPLETED)
                       || bool_decide (WorkflowStep.status ks.2 = FAILED)) steps)
  = length steps.
Proof.
  intros Hall. induction Hall as [|ks steps Hks _ IH]; [reflexivity|]. cbn.
  rewrite bool_decide_eq_true_2 by assumption. cbn. now rewrite IH.
Qed.

(** From creation to completion.  For every session and topic, the
    workflow [create_video_production_workflow] registers is run to the
    end by [execute_workflow] within five waves when the agents answer,
    whatever pause or cancel calls arrive: the call returns a result for
    each of the nine steps and for nothing else, the results query hands
    out the same dictionary, and the status query reports "completed",
    nine of nine steps, 100 percent, and no current step. *)
Theorem created_workflow_completes_within_five_waves
    (world : World) (calls : nat -> list Control) (fuel : nat)
    (o : WorkflowOrchestrator) (now session_id topic : string) :
  always_succeeds world ->
  5 <= fuel ->
  let created := create_video_production_workflow o now session_id topic in
  exists results o' w' report,
    created.1 = "workflow_" ++ session_id
    ∧ execute_workflow world calls fuel created.2 created.1 = Some (Return results, o')
    ∧ active_workflows o' !! created.1 = Some w'
    ∧ Workflow.status w' = COMPLETED
    ∧ Forall (fun ks => WorkflowStep.status ks.2 = COMPLETED) (Workflow.steps w')
    ∧ (forall id, is_Some (results !! id) <-> In id production_ids)
    ∧ get_workflow_results o' created.1 = Return (Results results)
    ∧ get_workflow_status o' created.1 = Status report
    ∧ StatusReport.status report = "completed"
    ∧ StatusReport.completed_steps report = 9
    ∧ StatusReport.total_steps report = 9
    ∧ StatusReport.progress report = 100%float
    ∧ StatusReport.current_step report = None.
Proof.
  intros Hsucceeds Hfuel created.
  set (workflow_id := "workflow_" ++ session_id).
  set (w := {| Workflow.workflow_id := workflow_id;
               Workflow.session_id := session_id;
               Workflow.topic := topic;
               Workflow.status := PENDING;
               Workflow.steps := _create_production_steps topic;
               Workflow.created_at := now;
               Workflow.current_step := None;
               Workflow.results := ∅ |}).
  assert (Hw : active_workflows created.2 !! workflow_id = Some w)
    by apply lookup_insert_eq.
  pose proof (production_template_layered topic) as Hlayered.
  pose proof Hlayered as (Hkeys & Hids & _).
  rewrite graph_keys in Hkeys. rewrite graph_ids_steps in Hids.
  destruct (drive_on_schedule world calls production_level 5 5 0 fuel
              (enter created.2 workflow_id w)) as (st & Hdrive & _ & Hcompleted);
    try assumption; try reflexivity.
  { unfold on_schedule. cbn. repeat split.
    - set_solver.
    - intros ks _ Hlt. inversion Hlt.
    - intros ks _ Hin. set_solver. }
  destruct (drive_from_pristine world calls fuel created.2 workflow_id w st
              Hkeys Hids (production_template_pristine topic) eq_refl Hdrive)
    as (Hnone & (Hsteps & Hdom) & Hsub & Hconsistent).
  destruct (drive_frame world calls fuel (enter created.2 workflow_id w) st Hkeys Hdrive)
    as [Hidentity Hblueprint].
  assert (Hfinal : workflow (conclude st) = Workflow.set_status COMPLETED (workflow st)).
  { unfold conclude. now rewrite Hnone. }
  assert (Hstep_ids : map (fun ks => WorkflowStep.step_id ks.2) (Workflow.steps (workflow st))
                      = production_ids).
  { rewrite <- blueprint_ids, Hblueprint, blueprint_ids. reflexivity. }
  assert (Hlength : length (Workflow.steps (workflow st)) = 9).
  { rewrite <- (length_map (fun ks => WorkflowStep.step_id ks.2)), Hstep_ids.
    reflexivity. }
  exists (Workflow.results (workflow (conclude st))),
    {| active_workflows :=
         <[workflow_id := workflow (conclude st)]> (active_workflows created.2);
       logger := log (conclude st) |},
    (workflow (conclude st)).
  eexists.
  change created.1 with workflow_id.
  split; [reflexivity|].
  split; [unfold execute_workflow; rewrite Hw, Hdrive; reflexivity|].
  cbn [active_workflows].
  split; [apply lookup_insert_eq|].
  split; [now rewrite Hfinal|].
  split; [now rewrite conclude_steps|].
  split.
  { rewrite Hfinal. cbn [Workflow.results Workflow.set_status]. intros id. split.
    - intros Hsome. rewrite <- Hstep_ids. apply list_elem_of_In.
      apply (elem_of_list_to_set (C := gset string)). apply Hsub. now apply Hdom.
    - intros Hin. rewrite <- Hstep_ids in Hin.
      apply in_map_iff in Hin as (ks & <- & Hin).
      rewrite (Hsteps ks Hin).
      rewrite List.Forall_forall in Hconsistent, Hcompleted.
      destruct (Hconsistent ks Hin) as [Hresult _]. apply Hresult.
      now apply Hcompleted. }
  split.
  { apply get_workflow_results_completed; [apply lookup_insert_eq|].
    now rewrite Hfinal. }
  unfold get_workflow_status. cbn [active_workflows]. rewrite lookup_insert_eq.
  split; [reflexivity|]. cbn [StatusReport.status StatusReport.completed_steps
    StatusReport.total_steps StatusReport.progress StatusReport.current_step].
  rewrite conclude_steps, (all_completed_count _ Hcompleted), Hlength, Hfinal.
  repeat split.
  change (Workflow.current_step (Workflow.set_status COMPLETED (workflow st)))
    with (identity (workflow st)).2.
  now rewrite Hidentity.
Qed.

Lemma created_workflow_completes_within_five_waves_witness :
  always_succeeds obliging
  ∧ 5 <= 5
  ∧ exists results o' w' report,
      (create_video_production_workflow new "2025-01-01T00:00:00" "s1" "rocks").1
      = "workflow_s1"
      ∧ execute_workflow obliging paused_in_first_wave 5 producing "workflow_s1"
        = Some (Return results, o')
      ∧ active_workflows o' !! "workflow_s1" = Some w'
      ∧ Workflow.status w' = COMPLETED
      ∧ Forall (fun ks => WorkflowStep.status ks.2 = COMPLETED) (Workflow.steps w')
      ∧ (forall id, is_Some (results !! id) <-> In id production_ids)
      ∧ get_workflow_results o' "workflow_s1" = Return (Results results)
      ∧ get_workflow_status o' "workflow_s1" = Status report
      ∧ StatusReport.status report = "completed"
      ∧ StatusReport.completed_steps report = 9
      ∧ StatusReport.total_steps report = 9
      ∧ StatusReport.progress report = 100%float
      ∧ StatusReport.current_step report = None.
Proof.
  assert (H2 : 5 <= 5) by lia.
  split; [exact obliging_always_succeeds|]. split; [exact H2|].
  exact (created_workflow_completes_within_five_waves obliging paused_in_first_wave 5
           new "2025-01-01T00:00:00" "s1" "rocks" obliging_always_succeeds H2).
Defined.

(** *** Resuming *)

Lemma is_ready_at_start step :
  is_ready ∅ step
  = match WorkflowStep.dependencies step with [] => true | _ :: _ => false end.
Proof.
  unfold is_ready. rewrite bool_decide_eq_true_2 by set_solver.
  destruct (WorkflowStep.dependencies step) as [|dep deps]; [reflexivity|].
  cbn. rewrite bool_decide_eq_false_2 by set_solver. reflexivity.
Qed.

Lemma finished_started_at world wave key step :
  WorkflowStep.started_at (finished world wave key step)
  = Some (started_time world wave key).
Proof.
  unfold finished, mark, _execute_workflow_step, settle_step.
  destruct (send_message world wave key _ _) as [[r|]|e]; cbn;
    [destruct (A2A.MessageResponse.success r); cbn| |]; reflexivity.
Qed.

(** [resume_workflow] starts [execute_workflow] anew, and that call begins
    with an empty set of executed steps: its first wave dispatches every
    step without dependencies once more, whatever status and result the
    step has from the run before the pause, and leaves the other steps
    waiting. *)
Theorem resumed_workflow_is_run_from_the_start
    (world : World) (calls : nat -> list Control)
    (o : WorkflowOrchestrator) (workflow_id : string) (w : Workflow.t) :
  active_workflows o !! workflow_id = Some w ->
  Workflow.status w = PAUSED ->
  NoDup (map fst (Workflow.steps w)) ->
  (exists ks, In ks (Workflow.steps w) ∧ WorkflowStep.dependencies ks.2 = []) ->
  exists o' st',
    resume_workflow o workflow_id = (true, o', Some workflow_id)
    ∧ active_workflows o' !! workflow_id = Some (Workflow.set_status RUNNING w)
    ∧ iteration world calls (enter o' workflow_id (Workflow.set_status RUNNING w))
      = Continue st'
    ∧ Workflow.steps (workflow st') = map (first_wave world) (Workflow.steps w)
    ∧ forall ks, In ks (Workflow.steps w) ->
        WorkflowStep.dependencies ks.2 = [] ->
        exists step',
          In (ks.1, step') (Workflow.steps (workflow st'))
          ∧ WorkflowStep.started_at step' = Some (started_time world 0 ks.1).
Proof.
  intros Hw Hstatus Hkeys (root & Hroot & Hdeps).
  set (o' := {| active_workflows :=
                  <[workflow_id := Workflow.set_status RUNNING w]> (active_workflows o);
                logger := logger o ++ [LogResumed workflow_id] |}).
  set (start := enter o' workflow_id (Workflow.set_status RUNNING w)).
  destruct (iteration_runs world calls start) as [st' Hiter].
  { cbn. rewrite size_empty. destruct (Workflow.steps w); [contradiction|cbn; lia]. }
  { intros Hnil. change (ready_steps ∅ (Workflow.steps w) = []) in Hnil.
    assert (H : In root (ready_steps ∅ (Workflow.steps w))).
    { apply filter_In. split; [assumption|]. now rewrite is_ready_at_start, Hdeps. }
    now rewrite Hnil in H. }
  destruct (iteration_continue_spec world calls start st' Hkeys Hiter) as (Hsteps & _).
  assert (Hfirst : Workflow.steps (workflow st') = map (first_wave world) (Workflow.steps w)).
  { rewrite Hsteps. cbn. apply map_ext. intros ks.
    unfold after_wave, first_wave. rewrite is_ready_at_start.
    now destruct (WorkflowStep.dependencies ks.2). }
  exists o', st'.
  split.
  { unfold resume_workflow. rewrite Hw.
    destruct (decide (Workflow.status w = PAUSED)); [reflexivity|contradiction]. }
  split; [apply lookup_insert_eq|].
  split; [exact Hiter|]. split; [exact Hfirst|].
  intros ks Hin Hnone. exists (finished world 0 ks.1 ks.2).
  split; [|apply finished_started_at].
  rewrite Hfirst. apply in_map_iff. exists ks. split; [|assumption].
  unfold first_wave. now rewrite Hnone.
Qed.


(** The production workflow is paused after its first wave and resumed:
    the research steps, completed before the pause, are dispatched again. *)
Lemma resumed_workflow_is_run_from_the_start_witness :
  active_workflows interrupted !! "workflow_s1" = Some paused_after_research
  ∧ Workflow.status paused_after_research = PAUSED
  ∧ NoDup (map fst (Workflow.steps paused_after_research))
  ∧ (exists ks, In ks (Workflow.steps paused_after_research)
                ∧ WorkflowStep.dependencies ks.2 = [])
  ∧ (WorkflowStep.status
       <$> (snd <$> List.find (fun ks => bool_decide (ks.1 = "research_trends"))
                      (Workflow.steps paused_after_research))
      = Some COMPLETED)
  ∧ exists o' st',
      resume_workflow interrupted "workflow_s1" = (true, o', Some "workflow_s1")
      ∧ active_workflows o' !! "workflow_s1"
        = Some (Workflow.set_status RUNNING paused_after_research)
      ∧ iteration obliging undisturbed
          (enter o' "workflow_s1" (Workflow.set_status RUNNING paused_after_research))
        = Continue st'
      ∧ Workflow.steps (workflow st')
        = map (first_wave obliging) (Workflow.steps paused_after_research)
      ∧ forall ks, In ks (Workflow.steps paused_after_research) ->
          WorkflowStep.dependencies ks.2 = [] ->
          exists step',
            In (ks.1, step') (Workflow.steps (workflow st'))
            ∧ WorkflowStep.started_at step' = Some (started_time obliging 0 ks.1).
Proof.
  assert (H1 : active_workflows interrupted !! "workflow_s1" = Some paused_after_research)
    by apply lookup_singleton_eq.
  assert (H2 : Workflow.status paused_after_research = PAUSED) by reflexivity.
  assert (H3 : NoDup (map fst (Workflow.steps paused_after_research))).
  { apply (@bool_decide_unpack _ (NoDup_dec _)). vm_compute. exact I. }
  assert (H4 : exists ks, In ks (Workflow.steps paused_after_research)
                          ∧ WorkflowStep.dependencies ks.2 = []).
  { eexists. split; [vm_compute; left; reflexivity|reflexivity]. }
  split; [exact H1|]. split; [exact H2|]. split; [exact H3|]. split; [exact H4|].
  split; [vm_compute; reflexivity|].
  exact (resumed_workflow_is_run_from_the_start obliging undisturbed interrupted
           "workflow_s1" paused_after_research H1 H2 H3 H4).
Defined.


(** *** The results query *)

Lemma value_completed s : value s = "completed" <-> s = COMPLETED.
Proof. split; [now destruct s|now intros ->]. Qed.

(** The results query hands out the results of a workflow that is
    [COMPLETED] and of no other: for every other status it returns the
    error dictionary, and for an id that is not registered it raises
    [KeyError] where the status query returns an error value.  A
    workflow that is cancelled after it has completed keeps its results,
    but the query does not hand them out any more. *)
Theorem results_query_serves_completed_workflows_only
    (o : WorkflowOrchestrator) (workflow_id : string) :
  match active_workflows o !! workflow_id with
  | None =>
      get_workflow_results o workflow_id = Raise "'status'"
      ∧ get_workflow_status o workflow_id = StatusError "Workflow not found"
  | Some w =>
      get_workflow_results o workflow_id
      = (if decide (Workflow.status w = COMPLETED) then
           Return (Results (Workflow.results w))
         else Return (ResultsError "Workflow not completed"))
      ∧ get_workflow_results (cancel_workflow o workflow_id).2 workflow_id
        = Return (ResultsError "Workflow not completed")
      ∧ Workflow.results <$> active_workflows (cancel_workflow o workflow_id).2 !! workflow_id
        = Some (Workflow.results w)
  end.
Proof.
  destruct (active_workflows o !! workflow_id) as [w|] eqn:Hw.
  - split; [|split].
    + destruct (decide (Workflow.status w = COMPLETED)) as [Hcompleted|Hother].
      * now apply get_workflow_results_completed.
      * unfold get_workflow_results, get_workflow_status. rewrite Hw. cbn.
        destruct (decide _) as [_|Hcompleted]; [reflexivity|].
        exfalso. apply Hother, value_completed.
        destruct (decide (value (Workflow.status w) = "completed")); [assumption|].
        contradiction.
    + rewrite (cancel_workflow_registered _ _ _ Hw).
      unfold get_workflow_results, get_workflow_status. cbn.
      rewrite lookup_insert_eq. reflexivity.
    + rewrite (cancel_workflow_registered _ _ _ Hw). cbn.
      now rewrite lookup_insert_eq.
  - unfold get_workflow_results, get_workflow_status. rewrite Hw. split; reflexivity.
Qed.

(** *** The order of the dispatches *)






Lemma reaches_trans world calls st0 st1 st2 :
  reaches world calls st0 st1 ->
  reaches world calls st1 st2 ->
  reaches world calls st0 st2.
Proof.
  intros H01 H12. induction H12 as [st1|st1 st st' H12 IH Hiter]; [assumption|].
  eapply reaches_wave; [now apply IH|exact Hiter].
Qed.





End OrchestratorFacts.

(** ** Long-running operations *)

Module LongRunningFacts.
Import LongRunning.

Lemma task_key_inj i j : task_key i = task_key j -> i = j.
Proof.
  unfold task_key. intros H. apply (String.app_inj "task_") in H.
  now apply (inj pretty) in H.
Qed.

(** *** Controls *)

Lemma control_not_cancelled self c :
  c ≠ CallCancel -> state self ≠ "cancelled" -> state (control self c) ≠ "cancelled".
Proof.
  intros Hc Hstate. destruct c as [now|now|]; [| |contradiction]; cbn.
  - unfold pause. destruct (decide (state self = "running")); [cbn; discriminate|assumption].
  - unfold resume. destruct (decide (state self = "paused")); [cbn; discriminate|assumption].
Qed.

Lemma interfere_not_cancelled calls : forall self,
  no_cancel calls -> state self ≠ "cancelled" ->
  state (interfere calls self) ≠ "cancelled".
Proof.
  induction calls as [|c calls IH]; intros self Hcalls Hstate; [assumption|].
  inversion Hcalls as [|? ? Hc Hrest]; subst. cbn.
  apply IH; [assumption|]. now apply control_not_cancelled.
Qed.

(** Once cancelled, an operation stays cancelled whatever is called. *)
Lemma control_cancelled self c :
  state self = "cancelled" -> control self c = self ∨ state (control self c) = "cancelled".
Proof.
  intros Hstate. destruct c as [now|now|]; cbn.
  - left. unfold pause. rewrite Hstate. reflexivity.
  - left. unfold resume. rewrite Hstate. reflexivity.
  - right. reflexivity.
Qed.

Lemma interfere_cancelled calls : forall self,
  state self = "cancelled" -> state (interfere calls self) = "cancelled".
Proof.
  induction calls as [|c calls IH]; intros self Hstate; [assumption|]. cbn.
  apply IH. destruct (control_cancelled self c Hstate) as [->|H]; assumption.
Qed.

Lemma interfere_with_cancel calls : forall self,
  In CallCancel calls -> state (interfere calls self) = "cancelled".
Proof.
  induction calls as [|c calls IH]; intros self Hin; [contradiction|].
  cbn. destruct Hin as [->|Hin]; [|now apply IH].
  now apply interfere_cancelled.
Qed.

Lemma wait_while_paused_not_cancelled polls patience : forall k self self',
  (forall k, no_cancel (polls k)) ->
  state self ≠ "cancelled" ->
  wait_while_paused polls k patience self = Some self' ->
  state self' ≠ "cancelled" ∧ state self' ≠ "paused".
Proof.
  induction patience as [|patience IH]; intros k self self' Hpolls Hstate; cbn;
    destruct (decide (state self = "paused")) as [Hpaused|Hpaused]; try discriminate.
  - intros [= <-]. auto.
  - intros Hwait. eapply IH; [exact Hpolls| |exact Hwait].
    now apply interfere_not_cancelled.
  - intros [= <-]. auto.
Qed.

(** *** The results of a run *)

Lemma collect_other key tasks : forall i results,
  (forall j, key ≠ task_key j) ->
  collect i tasks results !! key = results !! key.
Proof.
  induction tasks as [|task tasks IH]; intros i results Hkey; [reflexivity|].
  cbn. rewrite IH by assumption. now rewrite lookup_insert_ne.
Qed.

Lemma collect_before tasks : forall i j results,
  j < i -> collect i tasks results !! task_key j = results !! task_key j.
Proof.
  induction tasks as [|task tasks IH]; intros i j results Hlt; [reflexivity|].
  cbn. rewrite IH by lia. rewrite lookup_insert_ne; [reflexivity|].
  intros H. apply task_key_inj in H. lia.
Qed.

Lemma collect_lookup tasks : forall i results n task,
  tasks !! n = Some task ->
  collect i tasks results !! task_key (i + n) = Some (entry task).
Proof.
  induction tasks as [|t tasks IH]; intros i results n task Hn; [discriminate|].
  destruct n as [|n]; cbn in *.
  - injection Hn as ->. rewrite Nat.add_0_r.
    rewrite collect_before by lia. apply lookup_insert_eq.
  - replace (i + S n) with (S i + n) by lia. now apply IH.
Qed.

Lemma collect_keys tasks : forall i results key,
  is_Some (collect i tasks results !! key) ->
  is_Some (results !! key) ∨ exists n, n < length tasks ∧ key = task_key (i + n).
Proof.
  induction tasks as [|t tasks IH]; intros i results key Hsome; [now left|].
  cbn in Hsome. destruct (IH _ _ _ Hsome) as [Hold|(n & Hn & ->)].
  - destruct (decide (key = task_key i)) as [->|Hne].
    + right. exists 0. cbn. split; [lia|]. now rewrite Nat.add_0_r.
    + left. now rewrite lookup_insert_ne in Hold.
  - right. exists (S n). cbn. split; [lia|]. f_equal. lia.
Qed.

(** Without a cancel, a loop that comes back has gone through every task. *)
Lemma run_tasks_uncancelled total polls patience tasks :
  forall i self results results' self',
    Forall (fun task => no_cancel (Task.during task)) tasks ->
    (forall i k, no_cancel (polls i k)) ->
    state self ≠ "cancelled" ->
    run_tasks total i tasks polls patience self results = Some (results', self') ->
    results' = collect i tasks results.
Proof.
  induction tasks as [|task tasks IH];
    intros i self results results' self' Hduring Hpolls Hstate; cbn.
  - now intros [= <- <-].
  - inversion Hduring as [|? ? Htask Hrest]; subst.
    destruct (if decide (state self = "paused")
              then wait_while_paused (polls i) 0 patience self else Some self)
      as [self1|] eqn:Hwait; [|discriminate].
    assert (Hstate1 : state self1 ≠ "cancelled").
    { destruct (decide (state self = "paused")).
      - now apply (wait_while_paused_not_cancelled (polls i) patience 0 self self1).
      - now injection Hwait as <-. }
    destruct (decide (state self1 = "cancelled")); [contradiction|].
    pose proof (interfere_not_cancelled _ self1 Htask Hstate1) as Hstate2.
    unfold entry. destruct (Task.outcome task) as [result|e]; intros Hrun.
    + eapply IH; [exact Hrest|exact Hpolls| |exact Hrun]. exact Hstate2.
    + eapply IH; [exact Hrest|exact Hpolls| |exact Hrun]. exact Hstate2.
Qed.

(** Without a pause or cancel during the tasks, the loop comes back. *)
Lemma run_tasks_undisturbed total polls patience tasks :
  forall i self results,
    Forall (fun task => Task.during task = []) tasks ->
    state self = "running" ->
    exists self',
      run_tasks total i tasks polls patience self results
      = Some (collect i tasks results, self')
      ∧ state self' = "running".
Proof.
  induction tasks as [|task tasks IH]; intros i self results Hduring Hstate; cbn.
  - eauto.
  - inversion Hduring as [|? ? Htask Hrest]; subst.
    destruct (decide (state self = "paused")) as [Hpaused|_];
      [rewrite Hstate in Hpaused; discriminate|].
    destruct (decide (state self = "cancelled")) as [Hcancelled|_];
      [rewrite Hstate in Hcancelled; discriminate|].
    rewrite Htask. cbn [interfere fold_left].
    unfold entry. destruct (Task.outcome task) as [result|e]; apply IH; auto.
Qed.


Lemma run_tasks_checkpoints total polls patience tasks :
  forall i self results,
    Forall (fun task => Task.during task = []) tasks ->
    state self = "running" ->
    exists self' added,
      run_tasks total i tasks polls patience self results
      = Some (collect i tasks results, self')
      ∧ checkpoints self' = (checkpoints self ++ added)%list
      ∧ length added = length (List.filter returned tasks)
      ∧ Forall (fun c => Checkpoint.state c = "running") added.
Proof.
  induction tasks as [|task tasks IH]; intros i self results Hduring Hstate;
    cbn [run_tasks collect].
  - exists self, []. split; [reflexivity|]. split; [now rewrite app_nil_r|].
    split; [reflexivity|constructor].
  - inversion Hduring as [|? ? Htask Hrest]; subst.
    destruct (decide (state self = "paused")) as [Hpaused|_];
      [rewrite Hstate in Hpaused; discriminate|].
    destruct (decide (state self = "cancelled")) as [Hcancelled|_];
      [rewrite Hstate in Hcancelled; discriminate|].
    rewrite Htask. cbn [interfere fold_left List.filter].
    unfold entry, returned. destruct (Task.outcome task) as [result|e].
    + set (self1 := _create_checkpoint (Task.finished_at task)
                      (set_progress (float_of_nat (i + 1) / float_of_nat total)%float self)
                      (task_key i ++ "_completed") result).
      destruct (IH (S i) self1 (<[task_key i := result]> results) Hrest Hstate)
        as (self' & added & Hrun & Hadded & Hlength & Hstates).
      exists self'. eexists. split; [exact Hrun|].
      split; [rewrite Hadded; cbn; rewrite <- app_assoc; reflexivity|].
      split; [cbn; now rewrite Hlength|].
      constructor; [exact Hstate|exact Hstates].
    + destruct (IH (S i) self (<[task_key i := [("error", e)]]> results) Hrest Hstate)
        as (self' & added & Hrun & Hadded & Hlength & Hstates).
      exists self', added. repeat split; assumption.
Qed.

(** An operation nobody interferes with goes through all its tasks: the
    call returns, whatever the tasks do; the results have under
    [task_<i>] what task [i] returned, or its error, and nothing else; a
    checkpoint is written for each task that returned and for no other;
    the operation ends completed. *)
Theorem undisturbed_execute_runs_every_task
    (tasks : list Task.t) (polls : nat -> nat -> list Control) (patience : nat)
    (self : LongRunningOperation) :
  Forall (fun task => Task.during task = []) tasks ->
  exists results self' added,
    execute tasks polls patience self = Some (results, self')
    ∧ (forall i task, tasks !! i = Some task ->
         results !! task_key i = Some (entry task))
    ∧ (forall key, is_Some (results !! key) ->
         exists i, i < length tasks ∧ key = task_key i)
    ∧ checkpoints self' = (checkpoints self ++ added)%list
    ∧ length added = length (List.filter returned tasks)
    ∧ state self' = "completed"
    ∧ progress self' = 1.0%float.
Proof.
  intros Hduring. unfold execute.
  destruct (run_tasks_checkpoints (length tasks) polls patience tasks 0
              (set_state "running" self) ∅ Hduring eq_refl)
    as (self' & added & Hrun & Hadded & Hlength & _).
  rewrite Hrun. eexists. eexists. exists added.
  split; [reflexivity|]. split; [|split; [|split; [exact Hadded|]]].
  - intros i task Hi. now apply (collect_lookup tasks 0 ∅ i task).
  - intros key Hsome. apply collect_keys in Hsome as [Hempty|Hkey]; [|exact Hkey].
    rewrite lookup_empty in Hempty. now apply is_Some_None in Hempty.
  - split; [exact Hlength|]. split; reflexivity.
Qed.

Lemma undisturbed_execute_runs_every_task_witness :
  Forall (fun task => Task.during task = []) rendering
  ∧ exists results self' added,
      execute rendering quiet 0 (new "op-1" "render" "t0") = Some (results, self')
      ∧ (forall i task, rendering !! i = Some task ->
           results !! task_key i = Some (entry task))
      ∧ (forall key, is_Some (results !! key) ->
           exists i, i < length rendering ∧ key = task_key i)
      ∧ checkpoints self' = (checkpoints (new "op-1" "render" "t0") ++ added)%list
      ∧ length added = length (List.filter returned rendering)
      ∧ state self' = "completed"
      ∧ progress self' = 1.0%float.
Proof.
  assert (H : Forall (fun task => Task.during task = []) rendering)
    by (repeat constructor).
  split; [exact H|].
  exact (undisturbed_execute_runs_every_task rendering quiet 0
           (new "op-1" "render" "t0") H).
Defined.

(** Pausing and resuming delay an operation and change nothing else in
    its results: as long as nobody cancels, a call of [execute] that
    comes back has the result or the error of every task, and the
    operation ends completed. *)
Theorem pause_and_resume_do_not_change_the_results
    (tasks : list Task.t) (polls : nat -> nat -> list Control) (patience : nat)
    (self self' : LongRunningOperation) (results : gmap string Payload) :
  Forall (fun task => no_cancel (Task.during task)) tasks ->
  (forall i k, no_cancel (polls i k)) ->
  execute tasks polls patience self = Some (results, self') ->
  (forall i task, tasks !! i = Some task ->
     results !! task_key i = Some (entry task))
  ∧ (forall key, is_Some (results !! key) ->
       exists i, i < length tasks ∧ key = task_key i)
  ∧ state self' = "completed"
  ∧ progress self' = 1.0%float.
Proof.
  intros Hduring Hpolls. unfold execute.
  destruct (run_tasks (length tasks) 0 tasks polls patience (set_state "running" self) ∅)
    as [[results1 self1]|] eqn:Hrun; [|discriminate].
  intros [= <- <-].
  apply run_tasks_uncancelled in Hrun; [|assumption|assumption|cbn; discriminate].
  subst results1. split; [|split; [|split; reflexivity]].
  - intros i task Hi. now apply (collect_lookup tasks 0 ∅ i task).
  - intros key Hsome. apply collect_keys in Hsome as [Hempty|Hkey]; [|exact Hkey].
    rewrite lookup_empty in Hempty. now apply is_Some_None in Hempty.
Qed.


(** The operation is paused while its first task is awaited and resumed
    during its third sleep. *)
Lemma pause_and_resume_do_not_change_the_results_witness :
  Forall (fun task => no_cancel (Task.during task)) (disturbed [CallPause "t4"])
  ∧ (forall i k, no_cancel (resumed_late i k))
  ∧ exists results self',
      execute (disturbed [CallPause "t4"]) resumed_late 5 (new "op-1" "render" "t0")
      = Some (results, self')
      ∧ (forall i task, disturbed [CallPause "t4"] !! i = Some task ->
           results !! task_key i = Some (entry task))
      ∧ (forall key, is_Some (results !! key) ->
           exists i, i < length (disturbed [CallPause "t4"]) ∧ key = task_key i)
      ∧ state self' = "completed"
      ∧ progress self' = 1.0%float.
Proof.
  assert (H1 : Forall (fun task => no_cancel (Task.during task))
                 (disturbed [CallPause "t4"])).
  { repeat constructor. discriminate. }
  assert (H2 : forall i k, no_cancel (resumed_late i k)).
  { intros i k. unfold resumed_late. destruct (decide _); repeat constructor.
    discriminate. }
  split; [exact H1|]. split; [exact H2|].
  assert (Hsome : match execute (disturbed [CallPause "t4"]) resumed_late 5
                          (new "op-1" "render" "t0")
                  with Some _ => true | None => false end = true)
    by (vm_compute; reflexivity).
  destruct (execute (disturbed [CallPause "t4"]) resumed_late 5
              (new "op-1" "render" "t0")) as [[results self']|] eqn:Hrun;
    [|discriminate Hsome].
  exists results, self'. split; [reflexivity|].
  exact (pause_and_resume_do_not_change_the_results (disturbed [CallPause "t4"])
           resumed_late 5 (new "op-1" "render" "t0") self' results H1 H2 Hrun).
Defined.

(** *** Cancelling and pausing *)

Lemma collect_app before : forall i rest results,
  collect i (before ++ rest) results
  = collect (i + length before) rest (collect i before results).
Proof.
  induction before as [|task before IH]; intros i rest results; cbn.
  - now rewrite Nat.add_0_r.
  - rewrite IH. f_equal. lia.
Qed.

(** The tasks nobody interferes with, at the head of the list. *)
Lemma run_tasks_prefix total polls patience before :
  forall i self results,
    Forall (fun task => Task.during task = []) before ->
    state self = "running" ->
    exists self1,
      state self1 = "running"
      ∧ forall rest,
          run_tasks total i (before ++ rest) polls patience self results
          = run_tasks total (i + length before) rest polls patience self1
              (collect i before results).
Proof.
  induction before as [|task before IH]; intros i self results Hduring Hstate.
  - exists self. split; [assumption|]. intros rest. cbn. now rewrite Nat.add_0_r.
  - inversion Hduring as [|? ? Htask Hrest]; subst.
    assert (Hstep : forall self0, state self0 = "running" ->
              exists self1, state self1 = "running"
                ∧ forall rest,
                    run_tasks total (S i) (before ++ rest) polls patience self0
                      (<[task_key i := entry task]> results)
                    = run_tasks total (i + length (task :: before)) rest polls patience
                        self1 (collect i (task :: before) results)).
    { intros self0 Hstate0.
      destruct (IH (S i) self0 (<[task_key i := entry task]> results) Hrest Hstate0)
        as (self1 & Hstate1 & Hrun).
      exists self1. split; [assumption|]. intros rest. rewrite Hrun. cbn.
      f_equal. lia. }
    unfold entry in Hstep.
    destruct (Task.outcome task) as [result|e] eqn:Houtcome.
    + destruct (Hstep (_create_checkpoint (Task.finished_at task)
                         (set_progress (float_of_nat (i + 1) / float_of_nat total)%float
                            self)
                         (task_key i ++ "_completed") result) Hstate)
        as (self1 & Hstate1 & Hrun).
      exists self1. split; [assumption|]. intros rest.
      rewrite <- Hrun. cbn [app run_tasks].
      destruct (decide (state self = "paused")) as [Hpaused|_];
        [rewrite Hstate in Hpaused; discriminate|].
      destruct (decide (state self = "cancelled")) as [Hcancelled|_];
        [rewrite Hstate in Hcancelled; discriminate|].
      rewrite Htask, Houtcome. reflexivity.
    + destruct (Hstep self Hstate) as (self1 & Hstate1 & Hrun).
      exists self1. split; [assumption|]. intros rest.
      rewrite <- Hrun. cbn [app run_tasks].
      destruct (decide (state self = "paused")) as [Hpaused|_];
        [rewrite Hstate in Hpaused; discriminate|].
      destruct (decide (state self = "cancelled")) as [Hcancelled|_];
        [rewrite Hstate in Hcancelled; discriminate|].
      rewrite Htask, Houtcome. reflexivity.
Qed.

(** A cancelled operation starts no task. *)
Lemma run_tasks_cancelled total polls patience tasks i self results :
  state self = "cancelled" ->
  run_tasks total i tasks polls patience self results = Some (results, self).
Proof.
  intros Hstate. destruct tasks as [|task tasks]; [reflexivity|]. cbn.
  destruct (decide (state self = "paused")) as [Hpaused|_];
    [rewrite Hstate in Hpaused; discriminate|].
  destruct (decide (state self = "cancelled")); [reflexivity|contradiction].
Qed.

(** A cancel stops the operation at the next task, and leaves no trace.
    When a cancel arrives while a task is awaited, that task is still
    seen to its end and recorded, and no later task is started; but the
    call then sets the state to completed and the progress to 1.0, as
    after a full run. *)
Theorem cancel_stops_the_remaining_tasks
    (before after : list Task.t) (task : Task.t)
    (polls : nat -> nat -> list Control) (patience : nat)
    (self : LongRunningOperation) :
  Forall (fun b => Task.during b = []) before ->
  In CallCancel (Task.during task) ->
  exists results self',
    execute (before ++ task :: after) polls patience self = Some (results, self')
    ∧ (forall i t, (before ++ [task])%list !! i = Some t ->
         results !! task_key i = Some (entry t))
    ∧ (forall key, is_Some (results !! key) ->
         exists i, i <= length before ∧ key = task_key i)
    ∧ state self' = "completed"
    ∧ progress self' = 1.0%float
    ∧ Status.state (get_status self') = "completed".
Proof.
  intros Hbefore Hcancel. unfold execute.
  destruct (run_tasks_prefix (length (before ++ task :: after)) polls patience before 0
              (set_state "running" self) ∅ Hbefore eq_refl) as (self1 & Hstate1 & Hrun).
  rewrite Hrun. cbn [run_tasks].
  destruct (decide (state self1 = "paused")) as [Hpaused|_];
    [rewrite Hstate1 in Hpaused; discriminate|].
  destruct (decide (state self1 = "cancelled")) as [Hcancelled|_];
    [rewrite Hstate1 in Hcancelled; discriminate|].
  pose proof (interfere_with_cancel _ self1 Hcancel) as Hstate2.
  assert (Hresults : forall results,
            results = <[task_key (0 + length before) := entry task]> (collect 0 before ∅) ->
            (forall i t, (before ++ [task])%list !! i = Some t ->
               results !! task_key i = Some (entry t))
            ∧ (forall key, is_Some (results !! key) ->
                 exists i, i <= length before ∧ key = task_key i)).
  { intros results ->.
    change (<[task_key (0 + length before) := entry task]> (collect 0 before ∅))
      with (collect (0 + length before) [task] (collect 0 before ∅)).
    rewrite <- collect_app. split.
    - intros i t Hi. now apply (collect_lookup (before ++ [task]) 0 ∅ i t).
    - intros key Hsome. apply collect_keys in Hsome as [Hempty|(n & Hn & ->)].
      + rewrite lookup_empty in Hempty. now apply is_Some_None in Hempty.
      + exists n. rewrite length_app in Hn. cbn in Hn. split; [lia|reflexivity]. }
  unfold entry in Hresults.
  destruct (Task.outcome task) as [result|e].
  - rewrite run_tasks_cancelled by exact Hstate2.
    eexists. eexists. split; [reflexivity|].
    destruct (Hresults _ eq_refl) as [Hentries Hkeys].
    split; [exact Hentries|]. split; [exact Hkeys|]. repeat split.
  - rewrite run_tasks_cancelled by exact Hstate2.
    eexists. eexists. split; [reflexivity|].
    destruct (Hresults _ eq_refl) as [Hentries Hkeys].
    split; [exact Hentries|]. split; [exact Hkeys|]. repeat split.
Qed.

Lemma cancel_stops_the_remaining_tasks_witness :
  Forall (fun b => Task.during b = []) []
  ∧ In CallCancel [CallCancel]
  ∧ exists results self',
      execute (disturbed [CallCancel]) quiet 0 (new "op-1" "render" "t0")
      = Some (results, self')
      ∧ (forall i t, [ {| Task.outcome := Return [("frames", "240")];
                          Task.during := [CallCancel];
                          Task.finished_at := "t1" |} ] !! i = Some t ->
           results !! task_key i = Some (entry t))
      ∧ (forall key, is_Some (results !! key) -> exists i, i <= 0 ∧ key = task_key i)
      ∧ state self' = "completed"
      ∧ progress self' = 1.0%float
      ∧ Status.state (get_status self') = "completed".
Proof.
  assert (H1 : Forall (fun b => Task.during b = []) []) by constructor.
  assert (H2 : In CallCancel [CallCancel]) by (left; reflexivity).
  split; [exact H1|]. split; [exact H2|].
  exact (cancel_stops_the_remaining_tasks [] (tail rendering)
           {| Task.outcome := Return [("frames", "240")]; Task.during := [CallCancel];
              Task.finished_at := "t1" |}
           quiet 0 (new "op-1" "render" "t0") H1 H2).
Defined.

Lemma wait_for_ever polls patience : forall k self,
  (forall k, polls k = []) ->
  state self = "paused" ->
  wait_while_paused polls k patience self = None.
Proof.
  induction patience as [|patience IH]; intros k self Hpolls Hstate; cbn;
    (destruct (decide (state self = "paused")); [|contradiction]); [reflexivity|].
  rewrite Hpolls. cbn. now apply IH.
Qed.

(** A paused operation waits until somebody resumes or cancels it.  When
    a pause arrives while a task is awaited, that task is seen to its
    end; before the next task the call sleeps as long as the state is
    paused, and if nobody calls it never comes back. *)
Theorem paused_operation_waits_for_a_resume
    (before after : list Task.t) (task next : Task.t) (now : string)
    (polls : nat -> nat -> list Control) (patience : nat)
    (self : LongRunningOperation) :
  Forall (fun b => Task.during b = []) before ->
  Task.during task = [CallPause now] ->
  (forall k, polls (S (length before)) k = []) ->
  execute (before ++ task :: next :: after) polls patience self = None.
Proof.
  intros Hbefore Hpause Hquiet. unfold execute.
  destruct (run_tasks_prefix (length (before ++ task :: next :: after)) polls patience
              before 0 (set_state "running" self) ∅ Hbefore eq_refl)
    as (self1 & Hstate1 & Hrun).
  rewrite Hrun. cbn [run_tasks].
  destruct (decide (state self1 = "paused")) as [Hpaused|_];
    [rewrite Hstate1 in Hpaused; discriminate|].
  destruct (decide (state self1 = "cancelled")) as [Hcancelled|_];
    [rewrite Hstate1 in Hcancelled; discriminate|].
  rewrite Hpause. cbn [interfere fold_left control]. unfold pause.
  destruct (decide (state self1 = "running")) as [_|Hne]; [|contradiction]. cbn [snd].
  destruct (Task.outcome task) as [result|err]; cbn [run_tasks].
  - destruct (decide _) as [_|Hne]; [|now contradiction Hne].
    now rewrite wait_for_ever.
  - destruct (decide _) as [_|Hne]; [|now contradiction Hne].
    now rewrite wait_for_ever.
Qed.

Lemma paused_operation_waits_for_a_resume_witness :
  Forall (fun b => Task.during b = []) []
  ∧ Task.during {| Task.outcome := Return [("frames", "240")];
                   Task.during := [CallPause "t4"];
                   Task.finished_at := "t1" |} = [CallPause "t4"]
  ∧ (forall k, quiet 1 k = [])
  ∧ execute (disturbed [CallPause "t4"]) quiet 1000 (new "op-1" "render" "t0") = None.
Proof.
  assert (H1 : Forall (fun b => Task.during b = []) []) by constructor.
  assert (H3 : forall k, quiet 1 k = []) by reflexivity.
  split; [exact H1|]. split; [reflexivity|]. split; [exact H3|].
  exact (paused_operation_waits_for_a_resume []
           [ {| Task.outcome := Return [("file", "out.mp4")]; Task.during := [];
                Task.finished_at := "t3" |} ]
           {| Task.outcome := Return [("frames", "240")]; Task.during := [CallPause "t4"];
              Task.finished_at := "t1" |}
           {| Task.outcome := Raise "encoder crashed"; Task.during := [];
              Task.finished_at := "t2" |}
           "t4" quiet 1000 (new "op-1" "render" "t0") H1 eq_refl H3).
Defined.

End LongRunningFacts.
